(** * scribbledb: diagram layout and interactive offset engine

    A shallow embedding of [src/lib/dbml/layout.ts] (sizing, the graph given
    to the ELK solver, the extraction of its result) and of the drag geometry
    of [src/lib/components/Diagram.svelte] ([nodeX], [nodeY], [edgeNodeIds],
    [adjustedPoints], [onNodeMouseDown] and the effect that resets the
    offsets), followed by the proofs of the properties C1 to C10.

    Conventions.
    - A JavaScript [number] is an exact rational ([Q]); [===] on numbers is
      [Qeq_bool].  Rounding, infinities and NaN are outside the model.
      Quantities that are integers by construction (lengths, sizes of
      tables) are kept in [Z] and enter the graph through [inject_Z].
    - A JavaScript string is a [string]; [.length] is [String.length] (one
      character per code unit).
    - [undefined] is [None]; a [TypeError] raised by a property read on
      [undefined] is the [None] result of a function into [option].
    - An array with holes ([new Array(n)]) is a [list (option A)].
    - A loop that pushes to an array is a [foldl] whose state is the array;
      the closed forms the proofs use are stated as lemmas.
    - The solver is a parameter: a function from the graph to its result,
      [None] for a rejected promise.
    - The component is a state machine over its variables; the arrays of
      points are in a store, and a [LayoutResult] object carries an identity
      for [!==]. *)

From Stdlib Require Import QArith Qabs Qround ZArith Lia Lqa.
From stdpp Require Import base option list gmap strings fin_maps pretty.

(** ** Numbers and points *)

Module Point.
Record t : Type := mk { x : Q; y : Q }.
End Point.

Module Offset.
Record t : Type := mk { dx : Q; dy : Q }.
End Offset.

(** [a === b] on numbers. *)
Definition num_eqb (a b : Q) : bool := Qeq_bool a b.

(** [Math.abs(a) >= Math.abs(b)]. *)
Definition abs_geb (a b : Q) : bool := Qle_bool (Qabs b) (Qabs a).

(** ** parser.ts: the schema model *)

Module SchemaColumn.
Record t : Type := mk {
  name : string;
  type : string;
  pk : bool;
  unique : bool;
  notNull : bool;
  increment : bool;
  defaultValue : option string;
  note : option string }.
End SchemaColumn.

Module SchemaTable.
Record t : Type := mk {
  name : string;
  schema : string;
  columns : list SchemaColumn.t;
  note : option string;
  headerColor : option string }.
End SchemaTable.

Module SchemaRef.
Record t : Type := mk {
  name : string;
  fromSchema : string;
  fromTable : string;
  fromColumns : list string;
  fromRelation : string;
  toSchema : string;
  toTable : string;
  toColumns : list string;
  toRelation : string;
  onDelete : option string;
  onUpdate : option string }.
End SchemaRef.

Module SchemaEnum.
Record t : Type := mk {
  name : string;
  schema : string;
  values : list (string * option string) }.
End SchemaEnum.

Module GroupMember.
Record t : Type := mk { schemaName : string; tableName : string }.
End GroupMember.

Module SchemaTableGroup.
Record t : Type := mk {
  name : string;
  tables : list GroupMember.t;
  color : option string;
  note : option string }.
End SchemaTableGroup.

Module ParsedSchema.
Record t : Type := mk {
  tables : list SchemaTable.t;
  refs : list SchemaRef.t;
  enums : list SchemaEnum.t;
  tableGroups : list SchemaTableGroup.t }.
End ParsedSchema.

(** ** layout.ts: the layout result *)

Module LayoutNode.
(** [table] is [tableMap.get(id)!]: the assertion is erased at run time,
    so the field holds [undefined] when the id is unknown. *)
Record t : Type := mk {
  id : string;
  x : Q;
  y : Q;
  width : Q;
  height : Q;
  table : option SchemaTable.t }.
End LayoutNode.

Module LayoutEdge.
(** [R] is the type of the [ref] field: [SchemaRef.t] in the interface;
    [computeLayout] fills it with [survivingRefs[i]], which is [undefined]
    past the end of that list, so the edges it builds have
    [R := option SchemaRef.t].  [P] is the representation of the [points]
    array: the list of its points, or the address of the array in a
    store. *)
Record t (R P : Type) : Type := mk {
  id : string;
  ref : R;
  points : P }.
Arguments mk {R P} _ _ _.
Arguments id {R P} _.
Arguments ref {R P} _.
Arguments points {R P} _.
End LayoutEdge.

Module LayoutGroup.
Record t : Type := mk {
  id : string;
  x : Q;
  y : Q;
  width : Q;
  height : Q;
  name : string;
  color : option string }.
End LayoutGroup.

Module LayoutResult.
Record t (E : Type) : Type := mk {
  nodes : list LayoutNode.t;
  edges : list E;
  groups : list LayoutGroup.t;
  width : Q;
  height : Q }.
Arguments mk {E} _ _ _ _ _.
Arguments nodes {E} _.
Arguments edges {E} _.
Arguments groups {E} _.
Arguments width {E} _.
Arguments height {E} _.
End LayoutResult.

(** An edge as the diagram receives it, with its points in the array. *)
Definition Edge : Type := LayoutEdge.t SchemaRef.t (list Point.t).

(** ** Diagram.svelte: rendered positions and edge re-routing *)

(** [nodeOffsets[id]?.dx ?? 0] and [nodeOffsets[id]?.dy ?? 0]. *)
Definition offDx (nodeOffsets : gmap string Offset.t) (id : string) : Q :=
  match nodeOffsets !! id with Some o => Offset.dx o | None => 0%Q end.

Definition offDy (nodeOffsets : gmap string Offset.t) (id : string) : Q :=
  match nodeOffsets !! id with Some o => Offset.dy o | None => 0%Q end.

(** [nodeX(node)]: the layout position plus the drag offset. *)
Definition nodeX (nodeOffsets : gmap string Offset.t) (node : LayoutNode.t) : Q :=
  (LayoutNode.x node + offDx nodeOffsets (LayoutNode.id node))%Q.

(** [nodeY(node)]. *)
Definition nodeY (nodeOffsets : gmap string Offset.t) (node : LayoutNode.t) : Q :=
  (LayoutNode.y node + offDy nodeOffsets (LayoutNode.id node))%Q.

(** [edgeNodeIds(edge)]: the pair [(fromId, toId)]. *)
Definition edgeNodeIds {P} (edge : LayoutEdge.t SchemaRef.t P) : string * string :=
  let r := LayoutEdge.ref edge in
  (SchemaRef.fromSchema r +:+ "." +:+ SchemaRef.fromTable r,
   SchemaRef.toSchema r +:+ "." +:+ SchemaRef.toTable r).

(** [nodeOffsets[id] ?? { dx: 0, dy: 0 }]. *)
Definition offsetOf (nodeOffsets : gmap string Offset.t) (id : string) : Offset.t :=
  match nodeOffsets !! id with Some o => o | None => Offset.mk 0 0 end.

(** The guard of the early return:
    [fromOff.dx === 0 && fromOff.dy === 0 && toOff.dx === 0 && toOff.dy === 0]. *)
Definition noDisplacement (fromOff toOff : Offset.t) : bool :=
  num_eqb (Offset.dx fromOff) 0 && num_eqb (Offset.dy fromOff) 0 &&
  num_eqb (Offset.dx toOff) 0 && num_eqb (Offset.dy toOff) 0.

(** A point moved by a displacement. *)
Definition shift (p : Point.t) (o : Offset.t) : Point.t :=
  Point.mk (Point.x p + Offset.dx o) (Point.y p + Offset.dy o).

(** Orientation test of the segment from [a] to [b]:
    [Math.abs(b.x - a.x) >= Math.abs(b.y - a.y)]. *)
Definition isHoriz (a b : Point.t) : bool :=
  abs_geb (Point.x b - Point.x a) (Point.y b - Point.y a).

(** [arr[i] = v] on an array with holes; a write past the end extends the
    array with holes. *)
Definition arr_set {A} (i : nat) (v : A) (arr : list (option A)) : list (option A) :=
  if decide (i < length arr) then <[i := Some v]> arr
  else arr ++ replicate (i - length arr) None ++ [Some v].

(** [arr[i]] followed by a property read: [undefined] raises. *)
Definition arr_get {A} (arr : list (option A)) (i : nat) : option A :=
  mjoin (arr !! i).

(** [if (segH[j])]: [undefined] is falsy. *)
Definition truthy (b : option bool) : bool :=
  match b with Some true => true | _ => false end.

(** What a segment passes on: a horizontal one [dy], a vertical one [dx]. *)
Definition carry (horiz : bool) (o : Offset.t) : Offset.t :=
  if horiz then Offset.mk 0 (Offset.dy o) else Offset.mk (Offset.dx o) 0.

(** [for (let i = 0; i < n - 1; i++) segH.push(...)]: [iters] iterations
    are left, the next one at index [i]. *)
Fixpoint segH_loop (pts : list Point.t) (iters i : nat) (segH : list bool)
  : option (list bool) :=
  match iters with
  | O => Some segH
  | S iters' =>
      b ← pts !! (i + 1);
      a ← pts !! i;
      segH_loop pts iters' (S i) (segH ++ [isHoriz a b])
  end.

(** [for (let i = 1; i < n; i++) fwd[i] = ...]. *)
Fixpoint fwd_loop (segH : list bool) (iters i : nat) (fwd : list (option Offset.t))
  : option (list (option Offset.t)) :=
  match iters with
  | O => Some fwd
  | S iters' =>
      prev ← arr_get fwd (i - 1);
      fwd_loop segH iters' (S i) (arr_set i (carry (truthy (segH !! (i - 1))) prev) fwd)
  end.

(** [for (let i = n - 2; i >= 0; i--) bwd[i] = ...]: the argument is
    [i + 1], so the loop ends when it reaches 0. *)
Fixpoint bwd_loop (segH : list bool) (i1 : nat) (bwd : list (option Offset.t))
  : option (list (option Offset.t)) :=
  match i1 with
  | O => Some bwd
  | S i =>
      next ← arr_get bwd (i + 1);
      bwd_loop segH i (arr_set i (carry (truthy (segH !! i)) next) bwd)
  end.

(** [pts.map((pt, i) => ({ x: pt.x + fwd[i].dx + bwd[i].dx, ... }))],
    from index [i] on. *)
Fixpoint combine_loop (fwd bwd : list (option Offset.t)) (i : nat) (pts : list Point.t)
  : option (list Point.t) :=
  match pts with
  | [] => Some []
  | pt :: rest =>
      f ← arr_get fwd i;
      b ← arr_get bwd i;
      r ← combine_loop fwd bwd (S i) rest;
      Some (Point.mk (Point.x pt + Offset.dx f + Offset.dx b)
                     (Point.y pt + Offset.dy f + Offset.dy b) :: r)
  end.

(** The body of [adjustedPoints] after the early return: every path builds
    a new array. *)
Definition reroute (pts : list Point.t) (fromOff toOff : Offset.t)
  : option (list Point.t) :=
  let n := length pts in
  if decide (n ≤ 1) then Some (map (λ p, shift p fromOff) pts)
  else if decide (n = 2) then
    a ← pts !! 0;
    b ← pts !! 1;
    let p0 := shift a fromOff in
    let p1 := shift b toOff in
    if isHoriz a b then
      let midX := ((Point.x p0 + Point.x p1) / 2)%Q in
      Some [p0; Point.mk midX (Point.y p0); Point.mk midX (Point.y p1); p1]
    else
      let midY := ((Point.y p0 + Point.y p1) / 2)%Q in
      Some [p0; Point.mk (Point.x p0) midY; Point.mk (Point.x p1) midY; p1]
  else
    segH ← segH_loop pts (n - 1) 0 [];
    fwd ← fwd_loop segH (n - 1) 1 (arr_set 0 fromOff (replicate n None));
    bwd ← bwd_loop segH (n - 1) (arr_set (n - 1) toOff (replicate n None));
    combine_loop fwd bwd 0 pts.

(** [adjustedPoints(edge)], reading the component's [nodeOffsets]. *)
Definition adjustedPoints (nodeOffsets : gmap string Offset.t)
    (edge : Edge) : option (list Point.t) :=
  let '(fromId, toId) := edgeNodeIds edge in
  let fromOff := offsetOf nodeOffsets fromId in
  let toOff := offsetOf nodeOffsets toId in
  if noDisplacement fromOff toOff then Some (LayoutEdge.points edge)
  else reroute (LayoutEdge.points edge) fromOff toOff.

(** Two points have one coordinate equal. *)
Definition aligned (a b : Point.t) : bool :=
  num_eqb (Point.x a) (Point.x b) || num_eqb (Point.y a) (Point.y b).

(** Every consecutive pair of points of a polyline is axis-aligned. *)
Fixpoint orthogonal (pts : list Point.t) : bool :=
  match pts with
  | a :: (b :: _) as rest => aligned a b && orthogonal rest
  | _ => true
  end.


(** ** layout.ts: sizing *)

Inductive LayoutDirection : Type := RIGHT | LEFT | DOWN | UP.

(** [dir === 'RIGHT' || dir === 'LEFT']. *)
Definition isHorizontal (dir : LayoutDirection) : bool :=
  match dir with RIGHT | LEFT => true | DOWN | UP => false end.

(** The string a direction is in the source. *)
Definition directionName (dir : LayoutDirection) : string :=
  match dir with
  | RIGHT => "RIGHT" | LEFT => "LEFT" | DOWN => "DOWN" | UP => "UP"
  end.

(** The sizes below are integers, kept in [Z]; they enter the graph as
    numbers through [inject_Z]. *)
Definition TABLE_HEADER_HEIGHT : Z := 36.
Definition COLUMN_ROW_HEIGHT : Z := 28.
Definition TABLE_MIN_WIDTH : Z := 200.
Definition TABLE_MAX_WIDTH : Z := 360.
Definition CHAR_WIDTH : Z := 8.
Definition TABLE_PADDING_X : Z := 24.
Definition NOTE_CHAR_WIDTH : Z := 6.
Definition NOTE_LINE_HEIGHT : Z := 14.
Definition NOTE_NAME_AREA : Z := 28.
Definition NOTE_BOTTOM_PAD : Z := 8.
Definition GROUP_LABEL_HEIGHT : Z := 32.
Definition GROUP_PADDING : Z := 20.

(** [s.length]. *)
Definition strlen (s : string) : Z := Z.of_nat (String.length s).

(** The characters [\s] matches among the first 256 code units. *)
Definition is_space (c : Ascii.ascii) : bool :=
  let n := Ascii.nat_of_ascii c in
  ((9 <=? n) && (n <=? 13) || (n =? 32) || (n =? 160))%nat.

(** [s.split(/\s+/)]: [cur] is the piece being read, [in_ws] says that the
    previous character was a separator. *)
Fixpoint split_ws (s : string) (cur : string) (in_ws : bool) : list string :=
  match s with
  | EmptyString => [cur]
  | String c s' =>
      if is_space c then
        if in_ws then split_ws s' cur true else cur :: split_ws s' "" true
      else split_ws s' (cur +:+ String c "") false
  end.

(** A string is truthy when it is not empty. *)
Definition nonempty (s : string) : bool :=
  match s with EmptyString => false | _ => true end.

(** [wrapNoteText(note, tableWidth)]: greedy wrapping of the words of a
    note; the loop state is [(lines, current)]. *)
Definition wrapNoteText (note : string) (tableWidth : Q) : list string :=
  let availWidth := (tableWidth - inject_Z (TABLE_PADDING_X * 2))%Q in
  let charsPerLine := Z.max 1 (Qfloor (availWidth / inject_Z NOTE_CHAR_WIDTH)) in
  let words := split_ws note "" false in
  let step (st : list string * string) (word : string) :=
    let '(lines, current) := st in
    if nonempty current && (charsPerLine <? strlen current + 1 + strlen word)%Z
    then (lines ++ [current], word)
    else (lines, if nonempty current then current +:+ " " +:+ word else word) in
  let '(lines, current) := foldl step ([], "") words in
  let lines := if nonempty current then lines ++ [current] else lines in
  if decide (0 < length lines) then lines else [""].

(** [headerHeight(table, tableWidth)]; [!table.note] holds for [null] and
    for the empty string. *)
Definition headerHeight (table : SchemaTable.t) (tableWidth : Q) : Z :=
  match SchemaTable.note table with
  | None | Some EmptyString => TABLE_HEADER_HEIGHT
  | Some note =>
      let lines := wrapNoteText note tableWidth in
      (NOTE_NAME_AREA + Z.of_nat (length lines) * NOTE_LINE_HEIGHT + NOTE_BOTTOM_PAD)%Z
  end.

(** The text of the constraint badges of a column, with its two leading
    blanks. *)
Definition constraintStr (col : SchemaColumn.t) : string :=
  let constraintParts :=
    (if SchemaColumn.pk col then ["PK"] else []) ++
    (if SchemaColumn.unique col then ["UQ"] else []) ++
    (if SchemaColumn.notNull col then ["NN"] else []) ++
    (if SchemaColumn.increment col then ["AI"] else []) in
  if decide (0 < length constraintParts)
  then "  " +:+ String.concat " " constraintParts
  else "".

(** The text length of the row of a column:
    [col.name.length + col.type.length + 3 + constraintStr.length]. *)
Definition lineLen (col : SchemaColumn.t) : Z :=
  (strlen (SchemaColumn.name col) + strlen (SchemaColumn.type col) + 3
   + strlen (constraintStr col))%Z.

(** [estimateTableWidth(table)]: [maxLen] starts at the length of the table
    name and grows over the rows. *)
Definition estimateTableWidth (table : SchemaTable.t) : Z :=
  let maxLen :=
    foldl (λ maxLen col, if (maxLen <? lineLen col)%Z then lineLen col else maxLen)
          (strlen (SchemaTable.name table)) (SchemaTable.columns table) in
  Z.min TABLE_MAX_WIDTH (Z.max TABLE_MIN_WIDTH (maxLen * CHAR_WIDTH + TABLE_PADDING_X * 2)).

(** [tableHeight(table, tableWidth)]. *)
Definition tableHeight (table : SchemaTable.t) (tableWidth : Q) : Z :=
  (headerHeight table tableWidth
   + Z.of_nat (length (SchemaTable.columns table)) * COLUMN_ROW_HEIGHT)%Z.

(** [`${table.schema}.${table.name}`]. *)
Definition tableNodeId (table : SchemaTable.t) : string :=
  SchemaTable.schema table +:+ "." +:+ SchemaTable.name table.

(** The literal type ['left' | 'right']. *)
Inductive Side : Type := SideLeft | SideRight.

(** The string a side is in the source. *)
Definition sideName (s : Side) : string :=
  match s with SideLeft => "left" | SideRight => "right" end.

(** [`${tableNodeId(table)}.${columnName}.${side}`]. *)
Definition portId (table : SchemaTable.t) (columnName : string) (side : Side) : string :=
  tableNodeId table +:+ "." +:+ columnName +:+ "." +:+ sideName side.

(** [`group:${group.name}`]. *)
Definition groupNodeId (group : SchemaTableGroup.t) : string :=
  "group:" +:+ SchemaTableGroup.name group.

(** ** layout.ts: the graph given to the solver *)

Module ElkPort.
Record t : Type := mk { id : string; width : Q; height : Q; x : Q; y : Q }.
End ElkPort.

Module ElkTableNode.
Record t : Type := mk {
  id : string;
  width : Q;
  height : Q;
  layoutOptions : list (string * string);
  ports : list ElkPort.t }.
End ElkTableNode.

(** A child of the root: a table node, or a compound node of table nodes. *)
Inductive ElkChild : Type :=
  | ElkTable (node : ElkTableNode.t)
  | ElkGroup (id : string) (layoutOptions : list (string * string))
             (children : list ElkTableNode.t).

Module ElkEdge.
Record t : Type := mk { id : string; sources : list string; targets : list string }.
End ElkEdge.

Module ElkGraph.
Record t : Type := mk {
  id : string;
  layoutOptions : list (string * string);
  children : list ElkChild;
  edges : list ElkEdge.t }.
End ElkGraph.

(** The two ports of column [col], the [i]-th of the table. *)
Definition columnPorts (table : SchemaTable.t) (horiz : bool)
    (width height hh : Z) (i : nat) (col : SchemaColumn.t) : list ElkPort.t :=
  let portY :=
    (inject_Z hh + inject_Z (Z.of_nat i) * inject_Z COLUMN_ROW_HEIGHT
     + inject_Z COLUMN_ROW_HEIGHT / 2)%Q in
  if horiz then
    [ ElkPort.mk (portId table (SchemaColumn.name col) SideRight) 0 0 (inject_Z width) portY;
      ElkPort.mk (portId table (SchemaColumn.name col) SideLeft) 0 0 0 portY ]
  else
    let portX :=
      (inject_Z TABLE_PADDING_X
       + (inject_Z (width - TABLE_PADDING_X * 2)
          / inject_Z (Z.of_nat (length (SchemaTable.columns table)) + 1))
         * inject_Z (Z.of_nat i + 1))%Q in
    [ ElkPort.mk (portId table (SchemaColumn.name col) SideRight) 0 0 portX (inject_Z height);
      ElkPort.mk (portId table (SchemaColumn.name col) SideLeft) 0 0 portX 0 ].

(** [buildTableElkNode(table, direction)]; [forEach] pushes the two ports
    of each column. *)
Definition buildTableElkNode (table : SchemaTable.t) (direction : LayoutDirection)
  : ElkTableNode.t :=
  let width := estimateTableWidth table in
  let height := tableHeight table (inject_Z width) in
  let hh := headerHeight table (inject_Z width) in
  let horiz := isHorizontal direction in
  let ports :=
    foldl (λ ports ic, ports ++ columnPorts table horiz width height hh ic.1 ic.2)
          [] (imap pair (SchemaTable.columns table)) in
  ElkTableNode.mk (tableNodeId table) (inject_Z width) (inject_Z height)
    [("elk.portConstraints", "FIXED_POS")] ports.

(** ** layout.ts: [computeLayout], building the graph *)

(** The keys [`${ref.schemaName}.${ref.tableName}`],
    [`${ref.fromSchema}.${ref.fromTable}`] and
    [`${ref.toSchema}.${ref.toTable}`]. *)
Definition memberKey (m : GroupMember.t) : string :=
  GroupMember.schemaName m +:+ "." +:+ GroupMember.tableName m.

Definition fromKey (r : SchemaRef.t) : string :=
  SchemaRef.fromSchema r +:+ "." +:+ SchemaRef.fromTable r.

Definition toKey (r : SchemaRef.t) : string :=
  SchemaRef.toSchema r +:+ "." +:+ SchemaRef.toTable r.

(** [tableMap]: a later table with the same key replaces an earlier one. *)
Definition buildTableMap (tables : list SchemaTable.t) : gmap string SchemaTable.t :=
  foldl (λ m t, <[tableNodeId t := t]> m) ∅ tables.

(** [tableToGroup]. *)
Definition buildTableToGroup (groups : list SchemaTableGroup.t)
  : gmap string SchemaTableGroup.t :=
  foldl (λ m group,
           foldl (λ m ref, <[memberKey ref := group]> m) m (SchemaTableGroup.tables group))
        ∅ groups.

(** The [layoutOptions] of a compound node. *)
Definition groupLayoutOptions (direction : LayoutDirection) : list (string * string) :=
  [ ("elk.algorithm", "layered");
    ("elk.direction", directionName direction);
    ("elk.spacing.nodeNode", "60");
    ("elk.layered.spacing.nodeNodeBetweenLayers", "120");
    ("elk.edgeRouting", "ORTHOGONAL");
    ("elk.padding",
     "[top=" +:+ pretty (GROUP_LABEL_HEIGHT + GROUP_PADDING)%Z
     +:+ ", left=" +:+ pretty GROUP_PADDING
     +:+ ", bottom=" +:+ pretty GROUP_PADDING
     +:+ ", right=" +:+ pretty GROUP_PADDING +:+ "]") ].

(** The children of one group: its members that resolve, in order. *)
Definition groupChildren (tableMap : gmap string SchemaTable.t)
    (direction : LayoutDirection) (group : SchemaTableGroup.t) : list ElkTableNode.t :=
  foldl (λ groupChildren ref,
           match tableMap !! memberKey ref with
           | Some table => groupChildren ++ [buildTableElkNode table direction]
           | None => groupChildren
           end)
        [] (SchemaTableGroup.tables group).

(** The loop that creates the compound nodes; a group without resolved
    member is skipped. *)
Definition groupNodes (tableMap : gmap string SchemaTable.t)
    (direction : LayoutDirection) (groups : list SchemaTableGroup.t) : list ElkChild :=
  foldl (λ topLevelChildren group,
           let children := groupChildren tableMap direction group in
           if decide (length children = 0) then topLevelChildren
           else topLevelChildren
                ++ [ElkGroup (groupNodeId group) (groupLayoutOptions direction) children])
        [] groups.

(** [connectionCount.get(k) || 0]. *)
Definition countOf (connectionCount : gmap string nat) (k : string) : nat :=
  default 0 (connectionCount !! k).

(** [connectionCount]: both ends of every reference count, resolved or
    not. *)
Definition buildConnectionCount (refs : list SchemaRef.t) : gmap string nat :=
  foldl (λ cc ref,
           let cc := <[fromKey ref := countOf cc (fromKey ref) + 1]> cc in
           <[toKey ref := countOf cc (toKey ref) + 1]> cc)
        ∅ refs.

(** [Array.prototype.sort(cmp)] is stable: an insertion sort that places an
    element before the first later element it does not have to follow. *)
Fixpoint sort_insert {A} (cmp : A → A → Z) (a : A) (l : list A) : list A :=
  match l with
  | [] => [a]
  | b :: l' => if (0 <? cmp a b)%Z then b :: sort_insert cmp a l' else a :: l
  end.

(** The sorted array: elements are inserted from the last to the first. *)
Definition js_sort {A} (cmp : A → A → Z) (l : list A) : list A :=
  foldr (sort_insert cmp) [] l.

(** The tables no member list names, most connected first. *)
Definition ungroupedTables (schema : ParsedSchema.t)
    (tableToGroup : gmap string SchemaTableGroup.t)
    (connectionCount : gmap string nat) : list SchemaTable.t :=
  js_sort
    (λ a b, (Z.of_nat (countOf connectionCount (tableNodeId b))
             - Z.of_nat (countOf connectionCount (tableNodeId a)))%Z)
    (filter (λ t, tableToGroup !! tableNodeId t = None) (ParsedSchema.tables schema)).

(** [cols[0] || '']. *)
Definition firstColumn (cols : list string) : string :=
  match cols with c :: _ => c | [] => "" end.

(** One turn of the edge loop: the state is [(edges, survivingRefs)]. *)
Definition edgeStep (tableMap : gmap string SchemaTable.t)
    (st : list ElkEdge.t * list SchemaRef.t) (ref : SchemaRef.t)
  : list ElkEdge.t * list SchemaRef.t :=
  let '(edges, survivingRefs) := st in
  match tableMap !! fromKey ref, tableMap !! toKey ref with
  | Some fromTable, Some toTable =>
      let fromCol := firstColumn (SchemaRef.fromColumns ref) in
      let toCol := firstColumn (SchemaRef.toColumns ref) in
      (edges ++ [ElkEdge.mk ("e" +:+ pretty (length edges))
                            [portId fromTable fromCol SideRight]
                            [portId toTable toCol SideLeft]],
       survivingRefs ++ [ref])
  | _, _ => st
  end.

(** The edge loop over all references. *)
Definition buildEdges (tableMap : gmap string SchemaTable.t) (refs : list SchemaRef.t)
  : list ElkEdge.t * list SchemaRef.t :=
  foldl (edgeStep tableMap) ([], []) refs.

(** The [layoutOptions] of the root. *)
Definition rootLayoutOptions (direction : LayoutDirection) : list (string * string) :=
  [ ("elk.algorithm", "layered");
    ("elk.direction", directionName direction);
    ("elk.edgeRouting", "ORTHOGONAL");
    ("elk.padding", "[top=30, left=30, bottom=30, right=30]");
    ("elk.hierarchyHandling", "INCLUDE_CHILDREN");
    ("elk.layered.nodePlacement.strategy", "NETWORK_SIMPLEX");
    ("elk.layered.nodePlacement.networkSimplex.nodeFlexibility.default", "NODE_SIZE");
    ("elk.spacing.nodeNode", "70");
    ("elk.layered.spacing.nodeNodeBetweenLayers", "120");
    ("elk.layered.crossingMinimization.strategy", "LAYER_SWEEP");
    ("elk.layered.crossingMinimization.greedySwitch.type", "TWO_SIDED");
    ("elk.layered.thoroughness", "50");
    ("elk.spacing.edgeEdge", "0");
    ("elk.spacing.edgeNode", "25");
    ("elk.layered.spacing.edgeEdgeBetweenLayers", "0");
    ("elk.layered.spacing.edgeNodeBetweenLayers", "25");
    ("elk.layered.considerModelOrder.strategy", "NODES_AND_EDGES") ].

(** The first half of [computeLayout]: the graph handed to [elk.layout]
    and the list [survivingRefs] kept for the extraction. *)
Definition buildGraph (schema : ParsedSchema.t) (direction : LayoutDirection)
  : ElkGraph.t * list SchemaRef.t :=
  let tableMap := buildTableMap (ParsedSchema.tables schema) in
  let tableToGroup := buildTableToGroup (ParsedSchema.tableGroups schema) in
  let topLevelChildren := groupNodes tableMap direction (ParsedSchema.tableGroups schema) in
  let connectionCount := buildConnectionCount (ParsedSchema.refs schema) in
  let topLevelChildren :=
    foldl (λ topLevelChildren table,
             topLevelChildren ++ [ElkTable (buildTableElkNode table direction)])
          topLevelChildren (ungroupedTables schema tableToGroup connectionCount) in
  let '(edges, survivingRefs) := buildEdges tableMap (ParsedSchema.refs schema) in
  (ElkGraph.mk "root" (rootLayoutOptions direction) topLevelChildren edges, survivingRefs).

(** ** layout.ts: [computeLayout], reading the solver's result *)

Module ElkResultLeaf.
Record t : Type := mk { id : string; x : Q; y : Q; width : Q; height : Q }.
End ElkResultLeaf.

Module ElkResultChild.
Record t : Type := mk {
  id : string;
  x : Q;
  y : Q;
  width : Q;
  height : Q;
  children : option (list ElkResultLeaf.t) }.
End ElkResultChild.

Module ElkSection.
Record t : Type := mk {
  startPoint : Point.t;
  bendPoints : option (list Point.t);
  endPoint : Point.t }.
End ElkSection.

Module ElkResultEdge.
Record t : Type := mk { id : string; sections : option (list ElkSection.t) }.
End ElkResultEdge.

Module ElkResult.
Record t : Type := mk {
  children : option (list ElkResultChild.t);
  edges : option (list ElkResultEdge.t);
  width : option Q;
  height : option Q }.
End ElkResult.

(** [a || []] and [a || 0]. *)
Definition orEmpty {A} (a : option (list A)) : list A := default [] a.
Definition orZero (a : option Q) : Q := default 0%Q a.

(** [groupByElkId]. *)
Definition buildGroupByElkId (groups : list SchemaTableGroup.t)
  : gmap string SchemaTableGroup.t :=
  foldl (λ m group, <[groupNodeId group := group]> m) ∅ groups.

(** The group recorded for a compound child. *)
Definition groupBox (child : ElkResultChild.t) (schemaGroup : SchemaTableGroup.t)
  : LayoutGroup.t :=
  LayoutGroup.mk (ElkResultChild.id child)
    (ElkResultChild.x child) (ElkResultChild.y child)
    (ElkResultChild.width child) (ElkResultChild.height child)
    (SchemaTableGroup.name schemaGroup) (SchemaTableGroup.color schemaGroup).

(** The node recorded for a table inside a compound child. *)
Definition memberNode (tableMap : gmap string SchemaTable.t) (child : ElkResultChild.t)
    (grandchild : ElkResultLeaf.t) : LayoutNode.t :=
  LayoutNode.mk (ElkResultLeaf.id grandchild)
    (ElkResultChild.x child + ElkResultLeaf.x grandchild)
    (ElkResultChild.y child + ElkResultLeaf.y grandchild)
    (ElkResultLeaf.width grandchild) (ElkResultLeaf.height grandchild)
    (tableMap !! ElkResultLeaf.id grandchild).

(** The node recorded for a top-level table. *)
Definition plainNode (tableMap : gmap string SchemaTable.t) (child : ElkResultChild.t)
  : LayoutNode.t :=
  LayoutNode.mk (ElkResultChild.id child)
    (ElkResultChild.x child) (ElkResultChild.y child)
    (ElkResultChild.width child) (ElkResultChild.height child)
    (tableMap !! ElkResultChild.id child).

(** One turn of the loop over [result.children]: the state is
    [(nodes, groups)]. *)
Definition extractStep (tableMap : gmap string SchemaTable.t)
    (groupByElkId : gmap string SchemaTableGroup.t)
    (st : list LayoutNode.t * list LayoutGroup.t) (child : ElkResultChild.t)
  : list LayoutNode.t * list LayoutGroup.t :=
  let '(nodes, groups) := st in
  match groupByElkId !! ElkResultChild.id child with
  | Some schemaGroup =>
      let groups := groups ++ [groupBox child schemaGroup] in
      let nodes :=
        foldl (λ nodes grandchild, nodes ++ [memberNode tableMap child grandchild])
              nodes (orEmpty (ElkResultChild.children child)) in
      (nodes, groups)
  | None => (nodes ++ [plainNode tableMap child], groups)
  end.

(** The loop over all children of the result. *)
Definition extractNodes (tableMap : gmap string SchemaTable.t)
    (groupByElkId : gmap string SchemaTableGroup.t)
    (children : list ElkResultChild.t) : list LayoutNode.t * list LayoutGroup.t :=
  foldl (extractStep tableMap groupByElkId) ([], []) children.

(** The points of one routed edge: per section its start point, its bend
    points and its end point. *)
Definition edgePoints (edge : ElkResultEdge.t) : list Point.t :=
  foldl (λ points section,
           (points ++ [ElkSection.startPoint section])
           ++ orEmpty (ElkSection.bendPoints section)
           ++ [ElkSection.endPoint section])
        [] (orEmpty (ElkResultEdge.sections edge)).

(** [(result.edges || []).map((edge, i) => ...)]. *)
Definition extractEdges (survivingRefs : list SchemaRef.t) (edges : list ElkResultEdge.t)
  : list (LayoutEdge.t (option SchemaRef.t) (list Point.t)) :=
  imap (λ i edge,
          LayoutEdge.mk (ElkResultEdge.id edge) (survivingRefs !! i) (edgePoints edge))
       edges.

(** The second half of [computeLayout], after [await elk.layout(graph)]. *)
Definition extractLayout (schema : ParsedSchema.t) (survivingRefs : list SchemaRef.t)
    (result : ElkResult.t)
  : LayoutResult.t (LayoutEdge.t (option SchemaRef.t) (list Point.t)) :=
  let tableMap := buildTableMap (ParsedSchema.tables schema) in
  let groupByElkId := buildGroupByElkId (ParsedSchema.tableGroups schema) in
  let '(nodes, groups) :=
    extractNodes tableMap groupByElkId (orEmpty (ElkResult.children result)) in
  let layoutEdges := extractEdges survivingRefs (orEmpty (ElkResult.edges result)) in
  LayoutResult.mk nodes layoutEdges groups
    (orZero (ElkResult.width result)) (orZero (ElkResult.height result)).

(** [computeLayout] with the solver as a function: [None] is a rejected
    promise, which [computeLayout] lets through. *)
Definition computeLayout (elk_layout : ElkGraph.t → option ElkResult.t)
    (schema : ParsedSchema.t) (direction : LayoutDirection)
  : option (LayoutResult.t (LayoutEdge.t (option SchemaRef.t) (list Point.t))) :=
  let '(graph, survivingRefs) := buildGraph schema direction in
  result ← elk_layout graph;
  Some (extractLayout schema survivingRefs result).

(** ** Diagram.svelte: the component state and its handlers *)

(** Arrays of points live in a store, so that an array [adjustedPoints]
    returns can be told from the one it was given.  A point is a record whose
    fields are read and never assigned, so an array holds its points by
    value. *)
Definition loc : Type := positive.
Definition Store : Type := gmap loc (list Point.t).

(** An edge whose [points] field is the address of its array. *)
Definition EdgeRef : Type := LayoutEdge.t SchemaRef.t loc.

(** A [LayoutResult] object: [ident] is its identity, which [!==] compares. *)
Module LayoutObject.
Record t : Type := mk { ident : positive; value : LayoutResult.t EdgeRef }.
End LayoutObject.

(** The variables the listeners of one gesture close over. *)
Module Gesture.
Record t : Type := mk {
  nodeId : string;
  startX : Q;
  startY : Q;
  startDx : Q;
  startDy : Q;
  scale : Q }.
End Gesture.

Module Diagram.
(** [listeners]: the [mousemove]/[mouseup] listener pairs registered on
    the document, oldest first. *)
Record t : Type := mk {
  layout : option LayoutObject.t;
  prevLayout : option LayoutObject.t;
  nodeOffsets : gmap string Offset.t;
  draggingNodeId : option string;
  listeners : list Gesture.t }.
End Diagram.

(** [layout !== prevLayout]. *)
Definition differs (a b : option LayoutObject.t) : bool :=
  match a, b with
  | Some x, Some y => negb (bool_decide (LayoutObject.ident x = LayoutObject.ident y))
  | None, None => false
  | _, _ => true
  end.

(** An assignment to the [layout] prop followed by the [$effect] that
    watches it: [if (layout && layout !== prevLayout)]. *)
Definition setLayout (l : option LayoutObject.t) (d : Diagram.t) : Diagram.t :=
  match l with
  | Some _ =>
      if differs l (Diagram.prevLayout d)
      then Diagram.mk l l ∅ (Diagram.draggingNodeId d) (Diagram.listeners d)
      else Diagram.mk l (Diagram.prevLayout d) (Diagram.nodeOffsets d)
             (Diagram.draggingNodeId d) (Diagram.listeners d)
  | None =>
      Diagram.mk None (Diagram.prevLayout d) (Diagram.nodeOffsets d)
        (Diagram.draggingNodeId d) (Diagram.listeners d)
  end.

(** [onNodeMouseDown(e, node)]; [scale] is the zoom factor read from the
    transform of the drawing group. *)
Definition onNodeMouseDown (button : Z) (clientX clientY : Q) (node : LayoutNode.t)
    (scale : Q) (d : Diagram.t) : Diagram.t :=
  if decide (button ≠ 0%Z) then d
  else
    let id := LayoutNode.id node in
    let g := Gesture.mk id clientX clientY
               (offDx (Diagram.nodeOffsets d) id) (offDy (Diagram.nodeOffsets d) id)
               scale in
    Diagram.mk (Diagram.layout d) (Diagram.prevLayout d) (Diagram.nodeOffsets d)
      (Some id) (Diagram.listeners d ++ [g]).

(** One [onMouseMove] listener. *)
Definition onMouseMove (g : Gesture.t) (clientX clientY : Q)
    (nodeOffsets : gmap string Offset.t) : gmap string Offset.t :=
  let dx := ((clientX - Gesture.startX g) / Gesture.scale g)%Q in
  let dy := ((clientY - Gesture.startY g) / Gesture.scale g)%Q in
  <[Gesture.nodeId g := Offset.mk (Gesture.startDx g + dx) (Gesture.startDy g + dy)]>
    nodeOffsets.

(** A [mousemove] on the document runs every registered listener. *)
Definition mouseMove (clientX clientY : Q) (d : Diagram.t) : Diagram.t :=
  Diagram.mk (Diagram.layout d) (Diagram.prevLayout d)
    (foldl (λ offs g, onMouseMove g clientX clientY offs)
           (Diagram.nodeOffsets d) (Diagram.listeners d))
    (Diagram.draggingNodeId d) (Diagram.listeners d).

(** A [mouseup] on the document: every registered [onMouseUp] clears
    [draggingNodeId] and removes its own pair of listeners. *)
Definition mouseUp (d : Diagram.t) : Diagram.t :=
  match Diagram.listeners d with
  | [] => d
  | _ :: _ =>
      Diagram.mk (Diagram.layout d) (Diagram.prevLayout d) (Diagram.nodeOffsets d)
        None []
  end.

(** [adjustedPoints] on the store: the address of the array it returns and
    the store after the call. *)
Definition adjustedPointsAt (σ : Store) (nodeOffsets : gmap string Offset.t)
    (edge : EdgeRef) : option (loc * Store) :=
  pts ← σ !! LayoutEdge.points edge;
  let '(fromId, toId) := edgeNodeIds edge in
  let fromOff := offsetOf nodeOffsets fromId in
  let toOff := offsetOf nodeOffsets toId in
  if noDisplacement fromOff toOff then Some (LayoutEdge.points edge, σ)
  else
    r ← reroute pts fromOff toOff;
    let l := fresh (dom σ) in
    Some (l, <[l := r]> σ).

(** One [{#each layout.edges as edge}] block of the template. *)
Fixpoint renderEdges (nodeOffsets : gmap string Offset.t) (edges : list EdgeRef)
    (σ : Store) : option Store :=
  match edges with
  | [] => Some σ
  | edge :: rest =>
      r ← adjustedPointsAt σ nodeOffsets edge;
      renderEdges nodeOffsets rest r.2
  end.

(** A rendering pass: the template has two such blocks. *)
Definition render (d : Diagram.t) (σ : Store) : option Store :=
  match Diagram.layout d with
  | None => Some σ
  | Some l =>
      let edges := LayoutResult.edges (LayoutObject.value l) in
      σ ← renderEdges (Diagram.nodeOffsets d) edges σ;
      renderEdges (Diagram.nodeOffsets d) edges σ
  end.

Inductive Event : Type :=
  | SetLayout (l : option LayoutObject.t)
  | NodeMouseDown (button : Z) (clientX clientY : Q) (node : LayoutNode.t) (scale : Q)
  | MouseMove (clientX clientY : Q)
  | MouseUp
  | Render.

Definition step (ev : Event) (w : Store * Diagram.t) : option (Store * Diagram.t) :=
  let '(σ, d) := w in
  match ev with
  | SetLayout l => Some (σ, setLayout l d)
  | NodeMouseDown button cx cy node scale =>
      Some (σ, onNodeMouseDown button cx cy node scale d)
  | MouseMove cx cy => Some (σ, mouseMove cx cy d)
  | MouseUp => Some (σ, mouseUp d)
  | Render => σ' ← render d σ; Some (σ', d)
  end.

Fixpoint run (evs : list Event) (w : Store * Diagram.t) : option (Store * Diagram.t) :=
  match evs with
  | [] => Some w
  | ev :: rest => w' ← step ev w; run rest w'
  end.

(** The events of dragging and drawing: everything but a new layout. *)
Definition isDragEvent (ev : Event) : bool :=
  match ev with SetLayout _ => false | _ => true end.

(** The edge read through the store. *)
Definition loadEdge (σ : Store) (edge : EdgeRef) : option Edge :=
  pts ← σ !! LayoutEdge.points edge;
  Some (LayoutEdge.mk (LayoutEdge.id edge) (LayoutEdge.ref edge) pts).

(** ** Closed forms and predicates: [adjustedPoints] *)

(** The orientation of every segment of a polyline. *)
Fixpoint segments (pts : list Point.t) : list bool :=
  match pts with
  | a :: (b :: _) as rest => isHoriz a b :: segments rest
  | _ => []
  end.

(** What reaches point [j] of the displacement [off] of the first point. *)
Fixpoint fwdAt (segH : list bool) (off : Offset.t) (j : nat) : Offset.t :=
  match j with
  | O => off
  | S j' => carry (truthy (segH !! j')) (fwdAt segH off j')
  end.

(** What reaches the point [d] places before the last one (of index
    [last]) of the displacement [off] of the last point. *)
Fixpoint bwdBack (segH : list bool) (off : Offset.t) (last d : nat) : Offset.t :=
  match d with
  | O => off
  | S d' => carry (truthy (segH !! (last - S d'))) (bwdBack segH off last d')
  end.

(** What reaches point [j] of the displacement [off] of the last point. *)
Definition bwdAt (segH : list bool) (off : Offset.t) (last j : nat) : Offset.t :=
  bwdBack segH off last (last - j).

(** Point [i] of the re-routed polyline of three points or more. *)
Definition movedPoint (segH : list bool) (fromOff toOff : Offset.t) (last i : nat)
    (pt : Point.t) : Point.t :=
  let f := fwdAt segH fromOff i in
  let b := bwdAt segH toOff last i in
  Point.mk (Point.x pt + Offset.dx f + Offset.dx b)
           (Point.y pt + Offset.dy f + Offset.dy b).

(** The array [fwd] after the entries below [i] have been written. *)
Definition fwdUpTo (segH : list bool) (off : Offset.t) (n i : nat)
  : list (option Offset.t) :=
  map (λ j, Some (fwdAt segH off j)) (seq 0 i) ++ replicate (n - i) None.

(** The array [bwd] after the entries from [i] on have been written. *)
Definition bwdFrom (segH : list bool) (off : Offset.t) (n i : nat)
  : list (option Offset.t) :=
  replicate i None ++ map (λ j, Some (bwdAt segH off (n - 1) j)) (seq i (n - i)).

(** The displacement [adjustedPoints] reads for the source end. *)
Definition fromOffset (nodeOffsets : gmap string Offset.t) (edge : Edge) : Offset.t :=
  offsetOf nodeOffsets (edgeNodeIds edge).1.

(** The displacement read for the target end. *)
Definition toOffset (nodeOffsets : gmap string Offset.t) (edge : Edge) : Offset.t :=
  offsetOf nodeOffsets (edgeNodeIds edge).2.

(** Node [id] carries no displacement: no entry, or an entry equal to
    (0,0). *)
Definition undisplaced (nodeOffsets : gmap string Offset.t) (id : string) : Prop :=
  match nodeOffsets !! id with
  | None => True
  | Some o => (Offset.dx o == 0)%Q ∧ (Offset.dy o == 0)%Q
  end.


(** Every segment of the list is vertical. *)
Definition allVertical (segH : list bool) : bool := forallb negb segH.

(** Every segment of the list is horizontal. *)
Definition allHorizontal (segH : list bool) : bool := forallb id segH.

(** ** Closed forms and predicates: table width *)

(** The longest row text of a list of columns (0 for no column). *)
Definition maxRowLen (cols : list SchemaColumn.t) : Z :=
  foldr Z.max 0%Z (map lineLen cols).

(** The width as the specification words it, with the maximum taken over
    the column rows only: the larger of the minimum width and
    [max over rows(row-text-length) * char-width + 2*padding], clamped to
    the maximum width. *)
Definition specRowsWidth (table : SchemaTable.t) : Z :=
  Z.min TABLE_MAX_WIDTH
    (Z.max TABLE_MIN_WIDTH
       (maxRowLen (SchemaTable.columns table) * CHAR_WIDTH + 2 * TABLE_PADDING_X)).

(** ** Closed forms and predicates: [computeLayout] *)

(** The [tableMap] of a schema. *)
Definition schemaTableMap (schema : ParsedSchema.t) : gmap string SchemaTable.t :=
  buildTableMap (ParsedSchema.tables schema).

(** Both end tables of a reference are in [tableMap]. *)
Definition resolves (tableMap : gmap string SchemaTable.t) (r : SchemaRef.t) : Prop :=
  is_Some (tableMap !! fromKey r) ∧ is_Some (tableMap !! toKey r).

(** [resolves] is decidable. *)
Global Instance resolves_dec tableMap r : Decision (resolves tableMap r).
Proof. unfold resolves. apply _. Defined.

(** The references of the schema whose two end tables resolve, in order. *)
Definition resolvedRefs (schema : ParsedSchema.t) : list SchemaRef.t :=
  filter (resolves (schemaTableMap schema)) (ParsedSchema.refs schema).

(** The edge submitted for reference [r] at position [i] of the edge list,
    when both end tables resolve. *)
Definition edgeFor (tableMap : gmap string SchemaTable.t) (i : nat) (r : SchemaRef.t)
  : option ElkEdge.t :=
  fromTable ← tableMap !! fromKey r;
  toTable ← tableMap !! toKey r;
  Some (ElkEdge.mk ("e" +:+ pretty i)
          [portId fromTable (firstColumn (SchemaRef.fromColumns r)) SideRight]
          [portId toTable (firstColumn (SchemaRef.toColumns r)) SideLeft]).

(** The solver keeps the edge list it was given: as many edges, in the same
    order, with the same ids. *)
Definition keepsEdges (graph : ElkGraph.t) (result : ElkResult.t) : Prop :=
  map ElkResultEdge.id (orEmpty (ElkResult.edges result))
  = map ElkEdge.id (ElkGraph.edges graph).

(** The nodes one child of the result gives. *)
Definition childNodes (tableMap : gmap string SchemaTable.t)
    (groupByElkId : gmap string SchemaTableGroup.t) (child : ElkResultChild.t)
  : list LayoutNode.t :=
  match groupByElkId !! ElkResultChild.id child with
  | Some _ => map (memberNode tableMap child) (orEmpty (ElkResultChild.children child))
  | None => [plainNode tableMap child]
  end.

(** The group one child of the result gives. *)
Definition childGroups (groupByElkId : gmap string SchemaTableGroup.t)
    (child : ElkResultChild.t) : list LayoutGroup.t :=
  match groupByElkId !! ElkResultChild.id child with
  | Some schemaGroup => [groupBox child schemaGroup]
  | None => []
  end.


(** A child of the result corresponds to a group: its id is the node id of
    a group of the schema. *)
Definition isGroupChild (schema : ParsedSchema.t) (child : ElkResultChild.t) : Prop :=
  ElkResultChild.id child ∈ map groupNodeId (ParsedSchema.tableGroups schema).

(** [isGroupChild] is decidable. *)
Global Instance isGroupChild_dec schema child : Decision (isGroupChild schema child).
Proof. unfold isGroupChild. apply _. Defined.



(** The identities of the tables of a schema. *)
Definition tableKeys (schema : ParsedSchema.t) : list string :=
  map tableNodeId (ParsedSchema.tables schema).

(** The keys named by the member lists of all groups, in order. *)
Definition allMemberKeys (groups : list SchemaTableGroup.t) : list string :=
  flat_map (λ g, map memberKey (SchemaTableGroup.tables g)) groups.

(** Each table appears at most once across all group member lists: the
    member entries that name a table of the schema are pairwise distinct. *)
Definition membersOnce (schema : ParsedSchema.t) : Prop :=
  NoDup (filter (λ k, k ∈ tableKeys schema)
                (allMemberKeys (ParsedSchema.tableGroups schema))).

(** The tables of group [g] that resolve, in the order of its member list. *)
Definition groupTables (tableMap : gmap string SchemaTable.t) (g : SchemaTableGroup.t)
  : list SchemaTable.t :=
  omap (λ m, tableMap !! memberKey m) (SchemaTableGroup.tables g).

(** The compound node of group [g], if it has a resolved member. *)
Definition groupNode (tableMap : gmap string SchemaTable.t)
    (direction : LayoutDirection) (g : SchemaTableGroup.t) : list ElkChild :=
  let children := groupChildren tableMap direction g in
  if decide (length children = 0) then []
  else [ElkGroup (groupNodeId g) (groupLayoutOptions direction) children].

(** The ids of the table nodes of a child: the child itself, or the nodes
    inside a compound node. *)
Definition childTableIds (c : ElkChild) : list string :=
  match c with
  | ElkTable node => [ElkTableNode.id node]
  | ElkGroup _ _ children => map ElkTableNode.id children
  end.

(** The ids of all table nodes of the graph. *)
Definition graphTableIds (graph : ElkGraph.t) : list string :=
  flat_map childTableIds (ElkGraph.children graph).

(** The id of a compound node. *)
Definition childGroupIds (c : ElkChild) : list string :=
  match c with
  | ElkTable _ => []
  | ElkGroup id _ _ => [id]
  end.

(** The ids of the nodes of a child, the compound node included. *)
Definition childNodeIds (c : ElkChild) : list string :=
  match c with
  | ElkTable node => [ElkTableNode.id node]
  | ElkGroup id _ children => id :: map ElkTableNode.id children
  end.

(** The ids of all nodes of the graph. *)
Definition graphNodeIds (graph : ElkGraph.t) : list string :=
  flat_map childNodeIds (ElkGraph.children graph).

(** ** Closed forms and predicates: the component *)

(** The [mousemove] events of a pointer path. *)
Definition moveEvents (path : list (Q * Q)) : list Event :=
  map (λ p, MouseMove p.1 p.2) path.

(** The array of every edge of the current layout is in the store. *)
Definition edgesAllocated (σ : Store) (d : Diagram.t) : Prop :=
  ∀ l edge, Diagram.layout d = Some l →
            edge ∈ LayoutResult.edges (LayoutObject.value l) →
            is_Some (σ !! LayoutEdge.points edge).

(** ** Sample inputs *)

(** A reference from [public.A] to [public.B]. *)
Definition sampleRef : SchemaRef.t :=
  SchemaRef.mk "" "public" "A" ["x"] "*" "public" "B" ["y"] "1" None None.

(** A point with integer coordinates. *)
Definition samplePoint (a b : Z) : Point.t := Point.mk (inject_Z a) (inject_Z b).

(** The edge of [sampleRef] routed along [pts]. *)
Definition sampleEdge (pts : list Point.t) : Edge := LayoutEdge.mk "e0" sampleRef pts.

(** A routed edge with two corners. *)
Definition samplePolyline : list Point.t :=
  [samplePoint 0 0; samplePoint 0 10; samplePoint 40 10; samplePoint 40 30].

(** Node [public.A] dragged by (50, 0). *)
Definition sampleDragA : gmap string Offset.t := {[ "public.A" := Offset.mk 50 0 ]}.

(** Both ends dragged. *)
Definition sampleDragAB : gmap string Offset.t :=
  <[ "public.A" := Offset.mk 50 7 ]> {[ "public.B" := Offset.mk 3 (-4) ]}.

(** The laid-out node of [public.B]. *)
Definition sampleNodeB : LayoutNode.t :=
  LayoutNode.mk "public.B" 300 40 200 64 None.

(** A third node dragged, neither [public.A] nor [public.B]. *)
Definition sampleDragC : gmap string Offset.t := {[ "public.C" := Offset.mk 5 5 ]}.

(** A straight two-point edge. *)
Definition sampleStraight : list Point.t := [samplePoint 0 0; samplePoint 100 0].

(** A table whose name is longer than its only row. *)
Definition sampleLongName : SchemaTable.t :=
  SchemaTable.mk "customer_order_line_item_history" "public"
    [SchemaColumn.mk "id" "int" true false false false None None] None None.

(** A table whose longest row is longer than its name. *)
Definition sampleWideRow : SchemaTable.t :=
  SchemaTable.mk "users" "public"
    [SchemaColumn.mk "id" "integer" true false false true None None;
     SchemaColumn.mk "email_address" "varchar(255)" false true true false None None]
    None None.

(** A table of the namespace [public] with one column. *)
Definition sampleTable (name : string) : SchemaTable.t :=
  SchemaTable.mk name "public"
    [SchemaColumn.mk "id" "integer" true false false true None None] None None.

(** A reference from [public.A] to the table [target]. *)
Definition sampleRefTo (target : string) : SchemaRef.t :=
  SchemaRef.mk "" "public" "A" ["id"] "*" "public" target ["id"] "1" None None.

(** Two tables, a reference to a table that does not exist and a reference
    between the two. *)
Definition sampleSchema : ParsedSchema.t :=
  ParsedSchema.mk [sampleTable "A"; sampleTable "B"]
    [sampleRefTo "Z"; sampleRefTo "B"] [] [].

(** A solver that routes every edge it is given as one straight section and
    leaves the nodes out. *)
Definition sampleSolver (graph : ElkGraph.t) : option ElkResult.t :=
  Some (ElkResult.mk None
          (Some (map (λ e, ElkResultEdge.mk (ElkEdge.id e)
                             (Some [ElkSection.mk (samplePoint 0 0) None (samplePoint 100 0)]))
                     (ElkGraph.edges graph)))
          (Some 800%Q) (Some 600%Q)).

(** A schema with one group that holds table [A]. *)
Definition sampleGroupedSchema : ParsedSchema.t :=
  ParsedSchema.mk [sampleTable "A"; sampleTable "B"] [sampleRefTo "B"] []
    [SchemaTableGroup.mk "core" [GroupMember.mk "public" "A"] None None].




(** The group of [sampleGroupedSchema]. *)
Definition sampleGroup : SchemaTableGroup.t :=
  SchemaTableGroup.mk "core" [GroupMember.mk "public" "A"] None None.




(** Two groups of the same name, each with one table. *)
Definition sampleTwinGroups : ParsedSchema.t :=
  ParsedSchema.mk [sampleTable "A"; sampleTable "B"] [] []
    [SchemaTableGroup.mk "core" [GroupMember.mk "public" "A"] None None;
     SchemaTableGroup.mk "core" [GroupMember.mk "public" "B"] None None].

(** A store with the array of one edge. *)
Definition sampleStore : Store := {[ 1%positive := samplePolyline ]}.

(** The edge of [sampleRef] with its array at address 1. *)
Definition sampleEdgeRef : EdgeRef := LayoutEdge.mk "e0" sampleRef 1%positive.

(** The laid-out node of [public.A]. *)
Definition sampleNodeA : LayoutNode.t :=
  LayoutNode.mk "public.A" 30 40 200 64 None.

(** A layout object with two nodes and one edge, and a diagram that shows
    it with no displacement. *)
Definition sampleLayout : LayoutObject.t :=
  LayoutObject.mk 1%positive
    (LayoutResult.mk [sampleNodeA; sampleNodeB] [sampleEdgeRef] [] 600 200).

Definition sampleDiagram : Diagram.t :=
  Diagram.mk (Some sampleLayout) (Some sampleLayout) ∅ None [].

(** The layout object of the next computation: same content, another
    identity. *)
Definition sampleLayout2 : LayoutObject.t :=
  LayoutObject.mk 2%positive (LayoutObject.value sampleLayout).

(** * Further definitions *)

(** ** Diagram.svelte: [fitToContent] *)

(** The bounding box [gEl.getBBox()] returns. *)
Module BBox.
Record t : Type := mk { x : Q; y : Q; width : Q; height : Q }.
End BBox.

(** A zoom transform: the factor [k] and the translation [(x, y)]. *)
Module Transform.
Record t : Type := mk { k : Q; x : Q; y : Q }.
End Transform.

(** [Math.min(a, b)] and [Math.min(a, b, c)]. *)
Definition num_min (a b : Q) : Q := if Qle_bool a b then a else b.
Definition min3 (a b c : Q) : Q := num_min (num_min a b) c.

(** [fitToContent(padding)] up to the transform it hands to the zoom
    behaviour, with the elements in place: [None] is the early return on an
    empty box.  [zoomIdentity.translate(tx, ty).scale(scale)] is the
    transform with factor [scale] and translation [(tx, ty)].  The numbers
    are exact rationals, where the code rounds every operation to a double:
    what is proved below of the factor compares numbers only. *)
Definition fitToContent (svgWidth svgHeight : Q) (box : BBox.t) (padding : Q)
  : option Transform.t :=
  if num_eqb (BBox.width box) 0 || num_eqb (BBox.height box) 0 then None
  else
    let scale :=
      min3 ((svgWidth - padding * 2) / BBox.width box)
           ((svgHeight - padding * 2) / BBox.height box)
           1 in
    let tx := (svgWidth / 2 - scale * (BBox.x box + BBox.width box / 2))%Q in
    let ty := (svgHeight / 2 - scale * (BBox.y box + BBox.height box / 2))%Q in
    Some (Transform.mk scale tx ty).

(** ** layout.ts: closed forms and predicates for the further properties *)

(** The words [wrapNoteText] wraps and the width of a line in characters. *)
Definition noteWords (note : string) : list string := split_ws note "" false.

Definition charsPerLine (tableWidth : Q) : Z :=
  Z.max 1 (Qfloor ((tableWidth - inject_Z (TABLE_PADDING_X * 2)) / inject_Z NOTE_CHAR_WIDTH)).

(** One turn of the loop of [wrapNoteText]: the state is
    [(lines, current)]. *)
Definition wrapStep (charsPerLine : Z) (st : list string * string) (word : string)
  : list string * string :=
  let '(lines, current) := st in
  if nonempty current && (charsPerLine <? strlen current + 1 + strlen word)%Z
  then (lines ++ [current], word)
  else (lines, if nonempty current then current +:+ " " +:+ word else word).

(** The last character of a string is a separator. *)
Fixpoint endsWithSpace (s : string) : bool :=
  match s with
  | EmptyString => false
  | String c EmptyString => is_space c
  | String _ s' => endsWithSpace s'
  end.

(** The first character of a string is a separator. *)
Definition startsWithSpace (s : string) : bool :=
  match s with
  | EmptyString => false
  | String c _ => is_space c
  end.

(** The lines the loop of [wrapNoteText] has produced in a state. *)
Definition stateLines (st : list string * string) : list string :=
  st.1 ++ (if nonempty st.2 then [st.2] else []).

(** A line is short enough or a single word. *)
Definition fitsOrWord (cpl : Z) (words : list string) (line : string) : Prop :=
  (strlen line ≤ cpl)%Z ∨ line ∈ words.

(** The ports of a table node, column by column. *)
Definition tablePorts (table : SchemaTable.t) (direction : LayoutDirection)
  : list ElkPort.t :=
  flat_map (λ ic : nat * SchemaColumn.t,
              columnPorts table (isHorizontal direction) (estimateTableWidth table)
                (tableHeight table (inject_Z (estimateTableWidth table)))
                (headerHeight table (inject_Z (estimateTableWidth table))) ic.1 ic.2)
           (imap pair (SchemaTable.columns table)).

(** The table nodes of the graph, at the top level or inside a compound
    node, and the ids of all their ports. *)
Definition childTableNodes (c : ElkChild) : list ElkTableNode.t :=
  match c with
  | ElkTable node => [node]
  | ElkGroup _ _ children => children
  end.

Definition graphTableNodes (graph : ElkGraph.t) : list ElkTableNode.t :=
  flat_map childTableNodes (ElkGraph.children graph).

Definition graphPortIds (graph : ElkGraph.t) : list string :=
  flat_map (λ node, map ElkPort.id (ElkTableNode.ports node)) (graphTableNodes graph).

(** The names of the columns of a table. *)
Definition columnNames (table : SchemaTable.t) : list string :=
  map SchemaColumn.name (SchemaTable.columns table).

(** The number of ends of references at the key [k]. *)
Definition endsAt (refs : list SchemaRef.t) (k : string) : nat :=
  length (filter (λ r, fromKey r = k) refs) + length (filter (λ r, toKey r = k) refs).

(** A list in which no element has a larger [f] than an element before
    it. *)
Fixpoint nonIncreasing {A} (f : A → nat) (l : list A) : Prop :=
  match l with
  | [] => True
  | a :: l' => Forall (λ b, f b ≤ f a) l' ∧ nonIncreasing f l'
  end.

(** The comparator [(a, b) => f(b) - f(a)]. *)
Definition byDescending {A} (f : A → nat) (a b : A) : Z :=
  (Z.of_nat (f b) - Z.of_nat (f a))%Z.

(** The connection count of a table of the schema. *)
Definition connections (schema : ParsedSchema.t) (t : SchemaTable.t) : nat :=
  countOf (buildConnectionCount (ParsedSchema.refs schema)) (tableNodeId t).

(** The tables of the schema that no member list names, in schema order. *)
Definition ungroupedInOrder (schema : ParsedSchema.t) : list SchemaTable.t :=
  filter (λ t, tableNodeId t ∉ allMemberKeys (ParsedSchema.tableGroups schema))
         (ParsedSchema.tables schema).

(** The points of one routing section. *)
Definition sectionPoints (section : ElkSection.t) : list Point.t :=
  ElkSection.startPoint section
  :: orEmpty (ElkSection.bendPoints section) ++ [ElkSection.endPoint section].

(** The solver returns the node tree it was given: the same children in the
    same order, a compound node with the same table nodes inside. *)
Definition sameNode (c : ElkChild) (rc : ElkResultChild.t) : Prop :=
  match c with
  | ElkTable node => ElkResultChild.id rc = ElkTableNode.id node
  | ElkGroup id _ children =>
      ElkResultChild.id rc = id
      ∧ map ElkResultLeaf.id (orEmpty (ElkResultChild.children rc))
        = map ElkTableNode.id children
  end.

(** A child of the graph whose ids the extraction tells apart: a table node
    whose id is the key of a table and of no group, or a compound node whose
    id is the id of a group and whose nodes are tables. *)
Definition knownChild (tableMap : gmap string SchemaTable.t)
    (groupByElkId : gmap string SchemaTableGroup.t) (c : ElkChild) : Prop :=
  match c with
  | ElkTable node =>
      groupByElkId !! ElkTableNode.id node = None
      ∧ is_Some (tableMap !! ElkTableNode.id node)
  | ElkGroup id _ children =>
      is_Some (groupByElkId !! id)
      ∧ Forall (λ node, is_Some (tableMap !! ElkTableNode.id node)) children
  end.

Definition keepsNodes (graph : ElkGraph.t) (result : ElkResult.t) : Prop :=
  Forall2 sameNode (ElkGraph.children graph) (orEmpty (ElkResult.children result)).

(** ** Further sample inputs *)

(** A diagram of 1000 by 500 whose top left corner is at (30, 30). *)
Definition sampleBox : BBox.t := BBox.mk 30 30 1000 500.

(** A diagram of 400 by 300 at the same place. *)
Definition sampleSmallBox : BBox.t := BBox.mk 30 30 400 300.

(** A note of several words. *)
Definition sampleNote : string :=
  "the users of the shop and the accounts they own in every region".

(** A schema that declares a reference and a group but no table. *)
Definition sampleNoTables : ParsedSchema.t :=
  ParsedSchema.mk [] [sampleRefTo "B"] []
    [SchemaTableGroup.mk "core" [GroupMember.mk "public" "A"] None None].

(** A routed edge with one section and one bend point. *)
Definition sampleSection : ElkSection.t :=
  ElkSection.mk (Point.mk 0 0) (Some [Point.mk 10 0]) (Point.mk 10 10).

Definition sampleRoutedEdge : ElkResultEdge.t :=
  ElkResultEdge.mk "e0" (Some [sampleSection]).

(** A solver that returns the node tree it was given, every node at the
    origin. *)
Definition echoLeaf (node : ElkTableNode.t) : ElkResultLeaf.t :=
  ElkResultLeaf.mk (ElkTableNode.id node) 0 0
    (ElkTableNode.width node) (ElkTableNode.height node).

Definition echoChild (c : ElkChild) : ElkResultChild.t :=
  match c with
  | ElkTable node =>
      ElkResultChild.mk (ElkTableNode.id node) 0 0
        (ElkTableNode.width node) (ElkTableNode.height node) None
  | ElkGroup id _ children =>
      ElkResultChild.mk id 0 0 0 0 (Some (map echoLeaf children))
  end.

Definition sampleEchoSolver (graph : ElkGraph.t) : option ElkResult.t :=
  Some (ElkResult.mk (Some (map echoChild (ElkGraph.children graph))) None None None).

(** ** +page.svelte: [parseSource] and [runLayout] *)

(** ['error' | 'warning' | 'info']. *)
Inductive Severity : Type := SevError | SevWarning | SevInfo.

Module ParseError.
Record t : Type := mk { message : string; line : Z; column : Z; severity : Severity }.
End ParseError.

(** The result of [parseDBML]. *)
Inductive ParseResult : Type :=
  | ParseOk (schema : ParsedSchema.t)
  | ParseFailed (errors : list ParseError.t).

Module Diagnostic.
Record t : Type := mk { from : Z; to : Z; severity : Severity; message : string }.
End Diagnostic.

(** [s.split('\n')]. *)
Definition newline : Ascii.ascii := Ascii.ascii_of_nat 10.

Definition is_newline (c : Ascii.ascii) : bool := Ascii.eqb c newline.

Fixpoint splitLines (s : string) : list string :=
  match s with
  | EmptyString => [""]
  | String c s' =>
      if is_newline c then "" :: splitLines s'
      else match splitLines s' with
           | l :: ls => String c l :: ls
           | [] => [String c ""]
           end
  end.

(** The loop [for (let i = 0; i < err.line - 1 && i < lines.length; i++)
    offset += lines[i].length + 1]; [lines] is the rest of the array from
    index [i]. *)
Fixpoint offsetLoop (lines : list string) (i line offset : Z) : Z :=
  match lines with
  | [] => offset
  | l :: rest =>
      if (i <? line - 1)%Z then offsetLoop rest (i + 1) line (offset + (strlen l + 1))
      else offset
  end.

(** The diagnostic [parseSource] makes of an error. *)
Definition diagnosticOf (dbml : string) (err : ParseError.t) : Diagnostic.t :=
  let lines := splitLines dbml in
  let offset := offsetLoop lines 0 (ParseError.line err) 0 in
  let offset := (offset + Z.max 0 (ParseError.column err - 1))%Z in
  Diagnostic.mk offset (Z.min (offset + 1) (strlen dbml))
    (match ParseError.severity err with SevWarning => SevWarning | _ => SevError end)
    (ParseError.message err).

(** The state of the page that [parseSource] and [runLayout] read and
    write. *)
Module Page.
Record t : Type := mk {
  source : string;
  direction : LayoutDirection;
  layout : option (LayoutResult.t (LayoutEdge.t (option SchemaRef.t) (list Point.t)));
  parseErrors : list ParseError.t;
  diagnostics : list Diagnostic.t;
  lastParsedSchema : option ParsedSchema.t }.
End Page.

(** [parseSource(dbml)], with the parser as a function. *)
Definition parseSource (parseDBML : string → ParseResult) (dbml : string) (st : Page.t)
  : Page.t :=
  match parseDBML dbml with
  | ParseOk schema =>
      Page.mk (Page.source st) (Page.direction st) (Page.layout st) [] [] (Some schema)
  | ParseFailed errors =>
      Page.mk (Page.source st) (Page.direction st) (Page.layout st) errors
        (map (diagnosticOf dbml) errors) (Page.lastParsedSchema st)
  end.

(** [runLayout()]: a rejected [computeLayout] is caught and leaves
    [layout] as it was. *)
Definition runLayout (parseDBML : string → ParseResult)
    (elk_layout : ElkGraph.t → option ElkResult.t) (st : Page.t) : Page.t :=
  let st := parseSource parseDBML (Page.source st) st in
  match Page.lastParsedSchema st with
  | None => st
  | Some schema =>
      match computeLayout elk_layout schema (Page.direction st) with
      | Some layout =>
          Page.mk (Page.source st) (Page.direction st) (Some layout)
            (Page.parseErrors st) (Page.diagnostics st) (Page.lastParsedSchema st)
      | None => st
      end
  end.

(** The offset at which line [k] (from 0) starts. *)
Definition lineStart (lines : list string) (k : nat) : Z :=
  foldr (λ l acc, (strlen l + 1 + acc)%Z) 0%Z (take k lines).

(** A text of two lines and an error on the second. *)
Definition sampleText : string := String.concat (String newline "") ["Table a {"; "  id int"].

Definition sampleError : ParseError.t := ParseError.mk "unexpected" 2 3 SevError.

(** A parser that accepts nothing, and a page that has parsed
    [sampleSchema] before. *)
Definition sampleParser (dbml : string) : ParseResult := ParseFailed [sampleError].

Definition samplePage : Page.t :=
  Page.mk sampleText RIGHT None [] [] (Some sampleSchema).

(** * Proofs *)

(** ** The loops of [adjustedPoints] *)

Section Loops.

Implicit Types (pts : list Point.t) (segH : list bool) (off : Offset.t).

Lemma segments_length pts : length (segments pts) = length pts - 1.
Proof.
  induction pts as [|a [|b rest] IH]; simpl in *; try done. lia.
Qed.

Lemma segments_lookup pts i a b :
  pts !! i = Some a → pts !! S i = Some b → segments pts !! i = Some (isHoriz a b).
Proof.
  revert i. induction pts as [|p rest IH]; intros i Ha Hb; [done|].
  destruct rest as [|q rest]; [by destruct i|].
  destruct i as [|i].
  - by simplify_list_eq.
  - change (segments (q :: rest) !! i = Some (isHoriz a b)). by apply IH.
Qed.

Lemma segH_loop_take pts k i :
  i + k + 1 ≤ length pts →
  segH_loop pts k i (take i (segments pts)) = Some (take (i + k) (segments pts)).
Proof.
  revert i. induction k as [|k IH]; intros i Hlen; simpl.
  - by rewrite Nat.add_0_r.
  - destruct (lookup_lt_is_Some_2 pts (i + 1)) as [b Hb]; [lia|].
    destruct (lookup_lt_is_Some_2 pts i) as [a Ha]; [lia|].
    rewrite Hb, Ha. simpl.
    replace (i + 1) with (S i) in Hb by lia.
    rewrite <- (take_S_r _ _ _ (segments_lookup _ _ _ _ Ha Hb)).
    rewrite IH by lia. f_equal. f_equal. lia.
Qed.

Lemma segH_loop_segments pts :
  segH_loop pts (length pts - 1) 0 [] = Some (segments pts).
Proof.
  destruct pts as [|p rest]; [done|].
  pose proof (segH_loop_take (p :: rest) (length (p :: rest) - 1) 0) as H.
  rewrite take_0 in H. rewrite H by (simpl; lia).
  f_equal. apply take_ge. rewrite segments_length. simpl. lia.
Qed.

Lemma fwdUpTo_length segH off n i : i ≤ n → length (fwdUpTo segH off n i) = n.
Proof.
  intros. unfold fwdUpTo. rewrite length_app, length_map, length_seq, length_replicate. lia.
Qed.

Lemma fwdUpTo_get segH off n i j :
  j < i → arr_get (fwdUpTo segH off n i) j = Some (fwdAt segH off j).
Proof.
  intros Hj. unfold arr_get, fwdUpTo.
  rewrite lookup_app_l by (rewrite length_map, length_seq; lia).
  rewrite list_lookup_fmap, lookup_seq_lt by lia. done.
Qed.

Lemma fwdUpTo_set segH off n i v :
  i < n → v = fwdAt segH off i →
  arr_set i v (fwdUpTo segH off n i) = fwdUpTo segH off n (S i).
Proof.
  intros Hi ->. unfold arr_set.
  rewrite fwdUpTo_length by lia. rewrite decide_True by lia.
  unfold fwdUpTo. rewrite seq_S, map_app. simpl.
  replace (n - i) with (S (n - S i)) by lia. simpl.
  rewrite <- app_assoc. simpl.
  rewrite insert_app_r_alt by (rewrite length_map, length_seq; lia).
  rewrite length_map, length_seq, Nat.sub_diag. done.
Qed.

Lemma fwd_loop_spec segH off n k i :
  1 ≤ i → i + k = n →
  fwd_loop segH k i (fwdUpTo segH off n i) = Some (fwdUpTo segH off n n).
Proof.
  revert i. induction k as [|k IH]; intros i Hi Hn; simpl.
  - replace i with n by lia. done.
  - rewrite fwdUpTo_get by lia. simpl.
    rewrite fwdUpTo_set; [apply IH; lia | lia |].
    destruct i as [|i]; [lia|]. simpl. by rewrite Nat.sub_0_r.
Qed.

Lemma fwd_init off n segH :
  1 ≤ n → arr_set 0 off (replicate n None) = fwdUpTo segH off n 1.
Proof.
  intros Hn. unfold arr_set. rewrite length_replicate, decide_True by lia.
  destruct n as [|n]; [lia|]. unfold fwdUpTo. simpl. by rewrite Nat.sub_0_r.
Qed.

Lemma bwdFrom_length segH off n i : i ≤ n → length (bwdFrom segH off n i) = n.
Proof.
  intros. unfold bwdFrom. rewrite length_app, length_map, length_seq, length_replicate. lia.
Qed.

Lemma bwdFrom_get segH off n i j :
  i ≤ j → j < n → arr_get (bwdFrom segH off n i) j = Some (bwdAt segH off (n - 1) j).
Proof.
  intros Hij Hj. unfold arr_get, bwdFrom.
  rewrite lookup_app_r by (rewrite length_replicate; lia).
  rewrite length_replicate, list_lookup_fmap, lookup_seq_lt by lia.
  simpl. do 3 f_equal. lia.
Qed.

Lemma bwdAt_step segH off last i :
  i < last →
  bwdAt segH off last i = carry (truthy (segH !! i)) (bwdAt segH off last (S i)).
Proof.
  intros Hi. unfold bwdAt.
  replace (last - i) with (S (last - S i)) by lia. simpl.
  do 3 f_equal. lia.
Qed.

Lemma bwdFrom_set segH off n i v :
  S i < n → v = bwdAt segH off (n - 1) i →
  arr_set i v (bwdFrom segH off n (S i)) = bwdFrom segH off n i.
Proof.
  intros Hi ->. unfold arr_set.
  rewrite bwdFrom_length by lia. rewrite decide_True by lia.
  unfold bwdFrom.
  replace (n - i) with (S (n - S i)) by lia.
  rewrite replicate_S_end, <- app_assoc.
  rewrite insert_app_r_alt by (rewrite length_replicate; lia).
  rewrite length_replicate, Nat.sub_diag. done.
Qed.

Lemma bwd_loop_spec segH off n i1 :
  i1 < n →
  bwd_loop segH i1 (bwdFrom segH off n i1) = Some (bwdFrom segH off n 0).
Proof.
  induction i1 as [|i IH]; intros Hn; simpl; [done|].
  rewrite bwdFrom_get by lia. simpl.
  rewrite bwdFrom_set; [apply IH; lia | lia |].
  rewrite (bwdAt_step _ _ _ i) by lia. do 2 f_equal. lia.
Qed.

Lemma bwd_init off n segH :
  1 ≤ n → arr_set (n - 1) off (replicate n None) = bwdFrom segH off n (n - 1).
Proof.
  intros Hn. destruct n as [|m]; [lia|].
  replace (S m - 1) with m by lia.
  unfold arr_set. rewrite length_replicate, decide_True by lia.
  unfold bwdFrom. replace (S m - m) with 1 by lia.
  unfold bwdAt.
  rewrite replicate_S_end.
  rewrite insert_app_r_alt by (rewrite length_replicate; lia).
  rewrite length_replicate. cbn [seq map].
  replace (S m - 1) with m by lia.
  rewrite !Nat.sub_diag. done.
Qed.

Lemma combine_loop_spec segH fromOff toOff n i pts :
  i + length pts = n →
  combine_loop (fwdUpTo segH fromOff n n) (bwdFrom segH toOff n 0) i pts
  = Some (imap (λ j, movedPoint segH fromOff toOff (n - 1) (i + j)) pts).
Proof.
  revert i. induction pts as [|pt rest IH]; intros i Hn; simpl; [done|].
  simpl in Hn.
  rewrite fwdUpTo_get by lia. simpl.
  rewrite bwdFrom_get by lia. simpl.
  rewrite IH by lia. simpl. unfold movedPoint at 2.
  rewrite Nat.add_0_r. do 2 f_equal.
  apply imap_ext. intros j x _. simpl. f_equal. lia.
Qed.

(** The general case of [adjustedPoints] never raises, and its result is
    the pointwise sum of the base polyline, the forward propagation and the
    backward propagation. *)
Lemma reroute_general pts fromOff toOff :
  3 ≤ length pts →
  reroute pts fromOff toOff
  = Some (imap (movedPoint (segments pts) fromOff toOff (length pts - 1)) pts).
Proof.
  intros Hn. unfold reroute.
  rewrite decide_False by lia. rewrite decide_False by lia.
  rewrite segH_loop_segments. simpl.
  rewrite (fwd_init _ _ (segments pts)) by lia.
  rewrite fwd_loop_spec by lia. simpl.
  rewrite (bwd_init _ _ (segments pts)) by lia.
  rewrite bwd_loop_spec by lia. simpl.
  rewrite combine_loop_spec by (simpl; lia). done.
Qed.

End Loops.

(** ** The model on sample inputs *)

(** Node [public.A] dragged by (50, 0): the first segment is vertical and
    carries the displacement to the first corner; the horizontal segment
    after it absorbs it. *)
Example adjustedPoints_corner :
  adjustedPoints sampleDragA (sampleEdge samplePolyline)
  = Some [samplePoint 50 0; samplePoint 50 10; samplePoint 40 10; samplePoint 40 30].
Proof. by vm_compute. Qed.

(** A straight edge steps through the midpoint of its moved ends. *)
Example adjustedPoints_straight :
  adjustedPoints sampleDragAB (sampleEdge sampleStraight)
  = Some [Point.mk 50 7; Point.mk (153 # 2) 7; Point.mk (153 # 2) (-4); Point.mk 103 (-4)].
Proof. by vm_compute. Qed.

(** Without displacement of its ends the edge keeps its array. *)
Example adjustedPoints_idle :
  adjustedPoints sampleDragC (sampleEdge samplePolyline) = Some samplePolyline.
Proof. by vm_compute. Qed.

(** The longest row of [sampleWideRow] has 35 characters. *)
Example estimateTableWidth_sample : estimateTableWidth sampleWideRow = 328%Z.
Proof. reflexivity. Qed.

(** Only the reference between the two existing tables becomes an edge. *)
Example buildGraph_sample_edges :
  ElkGraph.edges (buildGraph sampleSchema RIGHT).1
  = [ElkEdge.mk "e0" ["public.A.id.right"] ["public.B.id.left"]]
  ∧ (buildGraph sampleSchema RIGHT).2 = [sampleRefTo "B"].
Proof. split; by vm_compute. Qed.

(** ** Orthogonality is preserved *)

Section Orthogonal.

Local Open Scope Q_scope.

Lemma num_eqb_true a b : num_eqb a b = true ↔ a == b.
Proof. apply Qeq_bool_iff. Qed.

Lemma num_eqb_refl a : num_eqb a a = true.
Proof. apply num_eqb_true. reflexivity. Qed.

Lemma aligned_spec a b :
  aligned a b = true ↔ Point.x a == Point.x b ∨ Point.y a == Point.y b.
Proof.
  unfold aligned. rewrite orb_true_iff, !num_eqb_true. done.
Qed.

Lemma Qabs_le_zero d e : e == 0 → Qabs d <= Qabs e → d == 0.
Proof.
  intros He Hle. rewrite He in Hle. change (Qabs 0) with 0 in Hle.
  apply Qabs_Qle_condition in Hle. destruct Hle as [H1 H2].
  apply Qle_antisym; [exact H2 | exact H1].
Qed.

(** On an axis-aligned segment the orientation test tells which
    coordinate the two ends share. *)
Lemma aligned_horiz a b :
  aligned a b = true → isHoriz a b = true → Point.y a == Point.y b.
Proof.
  rewrite aligned_spec. unfold isHoriz, abs_geb. rewrite Qle_bool_iff.
  intros [Hx | Hy] Hle; [|done].
  assert (Point.y b - Point.y a == 0) as H.
  { apply (Qabs_le_zero _ (Point.x b - Point.x a)); [|done]. rewrite Hx. ring. }
  lra.
Qed.

Lemma aligned_vert a b :
  aligned a b = true → isHoriz a b = false → Point.x a == Point.x b.
Proof.
  rewrite aligned_spec. unfold isHoriz, abs_geb.
  intros [Hx | Hy] Hle; [done|].
  exfalso. apply not_true_iff_false in Hle. apply Hle, Qle_bool_iff.
  assert (Point.y b - Point.y a == 0) as -> by (rewrite Hy; ring).
  apply Qabs_nonneg.
Qed.

Lemma orthogonal_lookup (pts : list Point.t) :
  orthogonal pts = true ↔
  ∀ i a b, pts !! i = Some a → pts !! S i = Some b → aligned a b = true.
Proof.
  induction pts as [|p rest IH]; [done|].
  destruct rest as [|q rest].
  - split; [|done]. intros _ [|i] a b Ha Hb; simplify_list_eq.
  - change (orthogonal (p :: q :: rest)) with (aligned p q && orthogonal (q :: rest)).
    rewrite andb_true_iff, IH. split.
    + intros [Hpq Hrest] [|i] a b Ha Hb; simplify_list_eq; [done|].
      by eapply Hrest.
    + intros H. split; [by apply (H 0%nat)|].
      intros i a b Ha Hb. by apply (H (S i)).
Qed.

Lemma orthogonal_short (pts : list Point.t) :
  (length pts ≤ 1)%nat → orthogonal pts = true.
Proof. destruct pts as [|p [|q rest]]; simpl; [done|done|lia]. Qed.

Lemma carry_dy o : Offset.dy (carry true o) = Offset.dy o.
Proof. done. Qed.

Lemma carry_dx o : Offset.dx (carry false o) = Offset.dx o.
Proof. done. Qed.

(** The general case keeps every segment on its axis. *)
Lemma moved_orthogonal (pts : list Point.t) fromOff toOff :
  orthogonal pts = true →
  orthogonal (imap (movedPoint (segments pts) fromOff toOff (length pts - 1)) pts) = true.
Proof.
  rewrite !orthogonal_lookup. intros Hbase i a' b' Ha Hb.
  rewrite list_lookup_imap in Ha, Hb.
  destruct (pts !! i) as [a|] eqn:Hai; [|done].
  destruct (pts !! S i) as [b|] eqn:Hbi; [|done].
  simpl in Ha, Hb. simplify_eq.
  pose proof (Hbase i a b Hai Hbi) as Hab.
  pose proof (segments_lookup _ _ _ _ Hai Hbi) as Hseg.
  assert (i < length pts - 1)%nat as Hi.
  { apply lookup_lt_Some in Hbi. lia. }
  apply aligned_spec. unfold movedPoint. cbn [Point.x Point.y].
  cbn [fwdAt]. rewrite (bwdAt_step _ _ _ i Hi), Hseg. cbn [truthy].
  destruct (isHoriz a b) eqn:Hh.
  - right. rewrite !carry_dy. rewrite (aligned_horiz a b Hab Hh). reflexivity.
  - left. rewrite !carry_dx. rewrite (aligned_vert a b Hab Hh). reflexivity.
Qed.

(** The body after the early return never raises. *)
Lemma reroute_total (pts : list Point.t) fromOff toOff :
  is_Some (reroute pts fromOff toOff).
Proof.
  destruct (decide (3 ≤ length pts)%nat) as [H3|H3].
  - rewrite reroute_general by done. eauto.
  - unfold reroute. destruct pts as [|a [|b [|c rest]]]; simpl in *; try lia; eauto.
    destruct (isHoriz a b); eauto.
Qed.

Lemma reroute_orthogonal (pts : list Point.t) fromOff toOff :
  orthogonal pts = true →
  ∃ r, reroute pts fromOff toOff = Some r ∧ orthogonal r = true.
Proof.
  intros Hbase.
  destruct (decide (3 ≤ length pts)%nat) as [H3|H3].
  - rewrite reroute_general by done. eexists. split; [done|].
    by apply moved_orthogonal.
  - unfold reroute. destruct pts as [|a [|b [|c rest]]]; simpl in *; try lia.
    + eauto.
    + eauto.
    + destruct (isHoriz a b); eexists; (split; [done|]); simpl;
        unfold aligned; cbn [Point.x Point.y]; rewrite !num_eqb_refl;
        by rewrite ?orb_true_r.
Qed.

End Orthogonal.

(** C1. Whenever every consecutive pair of points of the base polyline of
    an edge is axis-aligned, [adjustedPoints] returns, for any displacement
    map, a polyline whose consecutive pairs are axis-aligned again; the
    statement covers polylines of 0 or 1 point, of 2 points and of 3 points
    or more. *)
Theorem adjustedPoints_orthogonal (nodeOffsets : gmap string Offset.t) (edge : Edge) :
  orthogonal (LayoutEdge.points edge) = true →
  ∃ r, adjustedPoints nodeOffsets edge = Some r ∧ orthogonal r = true.
Proof.
  intros Hbase. unfold adjustedPoints.
  destruct (edgeNodeIds edge) as [fromId toId].
  destruct (noDisplacement _ _).
  - eauto.
  - by apply reroute_orthogonal.
Qed.

(** C1 at a polyline with two corners and both ends dragged. *)
Lemma adjustedPoints_orthogonal_witness :
  orthogonal (LayoutEdge.points (sampleEdge samplePolyline)) = true ∧
  ∃ r, adjustedPoints sampleDragAB (sampleEdge samplePolyline) = Some r
       ∧ orthogonal r = true.
Proof.
  split; [reflexivity|].
  apply (adjustedPoints_orthogonal sampleDragAB (sampleEdge samplePolyline)).
  reflexivity.
Defined.

(** ** Edges whose ends are not displaced *)

Section Unchanged.

Local Open Scope Q_scope.

Lemma offsetOf_undisplaced (nodeOffsets : gmap string Offset.t) id :
  undisplaced nodeOffsets id →
  num_eqb (Offset.dx (offsetOf nodeOffsets id)) 0 = true
  ∧ num_eqb (Offset.dy (offsetOf nodeOffsets id)) 0 = true.
Proof.
  unfold undisplaced, offsetOf. destruct (nodeOffsets !! id) as [o|].
  - intros [Hx Hy]. by rewrite !num_eqb_true.
  - done.
Qed.

Lemma undisplaced_insert_zero (nodeOffsets : gmap string Offset.t) k id :
  undisplaced nodeOffsets id → undisplaced (<[k := Offset.mk 0 0]> nodeOffsets) id.
Proof.
  unfold undisplaced. destruct (decide (k = id)) as [->|Hne].
  - rewrite lookup_insert_eq. done.
  - by rewrite lookup_insert_ne.
Qed.

Lemma undisplaced_delete (nodeOffsets : gmap string Offset.t) k id :
  undisplaced nodeOffsets id → undisplaced (delete k nodeOffsets) id.
Proof.
  unfold undisplaced. destruct (decide (k = id)) as [->|Hne].
  - by rewrite lookup_delete_eq.
  - by rewrite lookup_delete_ne.
Qed.

Lemma adjustedPoints_base (nodeOffsets : gmap string Offset.t) (edge : Edge) :
  undisplaced nodeOffsets (edgeNodeIds edge).1 →
  undisplaced nodeOffsets (edgeNodeIds edge).2 →
  adjustedPoints nodeOffsets edge = Some (LayoutEdge.points edge).
Proof.
  intros Hfrom Hto. unfold adjustedPoints.
  destruct (edgeNodeIds edge) as [fromId toId]. simpl in *.
  apply offsetOf_undisplaced in Hfrom as [Hfx Hfy].
  apply offsetOf_undisplaced in Hto as [Htx Hty].
  unfold noDisplacement. by rewrite Hfx, Hfy, Htx, Hty.
Qed.

(** An entry equal to (0,0) is read like a missing entry, whatever the
    other entries are. *)
Lemma adjustedPoints_insert_zero (nodeOffsets : gmap string Offset.t) k (edge : Edge) :
  nodeOffsets !! k = None →
  adjustedPoints (<[k := Offset.mk 0 0]> nodeOffsets) edge
  = adjustedPoints nodeOffsets edge.
Proof.
  intros Hk. unfold adjustedPoints.
  destruct (edgeNodeIds edge) as [fromId toId].
  assert (∀ id, offsetOf (<[k := Offset.mk 0 0]> nodeOffsets) id = offsetOf nodeOffsets id)
    as Hoff.
  { intros id. unfold offsetOf. destruct (decide (k = id)) as [->|Hne].
    - by rewrite lookup_insert_eq, Hk.
    - by rewrite lookup_insert_ne. }
  by rewrite !Hoff.
Qed.

End Unchanged.

(** C2. If neither end node of an edge carries a nonzero displacement (no
    entry in the map, or the entry (0,0)), [adjustedPoints] returns the base
    polyline itself.  Hence giving any node the displacement (0,0) leaves
    the polyline of the edge as it is, and after any drag of a node,
    clearing that node's displacement (removing its entry, or setting it to
    (0,0)) gives back exactly the base polyline. *)
Theorem adjustedPoints_unchanged (nodeOffsets : gmap string Offset.t) (edge : Edge) :
  undisplaced nodeOffsets (edgeNodeIds edge).1 →
  undisplaced nodeOffsets (edgeNodeIds edge).2 →
  adjustedPoints nodeOffsets edge = Some (LayoutEdge.points edge)
  ∧ (∀ k, adjustedPoints (<[k := Offset.mk 0 0]> nodeOffsets) edge
          = Some (LayoutEdge.points edge))
  ∧ (∀ k d, adjustedPoints (delete k (<[k := d]> nodeOffsets)) edge
            = Some (LayoutEdge.points edge))
  ∧ (∀ k d, adjustedPoints (<[k := Offset.mk 0 0]> (<[k := d]> nodeOffsets)) edge
            = Some (LayoutEdge.points edge)).
Proof.
  intros Hfrom Hto. repeat split.
  - by apply adjustedPoints_base.
  - intros k. apply adjustedPoints_base; by apply undisplaced_insert_zero.
  - intros k d. rewrite delete_insert_eq.
    apply adjustedPoints_base; by apply undisplaced_delete.
  - intros k d. rewrite insert_insert_eq.
    apply adjustedPoints_base; by apply undisplaced_insert_zero.
Qed.

(** C2 at an edge from [public.A] to [public.B] while only a third node is
    displaced. *)
Lemma adjustedPoints_unchanged_witness :
  undisplaced sampleDragC (edgeNodeIds (sampleEdge samplePolyline)).1 ∧
  undisplaced sampleDragC (edgeNodeIds (sampleEdge samplePolyline)).2 ∧
  adjustedPoints (delete "public.A" (<["public.A" := Offset.mk 50 0]> sampleDragC))
    (sampleEdge samplePolyline)
  = Some samplePolyline.
Proof.
  assert (undisplaced sampleDragC (edgeNodeIds (sampleEdge samplePolyline)).1) as H1
    by (vm_compute; exact I).
  assert (undisplaced sampleDragC (edgeNodeIds (sampleEdge samplePolyline)).2) as H2
    by (vm_compute; exact I).
  split; [exact H1|]. split; [exact H2|].
  exact (proj1 (proj2 (proj2
           (adjustedPoints_unchanged sampleDragC (sampleEdge samplePolyline) H1 H2)))
           "public.A" (Offset.mk 50 0)).
Defined.

(** ** Propagation in closed form *)

Section Propagation.

Local Open Scope Q_scope.

Lemma allVertical_snoc segH h : allVertical (segH ++ [h]) = allVertical segH && negb h.
Proof. unfold allVertical. rewrite forallb_app. simpl. by rewrite andb_true_r. Qed.

Lemma allHorizontal_snoc segH h : allHorizontal (segH ++ [h]) = allHorizontal segH && h.
Proof. unfold allHorizontal. rewrite forallb_app. simpl. by rewrite andb_true_r. Qed.

(** A horizontal segment passes on only the vertical component and a
    vertical segment only the horizontal one: [dx] reaches point [j] when
    every segment before it is vertical, [dy] when every one is horizontal. *)
Lemma fwdAt_closed segH off j :
  (j ≤ length segH)%nat →
  fwdAt segH off j
  = Offset.mk (if allVertical (take j segH) then Offset.dx off else 0)
              (if allHorizontal (take j segH) then Offset.dy off else 0).
Proof.
  induction j as [|j IH]; intros Hj.
  - rewrite take_0. by destruct off.
  - destruct (lookup_lt_is_Some_2 segH j) as [h Hh]; [lia|].
    rewrite (take_S_r _ _ _ Hh), allVertical_snoc, allHorizontal_snoc.
    cbn [fwdAt]. rewrite Hh, IH by lia.
    destruct h; cbn [truthy carry Offset.dx Offset.dy negb];
      rewrite ?andb_true_r, ?andb_false_r; done.
Qed.




End Propagation.



(** ** Two-point and degenerate polylines *)

Section TwoPoints.

Local Open Scope Q_scope.

Lemma noDisplacement_true fromOff toOff :
  noDisplacement fromOff toOff = true ↔
  (Offset.dx fromOff == 0 ∧ Offset.dy fromOff == 0)
  ∧ (Offset.dx toOff == 0 ∧ Offset.dy toOff == 0).
Proof.
  unfold noDisplacement. rewrite !andb_true_iff, !num_eqb_true. tauto.
Qed.


Lemma adjustedPoints_unfold (nodeOffsets : gmap string Offset.t) (edge : Edge) :
  adjustedPoints nodeOffsets edge
  = if noDisplacement (fromOffset nodeOffsets edge) (toOffset nodeOffsets edge)
    then Some (LayoutEdge.points edge)
    else reroute (LayoutEdge.points edge)
           (fromOffset nodeOffsets edge) (toOffset nodeOffsets edge).
Proof.
  unfold adjustedPoints, fromOffset, toOffset.
  by destruct (edgeNodeIds edge) as [fromId toId].
Qed.

(** [adjustedPoints] never raises. *)
Lemma adjustedPoints_total (nodeOffsets : gmap string Offset.t) (edge : Edge) :
  is_Some (adjustedPoints nodeOffsets edge).
Proof.
  rewrite adjustedPoints_unfold. destruct (noDisplacement _ _); [eauto|].
  apply reroute_total.
Qed.

End TwoPoints.



(** ** Table width *)

Section Width.

Local Open Scope Z_scope.

Lemma strlen_nonneg s : 0 ≤ strlen s.
Proof. unfold strlen. lia. Qed.

Lemma lineLen_pos col : 3 ≤ lineLen col.
Proof.
  unfold lineLen.
  pose proof (strlen_nonneg (SchemaColumn.name col)).
  pose proof (strlen_nonneg (SchemaColumn.type col)).
  pose proof (strlen_nonneg (constraintStr col)). lia.
Qed.

Lemma maxRowLen_nonneg cols : 0 ≤ maxRowLen cols.
Proof. unfold maxRowLen. induction cols as [|c cols IH]; simpl; lia. Qed.

(** The loop over the columns keeps the running maximum. *)
Lemma maxLen_loop cols init :
  foldl (λ maxLen col, if maxLen <? lineLen col then lineLen col else maxLen) init cols
  = Z.max init (foldr Z.max init (map lineLen cols)).
Proof.
  revert init. induction cols as [|c cols IH]; intros init; simpl; [lia|].
  rewrite IH. destruct (Z.ltb_spec init (lineLen c)).
  - assert (∀ a b : Z, a ≤ b → foldr Z.max a (map lineLen cols)
                                 ≤ foldr Z.max b (map lineLen cols)) as Hmono.
    { clear. induction cols as [|c cols IH]; intros a b Hab; simpl; [done|].
      specialize (IH a b Hab). lia. }
    assert (∀ a : Z, a ≤ foldr Z.max a (map lineLen cols)) as Hge.
    { clear. induction cols as [|c cols IH]; intros a; simpl; [done|].
      specialize (IH a). lia. }
    assert (∀ a b : Z, a ≤ b → foldr Z.max b (map lineLen cols)
                                 = Z.max b (foldr Z.max a (map lineLen cols))) as Hsplit.
    { clear. induction cols as [|c cols IH]; intros a b Hab; simpl; [lia|].
      rewrite (IH a b Hab). lia. }
    rewrite (Hsplit init (lineLen c)) by lia.
    pose proof (Hge init). lia.
  - lia.
Qed.

Lemma maxLen_closed cols init :
  0 ≤ init →
  foldl (λ maxLen col, if maxLen <? lineLen col then lineLen col else maxLen) init cols
  = Z.max init (maxRowLen cols).
Proof.
  intros Hinit. rewrite maxLen_loop. unfold maxRowLen.
  assert (∀ a : Z, 0 ≤ a → foldr Z.max a (map lineLen cols)
                            = Z.max a (foldr Z.max 0 (map lineLen cols))) as H.
  { clear. induction cols as [|c cols IH]; intros a Ha; simpl; [lia|].
    rewrite (IH a Ha). lia. }
  rewrite (H init Hinit). lia.
Qed.

End Width.

(** C6, as stated, fails: the maximum the code takes includes the length of
    the table name, so a table whose name is longer than all its rows is
    wider than the rows-only formula says (304 against 200 here). *)
Lemma estimateTableWidth_not_rows_only :
  estimateTableWidth sampleLongName = 304%Z
  ∧ specRowsWidth sampleLongName = 200%Z
  ∧ estimateTableWidth sampleLongName ≠ specRowsWidth sampleLongName.
Proof. split; [reflexivity|]. split; [reflexivity|]. by vm_compute. Qed.

(** C6, amended. The node width of a table is the larger of the minimum
    width (200) and [m * 8 + 2 * 24], clamped to the maximum width (360),
    where [m] is the largest of the length of the table name and the text
    lengths of the column rows; the text length of a row is the length of
    the column name plus that of its type plus 3 plus that of its constraint
    badges.  The width agrees with the rows-only formula as soon as some row
    is at least as long as the table name. *)
Theorem estimateTableWidth_closed (table : SchemaTable.t) :
  estimateTableWidth table
  = Z.min 360 (Z.max 200 (Z.max (strlen (SchemaTable.name table))
                                (maxRowLen (SchemaTable.columns table)) * 8 + 2 * 24))
  ∧ (200 ≤ estimateTableWidth table ≤ 360)%Z
  ∧ ((strlen (SchemaTable.name table) ≤ maxRowLen (SchemaTable.columns table))%Z →
     estimateTableWidth table = specRowsWidth table).
Proof.
  unfold estimateTableWidth, specRowsWidth.
  rewrite maxLen_closed by apply strlen_nonneg.
  unfold TABLE_MAX_WIDTH, TABLE_MIN_WIDTH, CHAR_WIDTH, TABLE_PADDING_X.
  split; [f_equal|split; [lia|]].
  intros Hle. rewrite (Z.max_r _ _ Hle). done.
Qed.

(** The amended C6 at a table whose longest row exceeds its name. *)
Lemma estimateTableWidth_closed_witness :
  (strlen (SchemaTable.name sampleWideRow)
   ≤ maxRowLen (SchemaTable.columns sampleWideRow))%Z
  ∧ estimateTableWidth sampleWideRow = specRowsWidth sampleWideRow.
Proof.
  assert (strlen (SchemaTable.name sampleWideRow)
          ≤ maxRowLen (SchemaTable.columns sampleWideRow))%Z as H by (vm_compute; discriminate).
  split; [exact H|].
  exact (proj2 (proj2 (estimateTableWidth_closed sampleWideRow)) H).
Defined.

(** ** References and edges *)

Section Edges.

Implicit Types (tableMap : gmap string SchemaTable.t) (refs : list SchemaRef.t).

(** The edge loop from an arbitrary state. *)
Lemma buildEdges_loop tableMap refs edges survivingRefs :
  ∃ edges',
    foldl (edgeStep tableMap) (edges, survivingRefs) refs
    = (edges ++ edges', survivingRefs ++ filter (resolves tableMap) refs)
    ∧ length edges' = length (filter (resolves tableMap) refs)
    ∧ ∀ i r, filter (resolves tableMap) refs !! i = Some r →
             edges' !! i = edgeFor tableMap (length edges + i) r
             ∧ is_Some (edges' !! i).
Proof.
  revert edges survivingRefs.
  induction refs as [|ref refs IH]; intros edges survivingRefs.
  - exists []. simpl. rewrite !app_nil_r. done.
  - cbn [foldl]. unfold edgeStep at 2.
    destruct (tableMap !! fromKey ref) as [fromTable|] eqn:Hf;
      [destruct (tableMap !! toKey ref) as [toTable|] eqn:Ht|].
    + match goal with |- context [foldl _ (edges ++ [?e], _) _] => set (new := e) end.
      destruct (IH (edges ++ [new]) (survivingRefs ++ [ref])) as (edges' & Heq & Hl & Hpt).
      rewrite filter_cons_True by (split; eauto).
      exists (new :: edges'). rewrite Heq, <- !app_assoc. simpl.
      split; [done|]. split; [by rewrite Hl|].
      intros [|i] r Hi; simpl in Hi.
      * simplify_eq. rewrite Nat.add_0_r. unfold edgeFor. rewrite Hf, Ht. simpl. eauto.
      * destruct (Hpt i r Hi) as [H1 H2]. split; [|done].
        simpl. rewrite H1. f_equal. rewrite length_app. simpl. lia.
    + rewrite filter_cons_False by (intros [_ [? ?]]; congruence).
      apply IH.
    + rewrite filter_cons_False by (intros [[? ?] _]; congruence).
      apply IH.
Qed.

Lemma buildEdges_spec tableMap refs :
  (buildEdges tableMap refs).2 = filter (resolves tableMap) refs
  ∧ length (buildEdges tableMap refs).1 = length (filter (resolves tableMap) refs)
  ∧ ∀ i r, filter (resolves tableMap) refs !! i = Some r →
           (buildEdges tableMap refs).1 !! i = edgeFor tableMap i r
           ∧ is_Some ((buildEdges tableMap refs).1 !! i).
Proof.
  unfold buildEdges.
  destruct (buildEdges_loop tableMap refs [] []) as (edges' & Heq & Hl & Hpt).
  rewrite Heq. simpl. done.
Qed.

Lemma buildGraph_edges schema direction :
  (buildGraph schema direction).2
  = (buildEdges (buildTableMap (ParsedSchema.tables schema)) (ParsedSchema.refs schema)).2
  ∧ ElkGraph.edges (buildGraph schema direction).1
    = (buildEdges (buildTableMap (ParsedSchema.tables schema)) (ParsedSchema.refs schema)).1.
Proof.
  unfold buildGraph. by destruct (buildEdges _ _) as [edges survivingRefs].
Qed.

Lemma extractEdges_refs (survivingRefs : list SchemaRef.t) (edges : list ElkResultEdge.t) :
  length edges = length survivingRefs →
  map LayoutEdge.ref (extractEdges survivingRefs edges) = map Some survivingRefs.
Proof.
  intros Hlen. unfold extractEdges. apply list_eq. intros i.
  rewrite !list_lookup_fmap, list_lookup_imap.
  destruct (edges !! i) as [e|] eqn:He; simpl.
  - destruct (lookup_lt_is_Some_2 survivingRefs i) as [r Hr].
    { apply lookup_lt_Some in He. lia. }
    by rewrite Hr.
  - rewrite lookup_ge_None_2; [done|]. apply lookup_ge_None_1 in He. lia.
Qed.

Lemma extractLayout_edges schema survivingRefs result :
  LayoutResult.edges (extractLayout schema survivingRefs result)
  = extractEdges survivingRefs (orEmpty (ElkResult.edges result)).
Proof.
  unfold extractLayout. by destruct (extractNodes _ _ _).
Qed.

End Edges.

Section KeyedMap.

(** [tableMap] and [groupByElkId] are built alike: every element is stored
    under its key, a later one replacing an earlier one. *)
Context {A : Type} (key : A → string).

Lemma keyed_loop_is_Some (l : list A) (m : gmap string A) k :
  is_Some (foldl (λ m a, <[key a := a]> m) m l !! k)
  ↔ is_Some (m !! k) ∨ k ∈ map key l.
Proof.
  revert m. induction l as [|a l IH]; intros m; simpl.
  - rewrite elem_of_nil. tauto.
  - rewrite IH, elem_of_cons.
    destruct (decide (key a = k)) as [Heq|Hne].
    + rewrite <- Heq, lookup_insert_eq. split; [eauto|]. intros _. left. eauto.
    + rewrite lookup_insert_ne by done. split; intros [?|?]; eauto.
      destruct H as [?|?]; [congruence|eauto].
Qed.

Lemma keyed_loop_Some (l : list A) (m : gmap string A) k a :
  (∀ k a, m !! k = Some a → key a = k) →
  foldl (λ m a, <[key a := a]> m) m l !! k = Some a →
  key a = k ∧ (a ∈ l ∨ m !! k = Some a).
Proof.
  revert m. induction l as [|a0 l IH]; intros m Hm; simpl.
  - intros H. split; [by apply Hm|by right].
  - intros H. apply IH in H.
    + destruct H as [Hk [Hin|Hl]]; split; try done.
      * left. by apply elem_of_cons; right.
      * destruct (decide (key a0 = k)) as [Heq|Hne].
        -- rewrite <- Heq, lookup_insert_eq in Hl. simplify_eq.
           left. apply elem_of_cons. by left.
        -- rewrite lookup_insert_ne in Hl by done. by right.
    + intros k' a' Hl. destruct (decide (key a0 = k')) as [Heq|Hne].
      * rewrite <- Heq, lookup_insert_eq in Hl. by simplify_eq.
      * rewrite lookup_insert_ne in Hl by done. by apply Hm.
Qed.




End KeyedMap.

Section TableMap.

(** The keys of [tableMap] are the identities of the tables. *)
Lemma buildTableMap_is_Some (tables : list SchemaTable.t) k :
  is_Some (buildTableMap tables !! k) ↔ k ∈ map tableNodeId tables.
Proof.
  unfold buildTableMap. rewrite keyed_loop_is_Some, lookup_empty.
  split; [intros [[? ?]|?]; done | eauto].
Qed.

(** A value of [tableMap] is a table of the schema stored under its own
    identity. *)
Lemma buildTableMap_Some (tables : list SchemaTable.t) k t :
  buildTableMap tables !! k = Some t → tableNodeId t = k ∧ t ∈ tables.
Proof.
  intros H. apply keyed_loop_Some in H.
  - destruct H as [Hk [Hin|Hl]]; [done|]. by rewrite lookup_empty in Hl.
  - intros k' t'. by rewrite lookup_empty.
Qed.

Lemma buildGroupByElkId_is_Some (groups : list SchemaTableGroup.t) k :
  is_Some (buildGroupByElkId groups !! k) ↔ k ∈ map groupNodeId groups.
Proof.
  unfold buildGroupByElkId. rewrite keyed_loop_is_Some, lookup_empty.
  split; [intros [[? ?]|?]; done | eauto].
Qed.

Lemma buildGroupByElkId_Some (groups : list SchemaTableGroup.t) k g :
  buildGroupByElkId groups !! k = Some g → groupNodeId g = k ∧ g ∈ groups.
Proof.
  intros H. apply keyed_loop_Some in H.
  - destruct H as [Hk [Hin|Hl]]; [done|]. by rewrite lookup_empty in Hl.
  - intros k' t'. by rewrite lookup_empty.
Qed.



End TableMap.

(** C5. The references handed on to the extraction are exactly the
    references of the schema whose two end tables are tables of the schema,
    in order; the solver is given one edge for each of them, at the same
    position, running from the right port of the first source column to the
    left port of the first target column; a reference with an unresolved end
    gives no edge.  When the solver keeps the edge list it was given,
    [computeLayout] returns a layout with one edge per resolved reference,
    whose [ref] is the reference at the same position.  The graph builder
    has no failing path. *)
Theorem references_to_edges (elk_layout : ElkGraph.t → option ElkResult.t)
    (schema : ParsedSchema.t) (direction : LayoutDirection) :
  (∀ r, resolves (schemaTableMap schema) r ↔
        fromKey r ∈ map tableNodeId (ParsedSchema.tables schema)
        ∧ toKey r ∈ map tableNodeId (ParsedSchema.tables schema))
  ∧ (buildGraph schema direction).2 = resolvedRefs schema
  ∧ length (ElkGraph.edges (buildGraph schema direction).1) = length (resolvedRefs schema)
  ∧ (∀ i r, resolvedRefs schema !! i = Some r →
       ∃ e, ElkGraph.edges (buildGraph schema direction).1 !! i = Some e
            ∧ edgeFor (schemaTableMap schema) i r = Some e)
  ∧ (∀ r, ¬ resolves (schemaTableMap schema) r → r ∉ (buildGraph schema direction).2)
  ∧ (∀ result,
       elk_layout (buildGraph schema direction).1 = Some result →
       keepsEdges (buildGraph schema direction).1 result →
       ∃ out, computeLayout elk_layout schema direction = Some out
              ∧ length (LayoutResult.edges out) = length (resolvedRefs schema)
              ∧ map LayoutEdge.ref (LayoutResult.edges out)
                = map Some (resolvedRefs schema)).
Proof.
  destruct (buildGraph_edges schema direction) as [Hsurv Hedges].
  destruct (buildEdges_spec (schemaTableMap schema) (ParsedSchema.refs schema))
    as (Hfilter & Hlen & Hpt).
  fold (schemaTableMap schema) in Hsurv, Hedges.
  rewrite Hsurv, Hedges. fold (resolvedRefs schema) in Hfilter, Hlen, Hpt.
  split; [|split; [done|split; [done|split; [|split]]]].
  - intros r. unfold resolves, schemaTableMap. by rewrite !buildTableMap_is_Some.
  - intros i r Hi. destruct (Hpt i r Hi) as [H1 [e He]].
    exists e. split; [done|]. by rewrite <- H1.
  - intros r Hr. rewrite Hfilter. unfold resolvedRefs.
    rewrite list_elem_of_filter. tauto.
  - intros result Hres Hkeep. unfold computeLayout.
    destruct (buildGraph schema direction) as [graph survivingRefs] eqn:Hg.
    simpl in *. rewrite Hres. simpl. eexists. split; [done|].
    rewrite extractLayout_edges.
    assert (length (orEmpty (ElkResult.edges result)) = length survivingRefs) as Hl.
    { apply (f_equal length) in Hkeep. rewrite !length_map in Hkeep.
      rewrite Hkeep, Hedges, Hsurv, Hfilter. done. }
    rewrite <- Hfilter, <- Hsurv. split.
    + unfold extractEdges. by rewrite length_imap.
    + by apply extractEdges_refs.
Qed.

(** C5 at a schema with one resolved and one unresolved reference. *)
Lemma references_to_edges_witness :
  (∃ result, sampleSolver (buildGraph sampleSchema RIGHT).1 = Some result
             ∧ keepsEdges (buildGraph sampleSchema RIGHT).1 result)
  ∧ ∃ out, computeLayout sampleSolver sampleSchema RIGHT = Some out
           ∧ map LayoutEdge.ref (LayoutResult.edges out) = [Some (sampleRefTo "B")].
Proof.
  assert (∃ result, sampleSolver (buildGraph sampleSchema RIGHT).1 = Some result
                    ∧ keepsEdges (buildGraph sampleSchema RIGHT).1 result) as Hs.
  { eexists. split; [reflexivity|]. vm_compute. reflexivity. }
  split; [exact Hs|].
  destruct Hs as (result & Hres & Hkeep).
  destruct (proj2 (proj2 (proj2 (proj2 (proj2
              (references_to_edges sampleSolver sampleSchema RIGHT)))))
              result Hres Hkeep) as (out & Hout & _ & Hrefs).
  exists out. split; [exact Hout|]. rewrite Hrefs. vm_compute. reflexivity.
Defined.

(** ** Extraction of nodes and groups *)

Section Extraction.

Implicit Types (tableMap : gmap string SchemaTable.t)
  (groupByElkId : gmap string SchemaTableGroup.t).

Lemma push_loop {A B} (f : A → B) (l : list A) (acc : list B) :
  foldl (λ acc a, acc ++ [f a]) acc l = acc ++ map f l.
Proof.
  revert acc. induction l as [|a l IH]; intros acc; simpl.
  - by rewrite app_nil_r.
  - by rewrite IH, <- app_assoc.
Qed.

Lemma extractStep_spec tableMap groupByElkId nodes groups child :
  extractStep tableMap groupByElkId (nodes, groups) child
  = (nodes ++ childNodes tableMap groupByElkId child,
     groups ++ childGroups groupByElkId child).
Proof.
  unfold extractStep, childNodes, childGroups.
  destruct (groupByElkId !! ElkResultChild.id child) as [g|].
  - by rewrite push_loop.
  - by rewrite app_nil_r.
Qed.

Lemma extractNodes_loop tableMap groupByElkId children nodes groups :
  foldl (extractStep tableMap groupByElkId) (nodes, groups) children
  = (nodes ++ flat_map (childNodes tableMap groupByElkId) children,
     groups ++ flat_map (childGroups groupByElkId) children).
Proof.
  revert nodes groups.
  induction children as [|c children IH]; intros nodes groups; cbn [foldl flat_map].
  - by rewrite !app_nil_r.
  - by rewrite extractStep_spec, IH, <- !app_assoc.
Qed.

Lemma extractNodes_spec tableMap groupByElkId children :
  extractNodes tableMap groupByElkId children
  = (flat_map (childNodes tableMap groupByElkId) children,
     flat_map (childGroups groupByElkId) children).
Proof. unfold extractNodes. by rewrite extractNodes_loop. Qed.

Lemma extractLayout_nodes schema survivingRefs result :
  LayoutResult.nodes (extractLayout schema survivingRefs result)
  = flat_map (childNodes (schemaTableMap schema)
                (buildGroupByElkId (ParsedSchema.tableGroups schema)))
             (orEmpty (ElkResult.children result))
  ∧ LayoutResult.groups (extractLayout schema survivingRefs result)
    = flat_map (childGroups (buildGroupByElkId (ParsedSchema.tableGroups schema)))
               (orEmpty (ElkResult.children result)).
Proof.
  unfold extractLayout. rewrite extractNodes_spec. done.
Qed.

End Extraction.

Section Recorded.




End Recorded.




(** ** The nodes of the submitted graph *)

Section GraphNodes.

Implicit Types (tableMap : gmap string SchemaTable.t) (direction : LayoutDirection).

Lemma buildTableElkNode_id t direction :
  ElkTableNode.id (buildTableElkNode t direction) = tableNodeId t.
Proof. done. Qed.

Lemma groupChildren_loop tableMap direction (members : list GroupMember.t) acc :
  foldl (λ groupChildren ref,
           match tableMap !! memberKey ref with
           | Some table => groupChildren ++ [buildTableElkNode table direction]
           | None => groupChildren
           end) acc members
  = acc ++ map (λ t, buildTableElkNode t direction)
               (omap (λ m, tableMap !! memberKey m) members).
Proof.
  revert acc. induction members as [|m members IH]; intros acc; simpl.
  - by rewrite app_nil_r.
  - rewrite IH. destruct (tableMap !! memberKey m); simpl; [|done].
    by rewrite <- app_assoc.
Qed.

Lemma groupChildren_spec tableMap direction g :
  groupChildren tableMap direction g
  = map (λ t, buildTableElkNode t direction) (groupTables tableMap g).
Proof. unfold groupChildren. by rewrite groupChildren_loop. Qed.

Lemma groupNodes_loop tableMap direction groups acc :
  foldl (λ topLevelChildren group,
           let children := groupChildren tableMap direction group in
           if decide (length children = 0) then topLevelChildren
           else topLevelChildren
                ++ [ElkGroup (groupNodeId group) (groupLayoutOptions direction) children])
        acc groups
  = acc ++ flat_map (groupNode tableMap direction) groups.
Proof.
  revert acc. induction groups as [|g groups IH]; intros acc; cbn [foldl flat_map].
  - by rewrite app_nil_r.
  - rewrite IH. unfold groupNode at 2. cbn zeta.
    destruct (decide (length (groupChildren tableMap direction g) = 0)).
    + done.
    + by rewrite <- app_assoc.
Qed.

Lemma groupNodes_spec tableMap direction groups :
  groupNodes tableMap direction groups = flat_map (groupNode tableMap direction) groups.
Proof. unfold groupNodes. by rewrite groupNodes_loop. Qed.

(** The children of the graph: the compound nodes, then the ungrouped
    tables. *)
Lemma buildGraph_children schema direction :
  ElkGraph.children (buildGraph schema direction).1
  = flat_map (groupNode (schemaTableMap schema) direction) (ParsedSchema.tableGroups schema)
    ++ map (λ t, ElkTable (buildTableElkNode t direction))
           (ungroupedTables schema
              (buildTableToGroup (ParsedSchema.tableGroups schema))
              (buildConnectionCount (ParsedSchema.refs schema))).
Proof.
  unfold buildGraph. destruct (buildEdges _ _) as [edges survivingRefs]. simpl.
  by rewrite push_loop, groupNodes_spec.
Qed.

(** The stable sort rearranges its argument. *)
Lemma sort_insert_perm {A} (cmp : A → A → Z) a (l : list A) :
  sort_insert cmp a l ≡ₚ a :: l.
Proof.
  induction l as [|b l IH]; simpl; [done|].
  destruct (0 <? cmp a b)%Z; [|done].
  rewrite IH. apply Permutation_swap.
Qed.

Lemma js_sort_perm {A} (cmp : A → A → Z) (l : list A) : js_sort cmp l ≡ₚ l.
Proof.
  unfold js_sort. induction l as [|a l IH]; simpl; [done|].
  by rewrite sort_insert_perm, IH.
Qed.

(** The keys of [tableToGroup] are the keys named by the member lists. *)
Lemma tableToGroup_inner (members : list GroupMember.t) (g : SchemaTableGroup.t)
    (m : gmap string SchemaTableGroup.t) k :
  is_Some (foldl (λ m ref, <[memberKey ref := g]> m) m members !! k)
  ↔ is_Some (m !! k) ∨ k ∈ map memberKey members.
Proof.
  revert m. induction members as [|r members IH]; intros m; simpl.
  - rewrite elem_of_nil. tauto.
  - rewrite IH, elem_of_cons.
    destruct (decide (memberKey r = k)) as [Heq|Hne].
    + rewrite <- Heq, lookup_insert_eq. split; [eauto|]. intros _. left. eauto.
    + rewrite lookup_insert_ne by done. split; intros [?|?]; eauto.
      destruct H as [?|?]; [congruence|eauto].
Qed.

Lemma tableToGroup_loop (groups : list SchemaTableGroup.t)
    (m : gmap string SchemaTableGroup.t) k :
  is_Some (foldl (λ m group,
                    foldl (λ m ref, <[memberKey ref := group]> m) m
                          (SchemaTableGroup.tables group)) m groups !! k)
  ↔ is_Some (m !! k) ∨ k ∈ allMemberKeys groups.
Proof.
  revert m. induction groups as [|g groups IH]; intros m; cbn [foldl].
  - unfold allMemberKeys. simpl. rewrite elem_of_nil. tauto.
  - rewrite IH, tableToGroup_inner. unfold allMemberKeys. cbn [flat_map].
    rewrite elem_of_app. tauto.
Qed.

Lemma buildTableToGroup_is_Some (groups : list SchemaTableGroup.t) k :
  is_Some (buildTableToGroup groups !! k) ↔ k ∈ allMemberKeys groups.
Proof.
  unfold buildTableToGroup. rewrite tableToGroup_loop, lookup_empty.
  split; [intros [[? ?]|?]; done | eauto].
Qed.

End GraphNodes.

Section TablesOnce.

Implicit Types (schema : ParsedSchema.t) (direction : LayoutDirection).

Lemma NoDup_key_inj {A} (key : A → string) (l : list A) a b :
  NoDup (map key l) → a ∈ l → b ∈ l → key a = key b → a = b.
Proof.
  induction l as [|c l IH]; intros Hnd Ha Hb Hk; [by apply elem_of_nil in Ha|].
  simpl in Hnd. apply NoDup_cons in Hnd as [Hc Hnd].
  apply elem_of_cons in Ha as [->|Ha]; apply elem_of_cons in Hb as [->|Hb].
  - done.
  - exfalso. apply Hc. rewrite Hk. apply list_elem_of_fmap. eauto.
  - exfalso. apply Hc. rewrite <- Hk. apply list_elem_of_fmap. eauto.
  - by apply IH.
Qed.

(** With distinct identities, [tableMap] holds every table under its own
    identity. *)
Lemma buildTableMap_lookup (tables : list SchemaTable.t) t :
  NoDup (map tableNodeId tables) → t ∈ tables →
  buildTableMap tables !! tableNodeId t = Some t.
Proof.
  intros Hnd Ht.
  destruct (proj2 (buildTableMap_is_Some tables (tableNodeId t))) as [t' Ht'].
  { apply list_elem_of_fmap. eauto. }
  rewrite Ht'. f_equal.
  destruct (buildTableMap_Some _ _ _ Ht') as [Hk Hin].
  by apply (NoDup_key_inj tableNodeId tables).
Qed.

Lemma groupTables_keys (tables : list SchemaTable.t) (g : SchemaTableGroup.t) :
  map tableNodeId (groupTables (buildTableMap tables) g)
  = filter (λ k, k ∈ map tableNodeId tables) (map memberKey (SchemaTableGroup.tables g)).
Proof.
  unfold groupTables.
  induction (SchemaTableGroup.tables g) as [|m members IH]; [done|].
  cbn [omap list_omap map].
  destruct (buildTableMap tables !! memberKey m) as [t|] eqn:Hm.
  - destruct (buildTableMap_Some _ _ _ Hm) as [Hk Hin].
    rewrite filter_cons_True by (apply buildTableMap_is_Some; eauto).
    cbn [map]. by rewrite IH, Hk.
  - rewrite filter_cons_False; [done|].
    intros H. apply buildTableMap_is_Some in H as [? ?]. congruence.
Qed.

Lemma groupNode_tableIds tableMap direction g :
  flat_map childTableIds (groupNode tableMap direction g)
  = map tableNodeId (groupTables tableMap g).
Proof.
  unfold groupNode. cbn zeta. rewrite groupChildren_spec.
  destruct (decide _) as [Hlen|Hlen]; simpl.
  - rewrite length_map in Hlen. by destruct (groupTables tableMap g).
  - rewrite app_nil_r, map_map. done.
Qed.

Lemma groupPart_tableIds (tables : list SchemaTable.t) direction
    (groups : list SchemaTableGroup.t) :
  flat_map childTableIds (flat_map (groupNode (buildTableMap tables) direction) groups)
  = filter (λ k, k ∈ map tableNodeId tables) (allMemberKeys groups).
Proof.
  unfold allMemberKeys. induction groups as [|g groups IH]; [done|].
  cbn [flat_map]. rewrite flat_map_app, filter_app, IH.
  by rewrite groupNode_tableIds, groupTables_keys.
Qed.

Lemma ungrouped_filter (tables : list SchemaTable.t) (groups : list SchemaTableGroup.t) :
  map tableNodeId
      (filter (λ t, buildTableToGroup groups !! tableNodeId t = None) tables)
  = filter (λ k, k ∉ allMemberKeys groups) (map tableNodeId tables).
Proof.
  induction tables as [|t tables IH]; [done|]. cbn [map].
  destruct (buildTableToGroup groups !! tableNodeId t) as [g|] eqn:Hl.
  - rewrite filter_cons_False by congruence.
    rewrite filter_cons_False; [done|].
    intros H. apply H. apply buildTableToGroup_is_Some. eauto.
  - rewrite filter_cons_True by done.
    rewrite filter_cons_True.
    + cbn [map]. by rewrite IH.
    + intros H. apply buildTableToGroup_is_Some in H as [? ?]. congruence.
Qed.

Lemma ungrouped_ids schema :
  map tableNodeId
      (ungroupedTables schema (buildTableToGroup (ParsedSchema.tableGroups schema))
                       (buildConnectionCount (ParsedSchema.refs schema)))
  ≡ₚ filter (λ k, k ∉ allMemberKeys (ParsedSchema.tableGroups schema)) (tableKeys schema).
Proof.
  unfold ungroupedTables, tableKeys. rewrite js_sort_perm. by rewrite ungrouped_filter.
Qed.

Lemma graphTableIds_spec schema direction :
  graphTableIds (buildGraph schema direction).1
  = filter (λ k, k ∈ tableKeys schema) (allMemberKeys (ParsedSchema.tableGroups schema))
    ++ map tableNodeId
         (ungroupedTables schema (buildTableToGroup (ParsedSchema.tableGroups schema))
                          (buildConnectionCount (ParsedSchema.refs schema))).
Proof.
  unfold graphTableIds. rewrite buildGraph_children, flat_map_app.
  unfold schemaTableMap. rewrite groupPart_tableIds. f_equal.
  induction (ungroupedTables _ _ _) as [|t l IH]; [done|].
  simpl. by rewrite IH.
Qed.

(** The table nodes of the graph are the tables of the schema. *)
Lemma graphTableIds_perm schema direction :
  NoDup (tableKeys schema) → membersOnce schema →
  graphTableIds (buildGraph schema direction).1 ≡ₚ tableKeys schema.
Proof.
  intros Hkeys Honce. rewrite graphTableIds_spec, ungrouped_ids.
  etransitivity;
    [|apply (filter_app_complement
               (λ k, k ∈ allMemberKeys (ParsedSchema.tableGroups schema))
               (tableKeys schema))].
  apply Permutation_app; [|done].
  apply NoDup_Permutation; [done | by apply NoDup_filter |].
  intros k. rewrite !list_elem_of_filter. tauto.
Qed.

Lemma flat_map_split {A B} (f g h : A → list B) (l : list A) :
  (∀ a, f a = g a ++ h a) → flat_map f l ≡ₚ flat_map g l ++ flat_map h l.
Proof.
  intros Hf. induction l as [|a l IH]; [done|].
  cbn [flat_map]. rewrite Hf, IH. rewrite <- !app_assoc. apply Permutation_app; [done|].
  rewrite !app_assoc. apply Permutation_app; [|done]. apply Permutation_app_comm.
Qed.

Lemma graphNodeIds_perm (graph : ElkGraph.t) :
  graphNodeIds graph
  ≡ₚ flat_map childGroupIds (ElkGraph.children graph) ++ graphTableIds graph.
Proof.
  unfold graphNodeIds, graphTableIds. apply flat_map_split. by intros [n|id opts kids].
Qed.

Lemma groupIds_sublist tableMap direction (groups : list SchemaTableGroup.t) :
  flat_map childGroupIds (flat_map (groupNode tableMap direction) groups)
  `sublist_of` map groupNodeId groups.
Proof.
  induction groups as [|g groups IH]; [done|].
  cbn [flat_map map]. rewrite flat_map_app. unfold groupNode at 1. cbn zeta.
  destruct (decide _); simpl.
  - by apply sublist_cons.
  - by apply sublist_skip.
Qed.

Lemma graphGroupIds_sublist schema direction :
  flat_map childGroupIds (ElkGraph.children (buildGraph schema direction).1)
  `sublist_of` map groupNodeId (ParsedSchema.tableGroups schema).
Proof.
  rewrite buildGraph_children, flat_map_app.
  assert (flat_map childGroupIds
            (map (λ t, ElkTable (buildTableElkNode t direction))
                 (ungroupedTables schema
                    (buildTableToGroup (ParsedSchema.tableGroups schema))
                    (buildConnectionCount (ParsedSchema.refs schema)))) = []) as ->.
  { induction (ungroupedTables _ _ _) as [|t l IH]; [done|]. done. }
  rewrite app_nil_r. apply groupIds_sublist.
Qed.

Lemma groupNodeId_inj g1 g2 :
  groupNodeId g1 = groupNodeId g2 → SchemaTableGroup.name g1 = SchemaTableGroup.name g2.
Proof. unfold groupNodeId. intros H. by simplify_eq. Qed.

Lemma groupNodeIds_NoDup (groups : list SchemaTableGroup.t) :
  NoDup (map SchemaTableGroup.name groups) → NoDup (map groupNodeId groups).
Proof.
  induction groups as [|g groups IH]; simpl; [constructor|].
  rewrite !NoDup_cons. intros [Hg Hnd]. split; [|by apply IH].
  intros Hin. apply Hg. apply list_elem_of_fmap in Hin as (g' & Heq & Hin).
  apply list_elem_of_fmap. exists g'. split; [|done]. by apply groupNodeId_inj.
Qed.

End TablesOnce.

(** C10, as stated, fails: two groups of the same name, each with one
    table, satisfy the hypothesis (each table is in one member list), and the
    graph has two compound nodes with the id [group:core]. *)
Lemma twin_groups_share_node_id :
  NoDup (tableKeys sampleTwinGroups)
  ∧ membersOnce sampleTwinGroups
  ∧ graphNodeIds (buildGraph sampleTwinGroups RIGHT).1
    = ["group:core"; "public.A"; "group:core"; "public.B"]
  ∧ ¬ NoDup (graphNodeIds (buildGraph sampleTwinGroups RIGHT).1).
Proof.
  assert (graphNodeIds (buildGraph sampleTwinGroups RIGHT).1
          = ["group:core"; "public.A"; "group:core"; "public.B"]) as Hids
    by (vm_compute; reflexivity).
  split; [|split; [|split; [exact Hids|]]].
  - apply (bool_decide_unpack _). by vm_compute.
  - apply (bool_decide_unpack _). by vm_compute.
  - rewrite Hids. intros H. apply NoDup_cons in H as [H _].
    apply H. apply elem_of_cons. right. apply elem_of_cons. by left.
Qed.

(** C10, amended. Take a schema whose tables have pairwise distinct
    identities and in which each table appears at most once across all
    group member lists.  Then the table nodes of the graph given to the
    solver are the tables of the schema, each exactly once, so no table node
    id is duplicated; a table named by a member list of a group lies inside
    the compound node of that group, and a table named by no member list is
    a top-level child.  If moreover the groups have pairwise distinct names
    and no table identity is the node id of a group, no node id at all is
    duplicated. *)
Theorem tables_once_in_graph (schema : ParsedSchema.t) (direction : LayoutDirection) :
  NoDup (tableKeys schema) →
  membersOnce schema →
  graphTableIds (buildGraph schema direction).1 ≡ₚ tableKeys schema
  ∧ NoDup (graphTableIds (buildGraph schema direction).1)
  ∧ (∀ t, t ∈ ParsedSchema.tables schema →
       (∀ g, g ∈ ParsedSchema.tableGroups schema →
             tableNodeId t ∈ map memberKey (SchemaTableGroup.tables g) →
             ∃ children,
               ElkGroup (groupNodeId g) (groupLayoutOptions direction) children
                 ∈ ElkGraph.children (buildGraph schema direction).1
               ∧ buildTableElkNode t direction ∈ children)
       ∧ (tableNodeId t ∉ allMemberKeys (ParsedSchema.tableGroups schema) →
          ElkTable (buildTableElkNode t direction)
            ∈ ElkGraph.children (buildGraph schema direction).1))
  ∧ (NoDup (map SchemaTableGroup.name (ParsedSchema.tableGroups schema)) →
     (∀ g, g ∈ ParsedSchema.tableGroups schema → groupNodeId g ∉ tableKeys schema) →
     NoDup (graphNodeIds (buildGraph schema direction).1)).
Proof.
  intros Hkeys Honce.
  pose proof (graphTableIds_perm schema direction Hkeys Honce) as Hperm.
  split; [done|]. split; [by rewrite Hperm|]. split.
  - intros t Ht. rewrite buildGraph_children. split.
    + intros g Hg Hmem.
      exists (groupChildren (schemaTableMap schema) direction g).
      assert (t ∈ groupTables (schemaTableMap schema) g) as Hin.
      { apply list_elem_of_fmap in Hmem as (m & Hk & Hm).
        apply list_elem_of_omap. exists m. split; [done|].
        rewrite <- Hk. by apply buildTableMap_lookup. }
      assert (buildTableElkNode t direction
                ∈ groupChildren (schemaTableMap schema) direction g) as Hkid.
      { rewrite groupChildren_spec. apply list_elem_of_fmap. eauto. }
      split; [|done].
      apply elem_of_app. left. apply list_elem_of_In, in_flat_map.
      exists g. split; [by apply list_elem_of_In|].
      unfold groupNode. cbn zeta. destruct (decide _) as [Hlen|Hlen].
      * destruct (groupChildren _ _ _); [by apply elem_of_nil in Hkid|done].
      * by left.
    + intros Hnot. apply elem_of_app. right.
      apply list_elem_of_fmap. exists t. split; [done|].
      unfold ungroupedTables. rewrite js_sort_perm.
      apply list_elem_of_filter. split; [|done].
      apply eq_None_not_Some. intros H. apply Hnot.
      by apply buildTableToGroup_is_Some.
  - intros Hnames Hdisj. rewrite graphNodeIds_perm.
    apply NoDup_app. split; [|split].
    + eapply sublist_NoDup; [|apply graphGroupIds_sublist].
      by apply groupNodeIds_NoDup.
    + intros k Hk Hk'. rewrite Hperm in Hk'.
      apply (λ H, elem_of_sublist _ _ _ H (graphGroupIds_sublist schema direction)) in Hk.
      apply list_elem_of_fmap in Hk as (g & -> & Hg).
      by apply (Hdisj g).
    + by rewrite Hperm.
Qed.

(** The amended C10 at a schema with one group. *)
Lemma tables_once_in_graph_witness :
  NoDup (tableKeys sampleGroupedSchema)
  ∧ membersOnce sampleGroupedSchema
  ∧ NoDup (map SchemaTableGroup.name (ParsedSchema.tableGroups sampleGroupedSchema))
  ∧ (∀ g, g ∈ ParsedSchema.tableGroups sampleGroupedSchema →
          groupNodeId g ∉ tableKeys sampleGroupedSchema)
  ∧ graphTableIds (buildGraph sampleGroupedSchema RIGHT).1 ≡ₚ tableKeys sampleGroupedSchema
  ∧ NoDup (graphNodeIds (buildGraph sampleGroupedSchema RIGHT).1).
Proof.
  assert (NoDup (tableKeys sampleGroupedSchema)) as H1
    by (apply (bool_decide_unpack _); by vm_compute).
  assert (membersOnce sampleGroupedSchema) as H2
    by (apply (bool_decide_unpack _); by vm_compute).
  assert (NoDup (map SchemaTableGroup.name (ParsedSchema.tableGroups sampleGroupedSchema)))
    as H3 by (apply (bool_decide_unpack _); by vm_compute).
  assert (∀ g, g ∈ ParsedSchema.tableGroups sampleGroupedSchema →
               groupNodeId g ∉ tableKeys sampleGroupedSchema) as H4.
  { intros g Hg. apply elem_of_cons in Hg as [->|Hg]; [|by apply elem_of_nil in Hg].
    apply (bool_decide_unpack _). by vm_compute. }
  split; [exact H1|]. split; [exact H2|]. split; [exact H3|]. split; [exact H4|].
  split.
  - exact (proj1 (tables_once_in_graph sampleGroupedSchema RIGHT H1 H2)).
  - exact (proj2 (proj2 (proj2 (tables_once_in_graph sampleGroupedSchema RIGHT H1 H2)))
             H3 H4).
Defined.

(** ** The store and the handlers *)

Section Frame.

Lemma adjustedPointsAt_spec (σ : Store) (nodeOffsets : gmap string Offset.t)
    (edge : EdgeRef) pts :
  σ !! LayoutEdge.points edge = Some pts →
  ∃ r σ',
    adjustedPointsAt σ nodeOffsets edge = Some (r, σ')
    ∧ (∀ l v, σ !! l = Some v → σ' !! l = Some v)
    ∧ (r = LayoutEdge.points edge ∧ σ' = σ ∨ σ !! r = None)
    ∧ σ' !! r
      = adjustedPoints nodeOffsets
          (LayoutEdge.mk (LayoutEdge.id edge) (LayoutEdge.ref edge) pts).
Proof.
  intros Hpts. unfold adjustedPointsAt, adjustedPoints.
  rewrite Hpts. simpl.
  destruct (noDisplacement _ _).
  - exists (LayoutEdge.points edge), σ. split; [done|]. split; [done|].
    split; [by left|]. done.
  - match goal with
    | |- context [reroute pts ?a ?b] => destruct (reroute_total pts a b) as [new Hnew]
    end.
    rewrite Hnew. cbn [mbind option_bind].
    assert (σ !! fresh (dom σ) = None) as Hfresh.
    { apply not_elem_of_dom. apply is_fresh. }
    eexists _, _. split; [done|]. split; [|split].
    + intros l v Hl. unfold Store, loc in *.
      rewrite lookup_insert_ne; [done|]. congruence.
    + by right.
    + unfold Store, loc in *. by rewrite lookup_insert_eq.
Qed.

Lemma renderEdges_spec (nodeOffsets : gmap string Offset.t) (edges : list EdgeRef)
    (σ : Store) :
  (∀ edge, edge ∈ edges → is_Some (σ !! LayoutEdge.points edge)) →
  ∃ σ', renderEdges nodeOffsets edges σ = Some σ'
        ∧ ∀ l v, σ !! l = Some v → σ' !! l = Some v.
Proof.
  revert σ. induction edges as [|edge edges IH]; intros σ Halloc; simpl.
  - eauto.
  - destruct (Halloc edge) as [pts Hpts]; [apply elem_of_cons; by left|].
    destruct (adjustedPointsAt_spec σ nodeOffsets edge pts Hpts)
      as (r & σ1 & Hcall & Hkeep & _).
    rewrite Hcall. simpl.
    destruct (IH σ1) as (σ' & Hrun & Hkeep').
    { intros e He. destruct (Halloc e) as [v Hv]; [apply elem_of_cons; by right|].
      rewrite (Hkeep _ _ Hv). eauto. }
    exists σ'. split; [done|]. intros l v Hl. by apply Hkeep', Hkeep.
Qed.

Lemma render_spec (d : Diagram.t) (σ : Store) :
  edgesAllocated σ d →
  ∃ σ', render d σ = Some σ' ∧ ∀ l v, σ !! l = Some v → σ' !! l = Some v.
Proof.
  intros Halloc. unfold render. destruct (Diagram.layout d) as [l|] eqn:Hl; [|eauto].
  destruct (renderEdges_spec (Diagram.nodeOffsets d)
              (LayoutResult.edges (LayoutObject.value l)) σ) as (σ1 & H1 & Hk1).
  { intros e He. by apply (Halloc l). }
  rewrite H1. simpl.
  destruct (renderEdges_spec (Diagram.nodeOffsets d)
              (LayoutResult.edges (LayoutObject.value l)) σ1) as (σ2 & H2 & Hk2).
  { intros e He. destruct (Halloc l e Hl He) as [v Hv]. rewrite (Hk1 _ _ Hv). eauto. }
  exists σ2. split; [done|]. intros k v Hv. by apply Hk2, Hk1.
Qed.

(** One event of dragging or drawing keeps the layout and every array of
    the store. *)
Lemma step_drag (ev : Event) (σ : Store) (d : Diagram.t) :
  isDragEvent ev = true → edgesAllocated σ d →
  ∃ σ' d', step ev (σ, d) = Some (σ', d')
    ∧ Diagram.layout d' = Diagram.layout d
    ∧ Diagram.prevLayout d' = Diagram.prevLayout d
    ∧ (∀ l v, σ !! l = Some v → σ' !! l = Some v).
Proof.
  intros Hev Halloc. destruct ev as [l|button cx cy node scale|cx cy| |]; simpl.
  - done.
  - eexists _, _. split; [done|]. unfold onNodeMouseDown.
    destruct (decide _); done.
  - eexists _, _. split; [done|]. done.
  - eexists _, _. split; [done|]. unfold mouseUp.
    destruct (Diagram.listeners d); done.
  - destruct (render_spec d σ Halloc) as (σ' & Hr & Hk). rewrite Hr. simpl.
    eexists _, _. split; [done|]. done.
Qed.

Lemma run_drag (evs : list Event) (σ : Store) (d : Diagram.t) :
  forallb isDragEvent evs = true → edgesAllocated σ d →
  ∃ σ' d', run evs (σ, d) = Some (σ', d')
    ∧ Diagram.layout d' = Diagram.layout d
    ∧ Diagram.prevLayout d' = Diagram.prevLayout d
    ∧ (∀ l v, σ !! l = Some v → σ' !! l = Some v).
Proof.
  revert σ d. induction evs as [|ev evs IH]; intros σ d Hevs Halloc.
  - simpl. eexists _, _. done.
  - simpl in Hevs. apply andb_true_iff in Hevs as [Hev Hevs].
    destruct (step_drag ev σ d Hev Halloc) as (σ1 & d1 & Hstep & Hl & Hp & Hk).
    cbn [run]. rewrite Hstep. simpl.
    destruct (IH σ1 d1 Hevs) as (σ' & d' & Hrun & Hl' & Hp' & Hk').
    { intros l e Hlay He. rewrite Hl in Hlay.
      destruct (Halloc l e Hlay He) as [v Hv]. rewrite (Hk _ _ Hv). eauto. }
    exists σ', d'. split; [done|]. split; [congruence|]. split; [congruence|].
    intros l v Hv. by apply Hk', Hk.
Qed.

End Frame.

(** What each handler assigns: a move only [nodeOffsets]; a press and a
    release only the cursor flag [draggingNodeId] and the listeners of the
    gesture; a drawing pass nothing. *)
Lemma step_writes (ev : Event) (σ σ' : Store) (d d' : Diagram.t) :
  isDragEvent ev = true → step ev (σ, d) = Some (σ', d') →
  Diagram.layout d' = Diagram.layout d
  ∧ Diagram.prevLayout d' = Diagram.prevLayout d
  ∧ match ev with
    | MouseMove _ _ =>
        Diagram.draggingNodeId d' = Diagram.draggingNodeId d
        ∧ Diagram.listeners d' = Diagram.listeners d
    | Render => d' = d
    | _ => Diagram.nodeOffsets d' = Diagram.nodeOffsets d
    end.
Proof.
  intros Hev Hstep. destruct ev as [l|button cx cy node scale|cx cy| |]; simpl in Hstep.
  - done.
  - simplify_eq. unfold onNodeMouseDown. destruct (decide _); done.
  - by simplify_eq.
  - simplify_eq. unfold mouseUp. destruct (Diagram.listeners d); done.
  - destruct (render d σ); simpl in Hstep; by simplify_eq.
Qed.

(** C8. [adjustedPoints] writes to no array of the store: called on an
    edge whose array is in the store, it returns either the address of that
    array, leaving the store as it was, or an address that was free before
    the call, and every array of the store holds the same points after the
    call; the array at the returned address holds the polyline
    [adjustedPoints] computes.  Of the data of the diagram the handlers of a
    drag assign only the displacement map [nodeOffsets] (besides it, a press
    and a release set the cursor flag [draggingNodeId] and register or remove
    the listeners of the gesture).  So any sequence of mouse-down,
    mouse-move, mouse-up and drawing events runs to the end, leaves the
    [layout] object (its nodes, edges and groups) and [prevLayout] as they
    were, and leaves every array of the store with the same points. *)
Theorem drag_keeps_base_layout :
  (∀ (σ : Store) (nodeOffsets : gmap string Offset.t) (edge : EdgeRef) pts,
     σ !! LayoutEdge.points edge = Some pts →
     ∃ r σ',
       adjustedPointsAt σ nodeOffsets edge = Some (r, σ')
       ∧ (∀ l v, σ !! l = Some v → σ' !! l = Some v)
       ∧ (r = LayoutEdge.points edge ∧ σ' = σ ∨ σ !! r = None)
       ∧ σ' !! r
         = adjustedPoints nodeOffsets
             (LayoutEdge.mk (LayoutEdge.id edge) (LayoutEdge.ref edge) pts))
  ∧ (∀ (ev : Event) (σ σ' : Store) (d d' : Diagram.t),
       isDragEvent ev = true → step ev (σ, d) = Some (σ', d') →
       Diagram.layout d' = Diagram.layout d
       ∧ Diagram.prevLayout d' = Diagram.prevLayout d
       ∧ match ev with
         | MouseMove _ _ =>
             Diagram.draggingNodeId d' = Diagram.draggingNodeId d
             ∧ Diagram.listeners d' = Diagram.listeners d
         | Render => d' = d
         | _ => Diagram.nodeOffsets d' = Diagram.nodeOffsets d
         end)
  ∧ (∀ (evs : list Event) (σ : Store) (d : Diagram.t),
       forallb isDragEvent evs = true → edgesAllocated σ d →
       ∃ σ' d', run evs (σ, d) = Some (σ', d')
         ∧ Diagram.layout d' = Diagram.layout d
         ∧ Diagram.prevLayout d' = Diagram.prevLayout d
         ∧ (∀ l v, σ !! l = Some v → σ' !! l = Some v)).
Proof.
  split; [|split].
  - apply adjustedPointsAt_spec.
  - apply step_writes.
  - apply run_drag.
Qed.

(** C8 at a press on a node, a move, a drawing pass and the release. *)
Lemma drag_keeps_base_layout_witness :
  forallb isDragEvent
    [NodeMouseDown 0 10 10 sampleNodeA 1; MouseMove 60 10; Render; MouseUp] = true
  ∧ edgesAllocated sampleStore sampleDiagram
  ∧ ∃ σ' d',
      run [NodeMouseDown 0 10 10 sampleNodeA 1; MouseMove 60 10; Render; MouseUp]
          (sampleStore, sampleDiagram) = Some (σ', d')
      ∧ Diagram.layout d' = Some sampleLayout
      ∧ σ' !! 1%positive = Some samplePolyline.
Proof.
  assert (edgesAllocated sampleStore sampleDiagram) as Halloc.
  { intros l edge Hl He. simpl in Hl. injection Hl as <-.
    apply elem_of_cons in He as [->|He]; [|by apply elem_of_nil in He].
    exists samplePolyline. reflexivity. }
  split; [reflexivity|]. split; [exact Halloc|].
  destruct (proj2 (proj2 drag_keeps_base_layout)
              [NodeMouseDown 0 10 10 sampleNodeA 1; MouseMove 60 10; Render; MouseUp]
              sampleStore sampleDiagram eq_refl Halloc)
    as (σ' & d' & Hrun & Hlay & _ & Hkeep).
  exists σ', d'. split; [exact Hrun|]. split; [exact Hlay|].
  apply Hkeep. reflexivity.
Defined.

(** ** Gestures *)

Section Gestures.

Local Open Scope Q_scope.

Lemma run_app (evs1 evs2 : list Event) (w : Store * Diagram.t) :
  run (evs1 ++ evs2) w = run evs1 w ≫= run evs2.
Proof.
  revert w. induction evs1 as [|ev evs1 IH]; intros w; simpl; [done|].
  destruct (step ev w) as [w'|]; simpl; [apply IH|done].
Qed.

Lemma run_moves (path : list (Q * Q)) (σ : Store) (d : Diagram.t) :
  run (moveEvents path) (σ, d)
  = Some (σ, foldl (λ d p, mouseMove p.1 p.2 d) d path).
Proof.
  revert d. induction path as [|p path IH]; intros d; simpl; [done|]. apply IH.
Qed.

Lemma moves_listeners (path : list (Q * Q)) (d : Diagram.t) :
  Diagram.listeners (foldl (λ d p, mouseMove p.1 p.2 d) d path) = Diagram.listeners d.
Proof.
  revert d. induction path as [|p path IH]; intros d; simpl; [done|].
  by rewrite IH.
Qed.

(** Without a registered listener a move does nothing. *)
Lemma mouseMove_idle x y (d : Diagram.t) :
  Diagram.listeners d = [] → mouseMove x y d = d.
Proof. intros H. unfold mouseMove. destruct d; simpl in *. by subst. Qed.

Lemma moves_idle (path : list (Q * Q)) (d : Diagram.t) :
  Diagram.listeners d = [] → foldl (λ d p, mouseMove p.1 p.2 d) d path = d.
Proof.
  intros H. induction path as [|p path IH]; simpl; [done|].
  by rewrite mouseMove_idle.
Qed.

(** A release removes every listener and keeps the displacement map. *)
Lemma mouseUp_released (d : Diagram.t) :
  Diagram.listeners (mouseUp d) = []
  ∧ Diagram.nodeOffsets (mouseUp d) = Diagram.nodeOffsets d.
Proof. unfold mouseUp. by destruct (Diagram.listeners d) eqn:E. Qed.

(** After a move, the entry of the node of the newest gesture is the
    displacement at the start of that gesture plus the pointer delta. *)
Lemma mouseMove_newest (d : Diagram.t) (ls : list Gesture.t) (g : Gesture.t) x y :
  Diagram.listeners d = ls ++ [g] →
  Diagram.nodeOffsets (mouseMove x y d) !! Gesture.nodeId g
  = Some (Offset.mk (Gesture.startDx g + (x - Gesture.startX g) / Gesture.scale g)
                    (Gesture.startDy g + (y - Gesture.startY g) / Gesture.scale g)).
Proof.
  intros Hls. unfold mouseMove. cbn [Diagram.nodeOffsets].
  rewrite Hls, foldl_app. cbn [foldl]. unfold onMouseMove at 1.
  by rewrite lookup_insert_eq.
Qed.

Lemma moves_newest (path : list (Q * Q)) x y (d : Diagram.t) ls (g : Gesture.t) :
  Diagram.listeners d = ls ++ [g] →
  Diagram.nodeOffsets (foldl (λ d p, mouseMove p.1 p.2 d) d (path ++ [(x, y)]))
    !! Gesture.nodeId g
  = Some (Offset.mk (Gesture.startDx g + (x - Gesture.startX g) / Gesture.scale g)
                    (Gesture.startDy g + (y - Gesture.startY g) / Gesture.scale g)).
Proof.
  intros Hls. rewrite foldl_app. cbn [foldl fst snd].
  apply (mouseMove_newest _ ls). by rewrite moves_listeners.
Qed.

(** One gesture: a press on [node] and a pointer path that ends at
    [(x, y)]. *)
Lemma gesture_spec (σ : Store) (d : Diagram.t) (node : LayoutNode.t)
    x0 y0 scale path x y :
  ∃ d', run (NodeMouseDown 0 x0 y0 node scale :: moveEvents (path ++ [(x, y)])) (σ, d)
        = Some (σ, d')
    ∧ Diagram.nodeOffsets d' !! LayoutNode.id node
      = Some (Offset.mk
                (offDx (Diagram.nodeOffsets d) (LayoutNode.id node) + (x - x0) / scale)
                (offDy (Diagram.nodeOffsets d) (LayoutNode.id node) + (y - y0) / scale))
    ∧ Diagram.listeners d' ≠ [].
Proof.
  cbn [run step]. cbn [mbind option_bind]. rewrite run_moves.
  eexists. split; [done|].
  unfold onNodeMouseDown. rewrite decide_False by (intros H; by apply H).
  split.
  - apply (moves_newest path x y _ (Diagram.listeners d)
             (Gesture.mk (LayoutNode.id node) x0 y0
                (offDx (Diagram.nodeOffsets d) (LayoutNode.id node))
                (offDy (Diagram.nodeOffsets d) (LayoutNode.id node)) scale)).
    reflexivity.
  - rewrite moves_listeners. cbn [Diagram.listeners]. by destruct (Diagram.listeners d).
Qed.

Lemma offDx_lookup (offs : gmap string Offset.t) id o :
  offs !! id = Some o → offDx offs id = Offset.dx o ∧ offDy offs id = Offset.dy o.
Proof. intros H. unfold offDx, offDy. by rewrite H. Qed.

End Gestures.

(** C9. When the [layout] prop receives a layout object other than the one
    seen last (a newly computed layout), the displacement map becomes
    empty.  Within one gesture (a press on a node and pointer moves, with a
    positive zoom factor) the displacement of the node is the displacement
    it had when the gesture began plus the pointer delta since the press,
    divided by the zoom factor.  After a release the displacement stays,
    wherever the pointer moves then; and after a new press on the same node
    the displacement goes on from the value the first gesture left. *)
Theorem offsets_reset_and_accumulate :
  (∀ (σ : Store) (d : Diagram.t) (l : LayoutObject.t),
     (∀ p, Diagram.prevLayout d = Some p → LayoutObject.ident p ≠ LayoutObject.ident l) →
     ∃ d', step (SetLayout (Some l)) (σ, d) = Some (σ, d')
           ∧ Diagram.nodeOffsets d' = ∅
           ∧ Diagram.layout d' = Some l)
  ∧ (∀ (σ : Store) (d : Diagram.t) (node : LayoutNode.t) x0 y0 scale path x y,
       (0 < scale)%Q →
       ∃ d', run (NodeMouseDown 0 x0 y0 node scale :: moveEvents (path ++ [(x, y)]))
                 (σ, d) = Some (σ, d')
             ∧ Diagram.nodeOffsets d' !! LayoutNode.id node
               = Some (Offset.mk
                         (offDx (Diagram.nodeOffsets d) (LayoutNode.id node)
                          + (x - x0) / scale)
                         (offDy (Diagram.nodeOffsets d) (LayoutNode.id node)
                          + (y - y0) / scale)))
  ∧ (∀ (σ : Store) (d : Diagram.t) (node : LayoutNode.t)
       x0 y0 scale path x y between x1 y1 scale' path' x' y',
       (0 < scale)%Q → (0 < scale')%Q →
       ∃ d1 d',
         run ((NodeMouseDown 0 x0 y0 node scale :: moveEvents (path ++ [(x, y)]))
              ++ MouseUp :: moveEvents between)
             (σ, d) = Some (σ, d1)
         ∧ Diagram.nodeOffsets d1 !! LayoutNode.id node
           = Some (Offset.mk
                     (offDx (Diagram.nodeOffsets d) (LayoutNode.id node)
                      + (x - x0) / scale)
                     (offDy (Diagram.nodeOffsets d) (LayoutNode.id node)
                      + (y - y0) / scale))
         ∧ run (((NodeMouseDown 0 x0 y0 node scale :: moveEvents (path ++ [(x, y)]))
                 ++ MouseUp :: moveEvents between)
                ++ NodeMouseDown 0 x1 y1 node scale' :: moveEvents (path' ++ [(x', y')]))
               (σ, d) = Some (σ, d')
         ∧ Diagram.nodeOffsets d' !! LayoutNode.id node
           = Some (Offset.mk
                     (offDx (Diagram.nodeOffsets d) (LayoutNode.id node)
                      + (x - x0) / scale + (x' - x1) / scale')
                     (offDy (Diagram.nodeOffsets d) (LayoutNode.id node)
                      + (y - y0) / scale + (y' - y1) / scale')))%Q.
Proof.
  split; [|split].
  - intros σ d l Hnew. cbn [step]. eexists. split; [done|].
    unfold setLayout.
    assert (differs (Some l) (Diagram.prevLayout d) = true) as ->.
    { unfold differs. destruct (Diagram.prevLayout d) as [p|]; [|done].
      apply negb_true_iff, bool_decide_eq_false. intros Heq. by apply (Hnew p). }
    done.
  - intros σ d node x0 y0 scale path x y _.
    destruct (gesture_spec σ d node x0 y0 scale path x y) as (d' & Hrun & Hoff & _).
    eauto.
  - intros σ d node x0 y0 scale path x y between x1 y1 scale' path' x' y' _ _.
    destruct (gesture_spec σ d node x0 y0 scale path x y) as (d0 & Hrun0 & Hoff0 & _).
    destruct (mouseUp_released d0) as [Hidle Hkeep].
    assert (run ((NodeMouseDown 0 x0 y0 node scale :: moveEvents (path ++ [(x, y)]))
                 ++ MouseUp :: moveEvents between) (σ, d)
            = Some (σ, mouseUp d0)) as Hrun1.
    { rewrite run_app, Hrun0. cbn [mbind option_bind].
      change (run (MouseUp :: ?evs) (σ, d0)) with (run evs (σ, mouseUp d0)).
      by rewrite run_moves, moves_idle. }
    destruct (gesture_spec σ (mouseUp d0) node x1 y1 scale' path' x' y')
      as (d2 & Hrun2 & Hoff2 & _).
    exists (mouseUp d0), d2. split; [exact Hrun1|].
    split; [by rewrite Hkeep|]. split.
    + rewrite run_app, Hrun1. cbn [mbind option_bind]. exact Hrun2.
    + rewrite Hoff2, Hkeep.
      destruct (offDx_lookup _ _ _ Hoff0) as [-> ->]. done.
Qed.

(** C9 at a new layout object, and at a drag of [public.A] by 50 pixels
    under a zoom factor of 2, released, the pointer moved on without a
    button, and the node taken up again. *)
Lemma offsets_reset_and_accumulate_witness :
  (∀ p, Diagram.prevLayout sampleDiagram = Some p →
        LayoutObject.ident p ≠ LayoutObject.ident sampleLayout2)
  ∧ (0 < 2)%Q
  ∧ (∃ d', step (SetLayout (Some sampleLayout2)) (sampleStore, sampleDiagram)
           = Some (sampleStore, d')
           ∧ Diagram.nodeOffsets d' = ∅)
  ∧ (∃ d1 d',
       run ((NodeMouseDown 0 10 10 sampleNodeA 2 :: moveEvents ([(30, 10)] ++ [(60, 10)]))
            ++ MouseUp :: moveEvents [(150, 40); (200, 80)])
           (sampleStore, sampleDiagram) = Some (sampleStore, d1)
       ∧ Diagram.nodeOffsets d1 !! "public.A"
         = Some (Offset.mk (0 + (60 - 10) / 2) (0 + (10 - 10) / 2))
       ∧ run (((NodeMouseDown 0 10 10 sampleNodeA 2
                :: moveEvents ([(30, 10)] ++ [(60, 10)]))
               ++ MouseUp :: moveEvents [(150, 40); (200, 80)])
              ++ NodeMouseDown 0 200 80 sampleNodeA 2 :: moveEvents ([] ++ [(220, 90)]))
             (sampleStore, sampleDiagram) = Some (sampleStore, d')
       ∧ Diagram.nodeOffsets d' !! "public.A"
         = Some (Offset.mk (0 + (60 - 10) / 2 + (220 - 200) / 2)
                           (0 + (10 - 10) / 2 + (90 - 80) / 2)))%Q.
Proof.
  assert (∀ p, Diagram.prevLayout sampleDiagram = Some p →
               LayoutObject.ident p ≠ LayoutObject.ident sampleLayout2) as Hnew.
  { intros p Hp. simpl in Hp. injection Hp as <-. simpl. discriminate. }
  assert (0 < 2)%Q as Hscale by reflexivity.
  split; [exact Hnew|]. split; [exact Hscale|]. split.
  - destruct (proj1 offsets_reset_and_accumulate sampleStore sampleDiagram sampleLayout2 Hnew)
      as (d' & Hstep & Hoff & _).
    exists d'. split; [exact Hstep | exact Hoff].
  - exact (proj2 (proj2 offsets_reset_and_accumulate) sampleStore sampleDiagram sampleNodeA
             10%Q 10%Q 2%Q [(30%Q, 10%Q)] 60%Q 10%Q [(150%Q, 40%Q); (200%Q, 80%Q)]
             200%Q 80%Q 2%Q [] 220%Q 90%Q Hscale Hscale).
Defined.

(** * Further properties *)

(** ** [adjustedPoints]: ends, length, locality *)

Section Ends.

Local Open Scope Q_scope.

Lemma allVertical_cons h segH : allVertical (h :: segH) = negb h && allVertical segH.
Proof. done. Qed.

Lemma allHorizontal_cons h segH : allHorizontal (h :: segH) = h && allHorizontal segH.
Proof. done. Qed.

(** The backward propagation in closed form: [dx] reaches point [j] when
    every segment after it is vertical, [dy] when every one is horizontal. *)
Lemma bwdBack_closed segH off d :
  (d ≤ length segH)%nat →
  bwdBack segH off (length segH) d
  = Offset.mk
      (if allVertical (drop (length segH - d) segH) then Offset.dx off else 0)
      (if allHorizontal (drop (length segH - d) segH) then Offset.dy off else 0).
Proof.
  induction d as [|d IH]; intros Hd.
  - rewrite Nat.sub_0_r, drop_all. by destruct off.
  - cbn [bwdBack]. rewrite IH by lia.
    destruct (lookup_lt_is_Some_2 segH (length segH - S d)) as [h Hh]; [lia|].
    rewrite Hh. rewrite (drop_S _ _ _ Hh).
    replace (S (length segH - S d)) with (length segH - d)%nat by lia.
    rewrite allVertical_cons, allHorizontal_cons.
    destruct h; cbn [truthy carry Offset.dx Offset.dy negb andb]; done.
Qed.

Lemma bwdAt_closed segH off j :
  (j ≤ length segH)%nat →
  bwdAt segH off (length segH) j
  = Offset.mk (if allVertical (drop j segH) then Offset.dx off else 0)
              (if allHorizontal (drop j segH) then Offset.dy off else 0).
Proof.
  intros Hj. unfold bwdAt. rewrite bwdBack_closed by lia.
  by replace (length segH - (length segH - j))%nat with j by lia.
Qed.

Lemma offset_zero_of_noDisplacement fromOff toOff :
  noDisplacement fromOff toOff = true →
  Offset.dx fromOff == 0 ∧ Offset.dy fromOff == 0
  ∧ Offset.dx toOff == 0 ∧ Offset.dy toOff == 0.
Proof. rewrite noDisplacement_true. tauto. Qed.

End Ends.

(** X1. Where the ends of a re-routed polyline of three points or more go.
    The first point moves by the displacement of the source node, plus the
    x-part of the displacement of the target node when every segment is
    vertical, plus its y-part when every segment is horizontal; the last
    point moves likewise with the two nodes exchanged.  So on a polyline
    that has a horizontal and a vertical segment both ends move exactly with
    their own node. *)
Theorem adjustedPoints_ends (nodeOffsets : gmap string Offset.t) (edge : Edge)
    (p0 pl : Point.t) :
  3 ≤ length (LayoutEdge.points edge) →
  LayoutEdge.points edge !! 0 = Some p0 →
  LayoutEdge.points edge !! (length (LayoutEdge.points edge) - 1) = Some pl →
  ∃ r q0 ql,
    adjustedPoints nodeOffsets edge = Some r
    ∧ r !! 0 = Some q0
    ∧ r !! (length (LayoutEdge.points edge) - 1) = Some ql
    ∧ (Point.x q0 == Point.x p0 + Offset.dx (fromOffset nodeOffsets edge)
         + (if allVertical (segments (LayoutEdge.points edge))
            then Offset.dx (toOffset nodeOffsets edge) else 0))%Q
    ∧ (Point.y q0 == Point.y p0 + Offset.dy (fromOffset nodeOffsets edge)
         + (if allHorizontal (segments (LayoutEdge.points edge))
            then Offset.dy (toOffset nodeOffsets edge) else 0))%Q
    ∧ (Point.x ql == Point.x pl + Offset.dx (toOffset nodeOffsets edge)
         + (if allVertical (segments (LayoutEdge.points edge))
            then Offset.dx (fromOffset nodeOffsets edge) else 0))%Q
    ∧ (Point.y ql == Point.y pl + Offset.dy (toOffset nodeOffsets edge)
         + (if allHorizontal (segments (LayoutEdge.points edge))
            then Offset.dy (fromOffset nodeOffsets edge) else 0))%Q
    ∧ (allVertical (segments (LayoutEdge.points edge)) = false →
       allHorizontal (segments (LayoutEdge.points edge)) = false →
       (Point.x q0 == Point.x (shift p0 (fromOffset nodeOffsets edge)))%Q
       ∧ (Point.y q0 == Point.y (shift p0 (fromOffset nodeOffsets edge)))%Q
       ∧ (Point.x ql == Point.x (shift pl (toOffset nodeOffsets edge)))%Q
       ∧ (Point.y ql == Point.y (shift pl (toOffset nodeOffsets edge)))%Q).
Proof.
  intros Hn Hp0 Hpl. rewrite adjustedPoints_unfold.
  set (pts := LayoutEdge.points edge) in *.
  set (fo := fromOffset nodeOffsets edge). set (to := toOffset nodeOffsets edge).
  assert (length (segments pts) = length pts - 1) as Hlen by apply segments_length.
  destruct (noDisplacement fo to) eqn:Hnd.
  - apply offset_zero_of_noDisplacement in Hnd as (Hfx & Hfy & Htx & Hty).
    exists pts, p0, pl. split; [done|]. split; [done|]. split; [done|].
    cbn [shift Point.x Point.y].
    destruct (allVertical (segments pts)), (allHorizontal (segments pts));
      rewrite ?Hfx, ?Hfy, ?Htx, ?Hty;
      (repeat split; try intros; try ring; try done).
  - rewrite reroute_general by done.
    eexists _, _, _. split; [done|].
    rewrite !list_lookup_imap, Hp0, Hpl. cbn [fmap option_fmap option_map].
    split; [done|]. split; [done|].
    unfold movedPoint. cbn [Point.x Point.y shift].
    rewrite <- Hlen.
    rewrite (fwdAt_closed _ _ (length (segments pts))) by lia.
    rewrite (bwdAt_closed _ _ 0) by lia.
    rewrite (bwdAt_closed _ _ (length (segments pts))) by lia.
    rewrite firstn_all, drop_all, drop_0. cbn [fwdAt Offset.dx Offset.dy].
    change (allVertical []) with true. change (allHorizontal []) with true.
    cbn iota.
    destruct (allVertical (segments pts)), (allHorizontal (segments pts));
      (repeat split; try intros; try ring; try done).
Qed.

(** The ends of a polyline with two corners, both nodes dragged. *)
Lemma adjustedPoints_ends_witness :
  3 ≤ length (LayoutEdge.points (sampleEdge samplePolyline))
  ∧ LayoutEdge.points (sampleEdge samplePolyline) !! 0 = Some (samplePoint 0 0)
  ∧ LayoutEdge.points (sampleEdge samplePolyline)
      !! (length (LayoutEdge.points (sampleEdge samplePolyline)) - 1)
    = Some (samplePoint 40 30)
  ∧ ∃ r q0 ql,
      adjustedPoints sampleDragAB (sampleEdge samplePolyline) = Some r
      ∧ r !! 0 = Some q0
      ∧ r !! (length (LayoutEdge.points (sampleEdge samplePolyline)) - 1) = Some ql.
Proof.
  assert (3 ≤ length (LayoutEdge.points (sampleEdge samplePolyline))) as H1
    by (simpl; lia).
  split; [exact H1|]. split; [reflexivity|]. split; [reflexivity|].
  destruct (adjustedPoints_ends sampleDragAB (sampleEdge samplePolyline)
              (samplePoint 0 0) (samplePoint 40 30) H1 eq_refl eq_refl)
    as (r & q0 & ql & Hr & H0 & Hl & _).
  exists r, q0, ql. split; [exact Hr|]. split; [exact H0 | exact Hl].
Defined.

(** X2. The number of points [adjustedPoints] returns: four for a base
    polyline of two points with a displaced end, as many as the base
    polyline in every other case.  So the result has two points or more
    exactly when the base polyline has. *)
Theorem adjustedPoints_length (nodeOffsets : gmap string Offset.t) (edge : Edge) :
  ∃ r, adjustedPoints nodeOffsets edge = Some r
    ∧ length r
      = (if decide (length (LayoutEdge.points edge) = 2) then
           if noDisplacement (fromOffset nodeOffsets edge) (toOffset nodeOffsets edge)
           then 2 else 4
         else length (LayoutEdge.points edge))
    ∧ (2 ≤ length r ↔ 2 ≤ length (LayoutEdge.points edge)).
Proof.
  cut (∃ r, adjustedPoints nodeOffsets edge = Some r
         ∧ length r
           = (if decide (length (LayoutEdge.points edge) = 2) then
                if noDisplacement (fromOffset nodeOffsets edge)
                                  (toOffset nodeOffsets edge)
                then 2 else 4
              else length (LayoutEdge.points edge))).
  { intros (r & Hr & Hl). exists r. split; [done|]. split; [done|].
    rewrite Hl. destruct (decide _) as [->|]; [|done].
    destruct (noDisplacement _ _); lia. }
  rewrite adjustedPoints_unfold.
  set (pts := LayoutEdge.points edge).
  destruct (noDisplacement _ _) eqn:Hnd.
  - exists pts. split; [done|]. by destruct (decide _).
  - destruct (decide (3 ≤ length pts)) as [H3|H3].
    + rewrite reroute_general by done. eexists. split; [done|].
      rewrite length_imap. by rewrite decide_False by lia.
    + unfold reroute.
      destruct pts as [|a [|b [|c rest]]] eqn:Hpts; simpl in H3; try lia.
      * by exists [].
      * eexists. split; [done|]. done.
      * simpl. destruct (isHoriz a b); eexists; (split; [done|]); done.
Qed.

(** ** Gestures: what a drag leaves alone *)

Section GestureFrame.

Local Open Scope Q_scope.

Lemma moves_prevLayout (path : list (Q * Q)) (d : Diagram.t) :
  Diagram.prevLayout (foldl (λ d p, mouseMove p.1 p.2 d) d path) = Diagram.prevLayout d.
Proof.
  revert d. induction path as [|p path IH]; intros d; simpl; [done|]. by rewrite IH.
Qed.

(** With one gesture registered, a move writes only the entry of its node. *)
Lemma mouseMove_one x y (d : Diagram.t) (g : Gesture.t) k :
  Diagram.listeners d = [g] → k ≠ Gesture.nodeId g →
  Diagram.nodeOffsets (mouseMove x y d) !! k = Diagram.nodeOffsets d !! k.
Proof.
  intros H Hk. unfold mouseMove. rewrite H. cbn [Diagram.nodeOffsets foldl].
  unfold onMouseMove. by rewrite lookup_insert_ne.
Qed.

Lemma moves_one (path : list (Q * Q)) (d : Diagram.t) (g : Gesture.t) k :
  Diagram.listeners d = [g] → k ≠ Gesture.nodeId g →
  Diagram.nodeOffsets (foldl (λ d p, mouseMove p.1 p.2 d) d path) !! k
  = Diagram.nodeOffsets d !! k.
Proof.
  revert d. induction path as [|p path IH]; intros d H Hk; simpl; [done|].
  rewrite IH; [by apply (mouseMove_one _ _ _ g) | done | done].
Qed.

(** [adjustedPoints] reads the displacement map at the two ends of the edge
    only. *)
Lemma adjustedPoints_local (offs offs' : gmap string Offset.t) (edge : Edge) :
  offs !! (edgeNodeIds edge).1 = offs' !! (edgeNodeIds edge).1 →
  offs !! (edgeNodeIds edge).2 = offs' !! (edgeNodeIds edge).2 →
  adjustedPoints offs edge = adjustedPoints offs' edge.
Proof.
  intros H1 H2. rewrite !adjustedPoints_unfold.
  unfold fromOffset, toOffset, offsetOf. by rewrite H1, H2.
Qed.

Lemma nodeX_local (offs offs' : gmap string Offset.t) (node : LayoutNode.t) :
  offs !! LayoutNode.id node = offs' !! LayoutNode.id node →
  nodeX offs node = nodeX offs' node ∧ nodeY offs node = nodeY offs' node.
Proof. intros H. unfold nodeX, nodeY, offDx, offDy. by rewrite H. Qed.

Lemma drag_others (σ : Store) (d : Diagram.t) (node : LayoutNode.t)
    (button : Z) (x0 y0 scale : Q) (path : list (Q * Q)) :
  Diagram.listeners d = [] →
  ∃ d', run (NodeMouseDown button x0 y0 node scale :: moveEvents path) (σ, d)
        = Some (σ, d')
    ∧ ∀ k, k ≠ LayoutNode.id node →
           Diagram.nodeOffsets d' !! k = Diagram.nodeOffsets d !! k.
Proof.
  intros Hidle. cbn [run step]. cbn [mbind option_bind]. rewrite run_moves.
  eexists. split; [done|].
  intros k Hk. unfold onNodeMouseDown. destruct (decide (button ≠ 0%Z)).
  - by rewrite moves_idle.
  - rewrite Hidle. cbn [app].
    erewrite moves_one; [done| reflexivity | done].
Qed.

End GestureFrame.

(** X3. A drag moves one node.  When no gesture is under way, a press on a
    node followed by any pointer path leaves the displacement of every
    other node as it was: the rendered position of every other node is
    unchanged, and so is the polyline of every edge that does not touch the
    pressed node. *)
Theorem drag_moves_one_node (σ : Store) (d : Diagram.t) (node : LayoutNode.t)
    (button : Z) (x0 y0 scale : Q) (path : list (Q * Q)) :
  Diagram.listeners d = [] →
  ∃ d', run (NodeMouseDown button x0 y0 node scale :: moveEvents path) (σ, d)
        = Some (σ, d')
    ∧ (∀ k, k ≠ LayoutNode.id node →
         Diagram.nodeOffsets d' !! k = Diagram.nodeOffsets d !! k)
    ∧ (∀ other, LayoutNode.id other ≠ LayoutNode.id node →
         nodeX (Diagram.nodeOffsets d') other = nodeX (Diagram.nodeOffsets d) other
         ∧ nodeY (Diagram.nodeOffsets d') other = nodeY (Diagram.nodeOffsets d) other)
    ∧ (∀ edge : Edge,
         (edgeNodeIds edge).1 ≠ LayoutNode.id node →
         (edgeNodeIds edge).2 ≠ LayoutNode.id node →
         adjustedPoints (Diagram.nodeOffsets d') edge
         = adjustedPoints (Diagram.nodeOffsets d) edge).
Proof.
  intros Hidle.
  destruct (drag_others σ d node button x0 y0 scale path Hidle) as (d' & Hrun & Hother).
  exists d'. split; [done|]. split; [done|]. split.
  - intros other Hne. apply nodeX_local. by apply Hother.
  - intros edge H1 H2. apply adjustedPoints_local; by apply Hother.
Qed.

(** A drag of [public.A] in the sample diagram. *)
Lemma drag_moves_one_node_witness :
  Diagram.listeners sampleDiagram = []
  ∧ ∃ d', run (NodeMouseDown 0 10 10 sampleNodeA 1 :: moveEvents [(60, 10)%Q])
              (sampleStore, sampleDiagram) = Some (sampleStore, d')
          ∧ nodeX (Diagram.nodeOffsets d') sampleNodeB
            = nodeX (Diagram.nodeOffsets sampleDiagram) sampleNodeB.
Proof.
  split; [reflexivity|].
  destruct (drag_moves_one_node sampleStore sampleDiagram sampleNodeA 0 10 10 1
              [(60, 10)%Q] eq_refl) as (d' & Hrun & _ & Hnodes & _).
  exists d'. split; [exact Hrun|].
  apply (Hnodes sampleNodeB). simpl. discriminate.
Defined.

(** X4. What the handlers ignore.  After a release no pointer move changes
    the displacement map any more, whatever gestures were under way, and
    [draggingNodeId] is cleared when one was.  A press with a button other
    than the left one starts no gesture: from rest, such a press and any
    pointer path leave the whole state as it was. *)
Theorem release_and_other_buttons (σ : Store) (d : Diagram.t) (path : list (Q * Q)) :
  (∃ d', run (MouseUp :: moveEvents path) (σ, d) = Some (σ, d')
         ∧ Diagram.nodeOffsets d' = Diagram.nodeOffsets d
         ∧ Diagram.listeners d' = []
         ∧ (Diagram.listeners d ≠ [] → Diagram.draggingNodeId d' = None))
  ∧ (∀ (button : Z) (x0 y0 scale : Q) (node : LayoutNode.t),
       button ≠ 0%Z → Diagram.listeners d = [] →
       run (NodeMouseDown button x0 y0 node scale :: moveEvents path) (σ, d)
       = Some (σ, d)).
Proof.
  split.
  - cbn [run step]. cbn [mbind option_bind]. rewrite run_moves.
    assert (Diagram.listeners (mouseUp d) = []) as Hup.
    { unfold mouseUp. by destruct (Diagram.listeners d) eqn:E. }
    rewrite moves_idle by done. eexists. split; [done|].
    split; [|split; [done|]].
    + unfold mouseUp. by destruct (Diagram.listeners d).
    + intros Hne. unfold mouseUp. by destruct (Diagram.listeners d).
  - intros button x0 y0 scale node Hb Hidle.
    cbn [run step]. cbn [mbind option_bind]. rewrite run_moves.
    unfold onNodeMouseDown. rewrite decide_True by done.
    by rewrite moves_idle.
Qed.

(** A right-button press on [public.A] in the sample diagram. *)
Lemma release_and_other_buttons_witness :
  (2 ≠ 0)%Z ∧ Diagram.listeners sampleDiagram = []
  ∧ run (NodeMouseDown 2 10 10 sampleNodeA 1 :: moveEvents [(60, 10)%Q])
        (sampleStore, sampleDiagram)
    = Some (sampleStore, sampleDiagram).
Proof.
  assert (2 ≠ 0)%Z as Hb by discriminate.
  split; [exact Hb|]. split; [reflexivity|].
  exact (proj2 (release_and_other_buttons sampleStore sampleDiagram [(60, 10)%Q])
           2%Z 10%Q 10%Q 1%Q sampleNodeA Hb eq_refl).
Defined.

(** X5. Back to the start.  When no gesture is under way and the zoom factor
    is positive, a press on a node, any pointer path and a last move back to
    the point of the press leave the node where it was drawn before; if
    the node carried no displacement before, an edge whose two ends carried
    none gets its base polyline. *)
Theorem drag_back_to_start (σ : Store) (d : Diagram.t) (node : LayoutNode.t)
    (x0 y0 scale : Q) (path : list (Q * Q)) :
  Diagram.listeners d = [] → (0 < scale)%Q →
  ∃ d', run (NodeMouseDown 0 x0 y0 node scale :: moveEvents (path ++ [(x0, y0)]))
            (σ, d) = Some (σ, d')
    ∧ (nodeX (Diagram.nodeOffsets d') node == nodeX (Diagram.nodeOffsets d) node)%Q
    ∧ (nodeY (Diagram.nodeOffsets d') node == nodeY (Diagram.nodeOffsets d) node)%Q
    ∧ (∀ edge : Edge,
         undisplaced (Diagram.nodeOffsets d) (edgeNodeIds edge).1 →
         undisplaced (Diagram.nodeOffsets d) (edgeNodeIds edge).2 →
         adjustedPoints (Diagram.nodeOffsets d') edge = Some (LayoutEdge.points edge)).
Proof.
  intros Hidle Hscale.
  destruct (drag_others σ d node 0 x0 y0 scale (path ++ [(x0, y0)]) Hidle)
    as (d' & Hrun & Hother).
  destruct (gesture_spec σ d node x0 y0 scale path x0 y0) as (d2 & Hrun2 & Hoff & _).
  rewrite Hrun in Hrun2. injection Hrun2 as <-.
  exists d'. split; [done|].
  assert (∀ a b : Q, a + (b - b) / scale == a)%Q as Hzero.
  { intros a b. unfold Qdiv. ring. }
  split; [|split].
  - unfold nodeX. unfold offDx at 1. rewrite Hoff. cbn [Offset.dx].
    rewrite Hzero. reflexivity.
  - unfold nodeY. unfold offDy at 1. rewrite Hoff. cbn [Offset.dy].
    rewrite Hzero. reflexivity.
  - assert (∀ k, undisplaced (Diagram.nodeOffsets d) k →
                 undisplaced (Diagram.nodeOffsets d') k) as Hund.
    { intros k Hk. destruct (decide (k = LayoutNode.id node)) as [->|Hne].
      - unfold undisplaced in *. rewrite Hoff. cbn [Offset.dx Offset.dy].
        rewrite !Hzero. unfold offDx, offDy.
        destruct (Diagram.nodeOffsets d !! LayoutNode.id node); [done|].
        split; reflexivity.
      - unfold undisplaced. by rewrite Hother. }
    intros edge H1 H2. apply adjustedPoints_base; by apply Hund.
Qed.

(** A drag of [public.A] to the right and back. *)
Lemma drag_back_to_start_witness :
  Diagram.listeners sampleDiagram = [] ∧ (0 < 2)%Q
  ∧ ∃ d', run (NodeMouseDown 0 10 10 sampleNodeA 2
               :: moveEvents ([(60, 40)%Q] ++ [(10, 10)%Q]))
              (sampleStore, sampleDiagram) = Some (sampleStore, d')
          ∧ adjustedPoints (Diagram.nodeOffsets d') (sampleEdge samplePolyline)
            = Some samplePolyline.
Proof.
  assert (0 < 2)%Q as Hs by reflexivity.
  split; [reflexivity|]. split; [exact Hs|].
  destruct (drag_back_to_start sampleStore sampleDiagram sampleNodeA 10 10 2
              [(60, 40)%Q] eq_refl Hs) as (d' & Hrun & _ & _ & Hedge).
  exists d'. split; [exact Hrun|].
  apply (Hedge (sampleEdge samplePolyline)); vm_compute; exact I.
Defined.

(** X6. The same layout again.  Assigning to the [layout] prop the object
    the effect saw last, or [null], keeps the displacement map; and after
    any assignment of a layout object, that object is the one seen last.
    So a drag made after a layout arrived survives a new assignment of the
    same object. *)
Theorem same_layout_keeps_offsets (d : Diagram.t) (l : LayoutObject.t) :
  (∀ p, Diagram.prevLayout d = Some p →
        LayoutObject.ident p = LayoutObject.ident l →
        Diagram.nodeOffsets (setLayout (Some l) d) = Diagram.nodeOffsets d
        ∧ Diagram.prevLayout (setLayout (Some l) d) = Diagram.prevLayout d)
  ∧ Diagram.nodeOffsets (setLayout None d) = Diagram.nodeOffsets d
  ∧ Diagram.prevLayout (setLayout None d) = Diagram.prevLayout d
  ∧ (∃ p, Diagram.prevLayout (setLayout (Some l) d) = Some p
          ∧ LayoutObject.ident p = LayoutObject.ident l)
  ∧ (∀ (σ : Store) (node : LayoutNode.t) x0 y0 scale path x y,
       ∃ d', run (SetLayout (Some l)
                  :: (NodeMouseDown 0 x0 y0 node scale :: moveEvents (path ++ [(x, y)]))
                  ++ [SetLayout (Some l); SetLayout None])
                 (σ, d) = Some (σ, d')
             ∧ Diagram.nodeOffsets d' !! LayoutNode.id node
               = Some (Offset.mk
                         (offDx (Diagram.nodeOffsets (setLayout (Some l) d))
                                (LayoutNode.id node) + (x - x0) / scale)
                         (offDy (Diagram.nodeOffsets (setLayout (Some l) d))
                                (LayoutNode.id node) + (y - y0) / scale))%Q).
Proof.
  assert (∀ d0 p, Diagram.prevLayout d0 = Some p →
            LayoutObject.ident p = LayoutObject.ident l →
            Diagram.nodeOffsets (setLayout (Some l) d0) = Diagram.nodeOffsets d0
            ∧ Diagram.prevLayout (setLayout (Some l) d0) = Diagram.prevLayout d0) as Hsame.
  { intros d0 p Hp Hid. unfold setLayout, differs. rewrite Hp.
    rewrite bool_decide_eq_true_2 by done. done. }
  assert (∀ d0, ∃ p, Diagram.prevLayout (setLayout (Some l) d0) = Some p
                     ∧ LayoutObject.ident p = LayoutObject.ident l) as Hprev.
  { intros d0. unfold setLayout, differs.
    destruct (Diagram.prevLayout d0) as [p|] eqn:Hp; [|by exists l].
    destruct (bool_decide _) eqn:Hb; simpl.
    - exists p. split; [done|]. by apply bool_decide_eq_true in Hb.
    - by exists l. }
  split; [by apply Hsame|]. split; [done|]. split; [done|]. split; [apply Hprev|].
  intros σ node x0 y0 scale path x y.
  change (run (SetLayout (Some l) :: ?evs) (σ, d))
    with (run evs (σ, setLayout (Some l) d)).
  destruct (gesture_spec σ (setLayout (Some l) d) node x0 y0 scale path x y)
    as (d1 & Hrun & Hoff & _).
  rewrite run_app, Hrun. cbn [mbind option_bind run step].
  eexists. split; [done|].
  assert (Diagram.prevLayout d1 = Diagram.prevLayout (setLayout (Some l) d)) as Hp1.
  { cbn [run step] in Hrun. cbn [mbind option_bind] in Hrun.
    rewrite run_moves in Hrun. injection Hrun as <-.
    rewrite moves_prevLayout. unfold onNodeMouseDown. by destruct (decide _). }
  destruct (Hprev d) as (p & Hp & Hid). rewrite <- Hp1 in Hp.
  destruct (Hsame d1 p Hp Hid) as [Ho _].
  change (Diagram.nodeOffsets (setLayout None ?d0)) with (Diagram.nodeOffsets d0).
  rewrite Ho. done.
Qed.

(** The sample layout assigned again after a drag. *)
Lemma same_layout_keeps_offsets_witness :
  Diagram.prevLayout sampleDiagram = Some sampleLayout
  ∧ LayoutObject.ident sampleLayout = LayoutObject.ident sampleLayout
  ∧ Diagram.nodeOffsets (setLayout (Some sampleLayout) sampleDiagram)
    = Diagram.nodeOffsets sampleDiagram.
Proof.
  split; [reflexivity|]. split; [reflexivity|].
  exact (proj1 (proj1 (same_layout_keeps_offsets sampleDiagram sampleLayout)
                  sampleLayout eq_refl eq_refl)).
Defined.

(** ** [fitToContent] *)

Section Fit.

Local Open Scope Q_scope.

Lemma num_min_le_l a b : num_min a b <= a.
Proof.
  unfold num_min. destruct (Qle_bool a b) eqn:E; [apply Qle_refl|].
  apply Qlt_le_weak, Qnot_le_lt. intros H. apply Qle_bool_iff in H. congruence.
Qed.

Lemma num_min_le_r a b : num_min a b <= b.
Proof.
  unfold num_min. destruct (Qle_bool a b) eqn:E; [by apply Qle_bool_iff|].
  apply Qle_refl.
Qed.

Lemma num_min_glb a b c : c <= a → c <= b → c <= num_min a b.
Proof. intros Ha Hb. unfold num_min. by destruct (Qle_bool a b). Qed.

Lemma min3_le a b c : min3 a b c <= a ∧ min3 a b c <= b ∧ min3 a b c <= c.
Proof.
  unfold min3. repeat split.
  - eapply Qle_trans; [apply num_min_le_l|apply num_min_le_l].
  - eapply Qle_trans; [apply num_min_le_l|apply num_min_le_r].
  - apply num_min_le_r.
Qed.

Lemma min3_glb a b c m : m <= a → m <= b → m <= c → m <= min3 a b c.
Proof. intros. unfold min3. by repeat apply num_min_glb. Qed.

Lemma min3_one a b : 1 <= a → 1 <= b → min3 a b 1 == 1.
Proof.
  intros Ha Hb. apply Qle_antisym.
  - apply (min3_le a b 1).
  - apply min3_glb; [done|done|apply Qle_refl].
Qed.

Lemma one_le_div a w : 0 < w → w <= a → 1 <= a / w.
Proof. intros Hw Ha. apply Qle_shift_div_l; [done|]. lra. Qed.

End Fit.

(** X7. [fitToContent].  On a bounding box without width or without height
    nothing is done.  Otherwise the zoom factor of the transform is at most
    1: the diagram is never magnified.  For a box of positive width and
    height, the factor is not negative when the viewport is at least twice
    the padding wide and high, and it is exactly 1 when the box with the
    padding on both sides fits the viewport: a diagram that fits is not
    scaled.  Every part rests on the order of the numbers only, which the
    rounded subtraction and division of the code keep. *)
Theorem fitToContent_factor (svgWidth svgHeight : Q) (box : BBox.t) (padding : Q) :
  ((BBox.width box == 0 ∨ BBox.height box == 0)%Q →
   fitToContent svgWidth svgHeight box padding = None)
  ∧ (¬ (BBox.width box == 0)%Q → ¬ (BBox.height box == 0)%Q →
     ∃ t, fitToContent svgWidth svgHeight box padding = Some t
       ∧ (Transform.k t <= 1)%Q
       ∧ ((0 < BBox.width box)%Q → (0 < BBox.height box)%Q →
          (padding * 2 <= svgWidth)%Q → (padding * 2 <= svgHeight)%Q →
          (0 <= Transform.k t)%Q)
       ∧ ((0 < BBox.width box)%Q → (0 < BBox.height box)%Q →
          (BBox.width box <= svgWidth - padding * 2)%Q →
          (BBox.height box <= svgHeight - padding * 2)%Q →
          (Transform.k t == 1)%Q)).
Proof.
  unfold fitToContent. split.
  - intros [H|H]; apply num_eqb_true in H; rewrite H; [done|by rewrite orb_true_r].
  - intros Hw Hh.
    destruct (num_eqb (BBox.width box) 0) eqn:Ew; [by apply num_eqb_true in Ew|].
    destruct (num_eqb (BBox.height box) 0) eqn:Eh; [by apply num_eqb_true in Eh|].
    cbn [orb]. eexists. split; [done|]. cbn [Transform.k].
    split; [apply min3_le|]. split.
    + intros Hwpos Hhpos Hpw Hph. apply min3_glb; [| |done].
      * apply Qle_shift_div_l; [done|]. lra.
      * apply Qle_shift_div_l; [done|]. lra.
    + intros Hwpos Hhpos Hfw Hfh. apply min3_one; by apply one_le_div.
Qed.

(** [sampleBox] does not fit a viewport of 800 by 600 and is scaled down;
    [sampleSmallBox] fits and keeps the factor 1. *)
Lemma fitToContent_factor_witness :
  ¬ (BBox.width sampleSmallBox == 0)%Q ∧ ¬ (BBox.height sampleSmallBox == 0)%Q
  ∧ (0 < BBox.width sampleSmallBox)%Q ∧ (0 < BBox.height sampleSmallBox)%Q
  ∧ (BBox.width sampleSmallBox <= 800 - 40 * 2)%Q
  ∧ (BBox.height sampleSmallBox <= 600 - 40 * 2)%Q
  ∧ (∃ t, fitToContent 800 600 sampleSmallBox 40 = Some t ∧ (Transform.k t == 1)%Q)
  ∧ (∃ t, fitToContent 800 600 sampleBox 40 = Some t ∧ (Transform.k t <= 1)%Q).
Proof.
  assert (¬ (BBox.width sampleSmallBox == 0)%Q) as H1
    by (intros H; vm_compute in H; discriminate H).
  assert (¬ (BBox.height sampleSmallBox == 0)%Q) as H2
    by (intros H; vm_compute in H; discriminate H).
  assert (0 < BBox.width sampleSmallBox)%Q as H3 by reflexivity.
  assert (0 < BBox.height sampleSmallBox)%Q as H4 by reflexivity.
  assert (BBox.width sampleSmallBox <= 800 - 40 * 2)%Q as H5 by (vm_compute; discriminate).
  assert (BBox.height sampleSmallBox <= 600 - 40 * 2)%Q as H6 by (vm_compute; discriminate).
  assert (¬ (BBox.width sampleBox == 0)%Q) as H7
    by (intros H; vm_compute in H; discriminate H).
  assert (¬ (BBox.height sampleBox == 0)%Q) as H8
    by (intros H; vm_compute in H; discriminate H).
  split; [exact H1|]. split; [exact H2|]. split; [exact H3|]. split; [exact H4|].
  split; [exact H5|]. split; [exact H6|]. split.
  - destruct (proj2 (fitToContent_factor 800 600 sampleSmallBox 40) H1 H2)
      as (t & Ht & _ & _ & Hone).
    exists t. split; [exact Ht|]. exact (Hone H3 H4 H5 H6).
  - destruct (proj2 (fitToContent_factor 800 600 sampleBox 40) H7 H8)
      as (t & Ht & Hle & _).
    exists t. split; [exact Ht|exact Hle].
Defined.

(** ** [wrapNoteText] *)

Section Wrap.

Local Open Scope Z_scope.

Lemma strlen_append a b : strlen (a +:+ b) = strlen a + strlen b.
Proof.
  unfold strlen. induction a as [|c a IH]; [done|].
  change (String c a +:+ b) with (String c (a +:+ b)).
  cbn [String.length]. rewrite !Nat2Z.inj_succ. lia.
Qed.

Lemma append_assoc (a b c : string) : (a +:+ b) +:+ c = a +:+ (b +:+ c).
Proof.
  induction a as [|x a IH]; [done|].
  change (String x ((a +:+ b) +:+ c) = String x (a +:+ (b +:+ c))). by f_equal.
Qed.

Lemma nonempty_spec s : nonempty s = true ↔ s ≠ "".
Proof. by destruct s. Qed.

Lemma wrapNoteText_unfold note tableWidth :
  wrapNoteText note tableWidth
  = let '(lines, current) :=
      foldl (wrapStep (charsPerLine tableWidth)) ([], "") (noteWords note) in
    let lines := if nonempty current then lines ++ [current] else lines in
    if decide (0 < length lines)%nat then lines else [""].
Proof. reflexivity. Qed.

Lemma wrap_loop_fits cpl (words ws : list string) lines current :
  1 ≤ cpl → ws ⊆ words →
  Forall (fitsOrWord cpl words) lines → fitsOrWord cpl words current →
  Forall (fitsOrWord cpl words) (foldl (wrapStep cpl) (lines, current) ws).1
  ∧ fitsOrWord cpl words (foldl (wrapStep cpl) (lines, current) ws).2.
Proof.
  intros Hcpl. revert lines current.
  induction ws as [|w ws IH]; intros lines current Hsub Hl Hc; [done|].
  cbn [foldl]. unfold wrapStep at 2 4.
  assert (w ∈ words) as Hw by (apply Hsub; by left).
  assert (ws ⊆ words) as Hsub' by (intros x Hx; apply Hsub; by right).
  destruct (nonempty current) eqn:Hne; cbn [andb].
  - destruct (Z.ltb_spec cpl (strlen current + 1 + strlen w)).
    + apply IH; [done| |by right].
      apply Forall_app. split; [done|]. by apply Forall_singleton.
    + apply IH; [done|done|]. left. rewrite !strlen_append.
      change (strlen " ") with 1. lia.
  - apply IH; [done|done|]. by right.
Qed.

Lemma wrap_loop_nonempty cpl (ws : list string) lines current :
  Forall (λ l, l ≠ "") lines →
  Forall (λ l, l ≠ "") (foldl (wrapStep cpl) (lines, current) ws).1.
Proof.
  revert lines current. induction ws as [|w ws IH]; intros lines current Hl; [done|].
  cbn [foldl]. unfold wrapStep at 2.
  destruct (nonempty current) eqn:Hne; cbn [andb].
  - destruct (cpl <? strlen current + 1 + strlen w); apply IH; [|done].
    apply Forall_app. split; [done|]. apply Forall_singleton. by apply nonempty_spec.
  - by apply IH.
Qed.

Lemma wrapNoteText_stateLines note tableWidth :
  let lines :=
    stateLines (foldl (wrapStep (charsPerLine tableWidth)) ([], "") (noteWords note)) in
  wrapNoteText note tableWidth = if decide (0 < length lines)%nat then lines else [""].
Proof.
  rewrite wrapNoteText_unfold. unfold stateLines. cbn zeta.
  destruct (foldl (wrapStep _) _ _) as [lines current]. cbn [fst snd].
  destruct (nonempty current); [done|]. by rewrite app_nil_r.
Qed.

(** X8. [wrapNoteText] never returns an empty array; a line that is longer
    than the line width is one single word of the note, and no line is
    empty unless the result is the one empty line. *)
Theorem wrapNoteText_lines note tableWidth :
  wrapNoteText note tableWidth ≠ []
  ∧ (∀ line, line ∈ wrapNoteText note tableWidth →
             strlen line ≤ charsPerLine tableWidth ∨ line ∈ noteWords note)
  ∧ (wrapNoteText note tableWidth = [""]
     ∨ Forall (λ line, line ≠ "") (wrapNoteText note tableWidth)).
Proof.
  rewrite wrapNoteText_stateLines. cbn zeta.
  set (cpl := charsPerLine tableWidth).
  assert (1 ≤ cpl) as Hcpl by (unfold cpl, charsPerLine; lia).
  destruct (wrap_loop_fits cpl (noteWords note) (noteWords note) [] "" Hcpl)
    as [Hfit Hcur];
    [by intros x Hx|by apply Forall_nil_2|left; change (strlen "") with 0; lia|].
  pose proof (wrap_loop_nonempty cpl (noteWords note) [] "" (Forall_nil_2 _)) as Hne.
  unfold stateLines.
  destruct (foldl (wrapStep cpl) ([], "") (noteWords note)) as [lines current].
  cbn [fst snd] in *.
  assert (Forall (fitsOrWord cpl (noteWords note))
            (lines ++ (if nonempty current then [current] else []))
          ∧ Forall (λ l, l ≠ "") (lines ++ (if nonempty current then [current] else [])))
    as [Hall Hall'].
  { split; apply Forall_app; (split; [done|]).
    - destruct (nonempty current); [by apply Forall_singleton|done].
    - destruct (nonempty current) eqn:E; [|done].
      apply Forall_singleton. by apply nonempty_spec. }
  destruct (decide _) as [Hlen|Hlen].
  - split; [|split].
    + intros E. rewrite E in Hlen. simpl in Hlen. lia.
    + intros line Hin. by apply (proj1 (Forall_forall _ _) Hall).
    + by right.
  - split; [done|split].
    + intros line Hin. apply list_elem_of_singleton in Hin as ->. left.
      change (strlen "") with 0. lia.
    + by left.
Qed.

(** The first line of [sampleNote] in a table 200 wide. *)
Lemma wrapNoteText_lines_witness :
  strlen "the users of the shop and" ≤ charsPerLine 200
  ∨ "the users of the shop and" ∈ noteWords sampleNote.
Proof.
  apply (proj1 (proj2 (wrapNoteText_lines sampleNote 200))).
  apply (bool_decide_unpack _). by vm_compute.
Defined.

(** *** The words of a trimmed note *)

Lemma endsWithSpace_cons c s :
  endsWithSpace (String c s) = false →
  (s = "" ∧ is_space c = false) ∨ (s ≠ "" ∧ endsWithSpace s = false).
Proof. destruct s; [by left|by right]. Qed.

Lemma append_nonempty a c : a +:+ String c "" ≠ "".
Proof. by destruct a. Qed.

Lemma split_ws_words s :
  ∀ cur, s = "" ∨ endsWithSpace s = false →
         (cur ≠ "" → Forall (λ w, w ≠ "") (split_ws s cur false))
         ∧ (s ≠ "" → Forall (λ w, w ≠ "") (split_ws s "" true)).
Proof.
  induction s as [|c s IH]; intros cur Hend.
  - split; [|done]. intros Hcur. by apply Forall_singleton.
  - destruct Hend as [?|Hend]; [done|].
    apply endsWithSpace_cons in Hend.
    assert (s = "" ∨ endsWithSpace s = false) as Hs by tauto.
    cbn [split_ws]. destruct (is_space c) eqn:Hc.
    + destruct Hend as [[_ ?]|[Hne Hend]]; [congruence|].
      split.
      * intros Hcur. apply Forall_cons. split; [done|].
        by apply (proj2 (IH "" Hs)).
      * intros _. by apply (proj2 (IH "" Hs)).
    + split.
      * intros Hcur. apply (proj1 (IH _ Hs)), append_nonempty.
      * intros _. apply (proj1 (IH _ Hs)), append_nonempty.
Qed.

Lemma noteWords_nonempty note :
  note ≠ "" → startsWithSpace note = false → endsWithSpace note = false →
  Forall (λ w, w ≠ "") (noteWords note).
Proof.
  destruct note as [|c s]; [done|]. intros _ Hstart Hend.
  unfold noteWords. cbn [split_ws]. cbn [startsWithSpace] in Hstart. rewrite Hstart.
  apply endsWithSpace_cons in Hend.
  apply (proj1 (split_ws_words s _ ltac:(tauto))), append_nonempty.
Qed.

(** *** Joining the lines *)

Lemma concat_snoc sep (l : list string) x :
  l ≠ [] → String.concat sep (l ++ [x]) = String.concat sep l +:+ sep +:+ x.
Proof.
  induction l as [|a l IH]; [done|]. intros _.
  destruct l as [|b l]; [done|].
  change (String.concat sep ((a :: b :: l) ++ [x]))
    with (a +:+ sep +:+ String.concat sep ((b :: l) ++ [x])).
  rewrite IH by done.
  change (String.concat sep (a :: b :: l))
    with (a +:+ sep +:+ String.concat sep (b :: l)).
  by rewrite !append_assoc.
Qed.

Lemma concat_app_eq sep (l1 l2 ws : list string) :
  l1 ≠ [] → l2 ≠ [] → String.concat sep l1 = String.concat sep l2 →
  String.concat sep (l1 ++ ws) = String.concat sep (l2 ++ ws).
Proof.
  intros H1 H2 Heq. induction ws as [|w ws IH] using rev_ind.
  - by rewrite !app_nil_r.
  - rewrite !app_assoc, !concat_snoc, IH; [done| |].
    + destruct l2; [done|]. done.
    + destruct l1; [done|]. done.
Qed.

Lemma wrapStep_join cpl st w :
  w ≠ "" →
  stateLines (wrapStep cpl st w) ≠ []
  ∧ String.concat " " (stateLines (wrapStep cpl st w))
    = String.concat " " (stateLines st ++ [w]).
Proof.
  intros Hw. destruct st as [lines current]. unfold wrapStep, stateLines. cbn [fst snd].
  assert (nonempty w = true) as Hw' by by apply nonempty_spec.
  destruct (nonempty current) eqn:Hne; cbn [andb].
  - destruct (cpl <? strlen current + 1 + strlen w); cbn [fst snd].
    + rewrite Hw'. split; [by destruct lines|done].
    + assert (nonempty (current +:+ " " +:+ w) = true) as -> by by destruct current.
      split; [by destruct lines|].
      destruct lines as [|a lines]; [done|].
      rewrite (concat_snoc " " (a :: lines)) by done.
      rewrite (concat_snoc " " ((a :: lines) ++ [current])) by done.
      rewrite (concat_snoc " " (a :: lines)) by done.
      by rewrite !append_assoc.
  - cbn [fst snd]. rewrite Hw', app_nil_r. split; [by destruct lines|done].
Qed.

Lemma wrap_loop_join cpl ws st :
  Forall (λ w, w ≠ "") ws → stateLines st ≠ [] ∨ ws ≠ [] →
  String.concat " " (stateLines (foldl (wrapStep cpl) st ws))
  = String.concat " " (stateLines st ++ ws).
Proof.
  revert st. induction ws as [|w ws IH]; intros st Hws Hne.
  - by rewrite app_nil_r.
  - apply Forall_cons in Hws as [Hw Hws]. cbn [foldl].
    destruct (wrapStep_join cpl st w Hw) as [Hne' Heq].
    rewrite IH by auto.
    rewrite (concat_app_eq " " _ (stateLines st ++ [w]) ws Hne'); [|by destruct (stateLines st)|done].
    by rewrite <- app_assoc.
Qed.

(** X9. The lines of a note that is not empty and has no white space at
    its ends, joined by single blanks, are the words of the note joined by
    single blanks: wrapping loses and adds no text. *)
Theorem wrapNoteText_text note tableWidth :
  note ≠ "" → startsWithSpace note = false → endsWithSpace note = false →
  String.concat " " (wrapNoteText note tableWidth) = String.concat " " (noteWords note).
Proof.
  intros Hne Hstart Hend.
  pose proof (noteWords_nonempty note Hne Hstart Hend) as Hwords.
  rewrite wrapNoteText_stateLines. cbn zeta.
  assert (noteWords note ≠ []) as Hnil.
  { unfold noteWords. destruct note; [done|]. cbn [split_ws].
    destruct (is_space a); [done|]. clear. generalize ("" +:+ String a "").
    generalize false. induction note as [|c s IH]; intros b cur; [done|].
    cbn [split_ws]. destruct (is_space c); [destruct b; [apply IH|done]|apply IH]. }
  pose proof (wrap_loop_join (charsPerLine tableWidth) (noteWords note) ([], "")
                Hwords (or_intror Hnil)) as Hjoin.
  change (stateLines ([], "") ++ noteWords note) with (noteWords note) in Hjoin.
  destruct (decide _) as [Hlen|Hlen]; [done|].
  rewrite <- Hjoin.
  destruct (stateLines _); [done|]. simpl in Hlen. lia.
Qed.

(** The note [users of the shop] in a table 200 wide. *)
Lemma wrapNoteText_text_witness :
  String.concat " " (wrapNoteText sampleNote 200) = String.concat " " (noteWords sampleNote).
Proof.
  apply (wrapNoteText_text sampleNote 200); [discriminate|reflexivity|reflexivity].
Defined.

End Wrap.

(** ** [buildTableElkNode] *)

Section Geometry.

Lemma flat_loop {A B} (f : A → list B) (l : list A) (acc : list B) :
  foldl (λ acc a, acc ++ f a) acc l = acc ++ flat_map f l.
Proof.
  revert acc. induction l as [|a l IH]; intros acc; simpl.
  - by rewrite app_nil_r.
  - rewrite IH. by rewrite <- app_assoc.
Qed.

Lemma buildTableElkNode_ports table direction :
  ElkTableNode.ports (buildTableElkNode table direction) = tablePorts table direction.
Proof. unfold buildTableElkNode, tablePorts. cbn [ElkTableNode.ports]. by rewrite flat_loop. Qed.

Lemma estimateTableWidth_range table :
  (TABLE_MIN_WIDTH ≤ estimateTableWidth table ≤ TABLE_MAX_WIDTH)%Z.
Proof. unfold estimateTableWidth, TABLE_MIN_WIDTH, TABLE_MAX_WIDTH. lia. Qed.

Lemma headerHeight_min table tableWidth :
  (TABLE_HEADER_HEIGHT ≤ headerHeight table tableWidth)%Z.
Proof.
  unfold headerHeight. destruct (SchemaTable.note table) as [[|c note]|]; [done| |done].
  unfold TABLE_HEADER_HEIGHT, NOTE_NAME_AREA, NOTE_LINE_HEIGHT, NOTE_BOTTOM_PAD. lia.
Qed.

(** X10. The node of a table is between 200 and 360 wide; its height is the
    header height plus 28 for every column, where the header is 36 high
    for a table without note and 36 plus 14 for every line of the wrapped
    note otherwise; it has two ports for every column. *)
Theorem table_node_size table direction :
  let node := buildTableElkNode table direction in
  let lines := wrapNoteText (default "" (SchemaTable.note table)) (ElkTableNode.width node) in
  let header := if decide (default "" (SchemaTable.note table) = "")
                then 36%Z else (36 + 14 * Z.of_nat (length lines))%Z in
  ElkTableNode.id node = tableNodeId table
  ∧ (∃ w, ElkTableNode.width node = inject_Z w ∧ 200 ≤ w ≤ 360)%Z
  ∧ ElkTableNode.height node
    = inject_Z (header + 28 * Z.of_nat (length (SchemaTable.columns table)))
  ∧ length (ElkTableNode.ports node) = 2 * length (SchemaTable.columns table).
Proof.
  cbn zeta. split; [done|]. split; [|split].
  - exists (estimateTableWidth table). split; [done|]. apply estimateTableWidth_range.
  - unfold buildTableElkNode. cbn [ElkTableNode.height ElkTableNode.width].
    f_equal. unfold tableHeight, headerHeight.
    destruct (SchemaTable.note table) as [[|c note]|]; cbn [default].
    + rewrite decide_True by done. unfold TABLE_HEADER_HEIGHT, COLUMN_ROW_HEIGHT. lia.
    + rewrite decide_False by done.
      unfold NOTE_NAME_AREA, NOTE_LINE_HEIGHT, NOTE_BOTTOM_PAD, COLUMN_ROW_HEIGHT, id. lia.
    + rewrite decide_True by done. unfold TABLE_HEADER_HEIGHT, COLUMN_ROW_HEIGHT. lia.
  - rewrite buildTableElkNode_ports. unfold tablePorts.
    generalize (estimateTableWidth table) at 1.
    generalize (tableHeight table (inject_Z (estimateTableWidth table))).
    generalize (headerHeight table (inject_Z (estimateTableWidth table))).
    intros hh height width.
    assert (∀ (l : list SchemaColumn.t) n,
              length (flat_map (λ ic : nat * SchemaColumn.t,
                          columnPorts table (isHorizontal direction) width height hh ic.1 ic.2)
                        (imap (λ i, pair (n + i)) l)) = 2 * length l) as Hlen.
    { induction l as [|c l IH]; intros n; [done|].
      cbn [imap flat_map]. rewrite length_app.
      rewrite (imap_ext _ (λ i, pair (S n + i)))
        by (intros; unfold compose; f_equal; lia).
      rewrite IH. unfold columnPorts. destruct (isHorizontal direction); simpl; lia. }
    apply (Hlen _ 0).
Qed.

Lemma elem_of_flat_map {A B} (f : A → list B) (l : list A) b :
  b ∈ flat_map f l ↔ ∃ a, a ∈ l ∧ b ∈ f a.
Proof.
  rewrite list_elem_of_In, in_flat_map. split; intros (a & Ha & Hb); exists a.
  - by rewrite !list_elem_of_In.
  - by rewrite <- !list_elem_of_In.
Qed.

Lemma tablePorts_elem table direction p :
  p ∈ tablePorts table direction
  ↔ ∃ i col, SchemaTable.columns table !! i = Some col
             ∧ p ∈ columnPorts table (isHorizontal direction) (estimateTableWidth table)
                     (tableHeight table (inject_Z (estimateTableWidth table)))
                     (headerHeight table (inject_Z (estimateTableWidth table))) i col.
Proof.
  unfold tablePorts. rewrite elem_of_flat_map. split.
  - intros ([i col] & Hic & Hp). apply elem_of_lookup_imap in Hic as (j & c & Heq & Hj).
    inversion Heq; subst. by exists j, c.
  - intros (i & col & Hi & Hp). exists (i, col). split; [|done].
    by apply (elem_of_lookup_imap_2 pair).
Qed.

Lemma row_centre_inside (hh : Z) (i n : nat) :
  i < n →
  (inject_Z hh
   < inject_Z hh + inject_Z (Z.of_nat i) * inject_Z COLUMN_ROW_HEIGHT
     + inject_Z COLUMN_ROW_HEIGHT / 2
   < inject_Z (hh + Z.of_nat n * COLUMN_ROW_HEIGHT))%Q.
Proof.
  intros Hi. rewrite inject_Z_plus, inject_Z_mult.
  change (inject_Z COLUMN_ROW_HEIGHT) with 28%Q.
  assert (0 <= inject_Z (Z.of_nat i))%Q as H0.
  { change 0%Q with (inject_Z 0). rewrite <- Zle_Qle. lia. }
  assert (inject_Z (Z.of_nat i) + 1 <= inject_Z (Z.of_nat n))%Q as H1.
  { change 1%Q with (inject_Z 1). rewrite <- inject_Z_plus, <- Zle_Qle. lia. }
  revert H0 H1. generalize (inject_Z (Z.of_nat i)) (inject_Z (Z.of_nat n)) (inject_Z hh).
  intros I N H H0 H1. assert (28 / 2 == 14)%Q as -> by reflexivity.
  split; lra.
Qed.

Lemma column_slot_inside (width : Z) (i n : nat) :
  (TABLE_MIN_WIDTH ≤ width)%Z → i < n →
  (inject_Z TABLE_PADDING_X
   < inject_Z TABLE_PADDING_X
     + inject_Z (width - TABLE_PADDING_X * 2) / inject_Z (Z.of_nat n + 1)
       * inject_Z (Z.of_nat i + 1)
   < inject_Z width - inject_Z TABLE_PADDING_X)%Q.
Proof.
  intros Hw Hi.
  assert (0 < inject_Z (width - TABLE_PADDING_X * 2))%Q as Ha.
  { change 0%Q with (inject_Z 0). rewrite <- Zlt_Qlt.
    unfold TABLE_MIN_WIDTH, TABLE_PADDING_X in *. lia. }
  assert (inject_Z (width - TABLE_PADDING_X * 2) == inject_Z width - 48)%Q as Hsum.
  { unfold Z.sub. rewrite inject_Z_plus. change (inject_Z (- (TABLE_PADDING_X * 2))) with (-48)%Q.
    ring. }
  assert (0 < inject_Z (Z.of_nat i + 1))%Q as Hk.
  { change 0%Q with (inject_Z 0). rewrite <- Zlt_Qlt. lia. }
  assert (inject_Z (Z.of_nat i + 1) < inject_Z (Z.of_nat n + 1))%Q as Hkd.
  { rewrite <- Zlt_Qlt. lia. }
  change (inject_Z TABLE_PADDING_X) with 24%Q.
  revert Ha Hsum Hk Hkd.
  generalize (inject_Z (width - TABLE_PADDING_X * 2)) (inject_Z (Z.of_nat i + 1))
             (inject_Z (Z.of_nat n + 1)) (inject_Z width).
  intros a K D W Ha Hsum Hk Hkd.
  assert (0 < D)%Q as Hd by lra.
  assert (0 < a / D)%Q as Hq.
  { apply Qlt_shift_div_l; [done|]. lra. }
  assert (0 < a / D * K)%Q as H1 by by apply Qmult_lt_0_compat.
  assert (a / D * K < a / D * D)%Q as H2 by by apply Qmult_lt_l.
  assert (a / D * D == a)%Q as H3 by (field; lra).
  rewrite H3 in H2. revert H1 H2. generalize (a / D * K)%Q. intros v H1 H2.
  split; lra.
Qed.

(** X11. The ports of a table node belong to its columns, have no extent and
    lie on the border of the node.  In a horizontal layout the port
    [right] of a column is on the right edge and the port [left] on the
    left edge, at a height strictly between the bottom of the header and
    the bottom of the node; in a vertical layout the port [right] is on the
    bottom edge and the port [left] on the top edge, strictly between the
    horizontal paddings. *)
Theorem table_ports_on_border table direction p :
  let node := buildTableElkNode table direction in
  let header := inject_Z (headerHeight table (ElkTableNode.width node)) in
  p ∈ ElkTableNode.ports node →
  ∃ i col side,
    SchemaTable.columns table !! i = Some col
    ∧ ElkPort.id p = portId table (SchemaColumn.name col) side
    ∧ ElkPort.width p = 0%Q ∧ ElkPort.height p = 0%Q
    ∧ if isHorizontal direction
      then ElkPort.x p = (match side with
                          | SideRight => ElkTableNode.width node
                          | SideLeft => 0%Q
                          end)
           ∧ (header < ElkPort.y p)%Q ∧ (ElkPort.y p < ElkTableNode.height node)%Q
      else ElkPort.y p = (match side with
                          | SideRight => ElkTableNode.height node
                          | SideLeft => 0%Q
                          end)
           ∧ (24 < ElkPort.x p)%Q ∧ (ElkPort.x p < ElkTableNode.width node - 24)%Q.
Proof.
  cbn zeta. rewrite buildTableElkNode_ports, tablePorts_elem.
  intros (i & col & Hi & Hp).
  assert (i < length (SchemaTable.columns table)) as Hlt by by eapply lookup_lt_Some.
  pose proof (row_centre_inside
                (headerHeight table (inject_Z (estimateTableWidth table))) i _ Hlt) as [Hy1 Hy2].
  pose proof (column_slot_inside (estimateTableWidth table) i _
                (proj1 (estimateTableWidth_range table)) Hlt) as [Hx1 Hx2].
  unfold columnPorts in Hp. cbn zeta in Hp.
  destruct (isHorizontal direction).
  - apply elem_of_cons in Hp as [->|Hp]; [|apply list_elem_of_singleton in Hp as ->].
    + exists i, col, SideRight. by repeat split.
    + exists i, col, SideLeft. by repeat split.
  - apply elem_of_cons in Hp as [->|Hp]; [|apply list_elem_of_singleton in Hp as ->].
    + exists i, col, SideRight. by repeat split.
    + exists i, col, SideLeft. by repeat split.
Qed.

(** The second port of the table [A] in a horizontal layout. *)
Lemma table_ports_on_border_witness :
  ∃ p, ElkTableNode.ports (buildTableElkNode (sampleTable "A") RIGHT) !! 1 = Some p
       ∧ ∃ i col side,
           SchemaTable.columns (sampleTable "A") !! i = Some col
           ∧ ElkPort.id p = portId (sampleTable "A") (SchemaColumn.name col) side.
Proof.
  destruct (ElkTableNode.ports (buildTableElkNode (sampleTable "A") RIGHT) !! 1) as [p|] eqn:Hp;
    [|vm_compute in Hp; discriminate Hp].
  exists p. split; [reflexivity|].
  assert (p ∈ ElkTableNode.ports (buildTableElkNode (sampleTable "A") RIGHT)) as Hin
    by (eapply list_elem_of_lookup_2; exact Hp).
  destruct (table_ports_on_border (sampleTable "A") RIGHT p Hin) as (i & col & side & H1 & H2 & _).
  by exists i, col, side.
Defined.

End Geometry.

(** ** [computeLayout]: the graph *)

Section Graph.

Lemma groupTables_elem tableMap g t :
  t ∈ groupTables tableMap g
  ↔ ∃ m, m ∈ SchemaTableGroup.tables g ∧ tableMap !! memberKey m = Some t.
Proof. unfold groupTables. by rewrite list_elem_of_omap. Qed.

Lemma groupNode_tableNodes tableMap direction g :
  flat_map childTableNodes (groupNode tableMap direction g)
  = map (λ t, buildTableElkNode t direction) (groupTables tableMap g).
Proof.
  unfold groupNode. rewrite groupChildren_spec.
  destruct (decide _) as [Hlen|Hlen]; simpl.
  - destruct (map _ _); [done|simpl in Hlen; lia].
  - by rewrite app_nil_r.
Qed.

Lemma flat_map_flat_map {A B C} (f : A → list B) (g : B → list C) (l : list A) :
  flat_map g (flat_map f l) = flat_map (λ a, flat_map g (f a)) l.
Proof.
  induction l as [|a l IH]; [done|]. simpl. by rewrite flat_map_app, IH.
Qed.

Lemma graphTableNodes_spec schema direction :
  graphTableNodes (buildGraph schema direction).1
  = map (λ t, buildTableElkNode t direction)
        (flat_map (groupTables (schemaTableMap schema)) (ParsedSchema.tableGroups schema)
         ++ ungroupedTables schema
              (buildTableToGroup (ParsedSchema.tableGroups schema))
              (buildConnectionCount (ParsedSchema.refs schema))).
Proof.
  unfold graphTableNodes. rewrite buildGraph_children, flat_map_app, map_app.
  f_equal.
  - rewrite flat_map_flat_map.
    induction (ParsedSchema.tableGroups schema) as [|g gs IH]; [done|].
    simpl. by rewrite map_app, groupNode_tableNodes, IH.
  - induction (ungroupedTables _ _ _) as [|t ts IH]; [done|]. simpl. by f_equal.
Qed.

Lemma ungroupedTables_elem schema t :
  t ∈ ungroupedTables schema (buildTableToGroup (ParsedSchema.tableGroups schema))
        (buildConnectionCount (ParsedSchema.refs schema))
  ↔ t ∈ ParsedSchema.tables schema
    ∧ tableNodeId t ∉ allMemberKeys (ParsedSchema.tableGroups schema).
Proof.
  unfold ungroupedTables. rewrite js_sort_perm, list_elem_of_filter.
  rewrite <- buildTableToGroup_is_Some, <- eq_None_not_Some. tauto.
Qed.

(** Every table of [tableMap] has its node in the graph. *)
Lemma mapped_table_node schema direction k t :
  schemaTableMap schema !! k = Some t →
  buildTableElkNode t direction ∈ graphTableNodes (buildGraph schema direction).1.
Proof.
  intros Hk. rewrite graphTableNodes_spec.
  apply (list_elem_of_fmap_2 (λ t, buildTableElkNode t direction)).
  apply elem_of_app.
  destruct (decide (k ∈ allMemberKeys (ParsedSchema.tableGroups schema))) as [Hin|Hin].
  - left. unfold allMemberKeys in Hin.
    apply elem_of_flat_map in Hin as (g & Hg & Hm).
    apply list_elem_of_fmap in Hm as (m & -> & Hm).
    apply elem_of_flat_map. exists g. split; [done|].
    apply groupTables_elem. by exists m.
  - right. apply ungroupedTables_elem.
    destruct (buildTableMap_Some _ _ _ Hk) as [<- Ht]. by split.
Qed.

Lemma graphPortIds_elem graph id :
  id ∈ graphPortIds graph
  ↔ ∃ node p, node ∈ graphTableNodes graph ∧ p ∈ ElkTableNode.ports node
              ∧ ElkPort.id p = id.
Proof.
  unfold graphPortIds. rewrite elem_of_flat_map. split.
  - intros (node & Hnode & Hid). apply list_elem_of_fmap in Hid as (p & -> & Hp).
    by exists node, p.
  - intros (node & p & Hnode & Hp & <-). exists node. split; [done|].
    by apply list_elem_of_fmap_2.
Qed.

Lemma column_port_in_node table direction col side :
  col ∈ SchemaTable.columns table →
  portId table (SchemaColumn.name col) side
  ∈ map ElkPort.id (ElkTableNode.ports (buildTableElkNode table direction)).
Proof.
  intros Hcol. apply list_elem_of_lookup in Hcol as [i Hi].
  rewrite buildTableElkNode_ports.
  set (ps := columnPorts table (isHorizontal direction) (estimateTableWidth table)
               (tableHeight table (inject_Z (estimateTableWidth table)))
               (headerHeight table (inject_Z (estimateTableWidth table))) i col).
  assert (∃ p, p ∈ ps ∧ ElkPort.id p = portId table (SchemaColumn.name col) side)
    as (p & Hp & <-).
  { unfold ps, columnPorts. cbn zeta.
    destruct (isHorizontal direction), side; eexists.
    - split; [apply elem_of_cons; right; apply list_elem_of_singleton|]; reflexivity.
    - split; [apply elem_of_cons; left|]; reflexivity.
    - split; [apply elem_of_cons; right; apply list_elem_of_singleton|]; reflexivity.
    - split; [apply elem_of_cons; left|]; reflexivity. }
  apply list_elem_of_fmap_2, tablePorts_elem. by exists i, col.
Qed.

(** X12. The edge of a reference that resolves leaves the port [right] of
    the first source column on the node of the source table and enters the
    port [left] of the first target column on the node of the target table;
    each of the two ports exists in the graph when the table has a column
    of that name. *)
Theorem edge_ports_exist schema direction i r :
  resolvedRefs schema !! i = Some r →
  let graph := (buildGraph schema direction).1 in
  ∃ e fromTable toTable,
    ElkGraph.edges graph !! i = Some e
    ∧ schemaTableMap schema !! fromKey r = Some fromTable
    ∧ schemaTableMap schema !! toKey r = Some toTable
    ∧ ElkEdge.sources e = [portId fromTable (firstColumn (SchemaRef.fromColumns r)) SideRight]
    ∧ ElkEdge.targets e = [portId toTable (firstColumn (SchemaRef.toColumns r)) SideLeft]
    ∧ (firstColumn (SchemaRef.fromColumns r) ∈ columnNames fromTable →
       Forall (λ id, id ∈ graphPortIds graph) (ElkEdge.sources e))
    ∧ (firstColumn (SchemaRef.toColumns r) ∈ columnNames toTable →
       Forall (λ id, id ∈ graphPortIds graph) (ElkEdge.targets e)).
Proof.
  intros Hr. cbn zeta.
  destruct (buildGraph_edges schema direction) as [_ ->].
  destruct (buildEdges_spec (schemaTableMap schema) (ParsedSchema.refs schema))
    as (_ & _ & Hedges).
  destruct (Hedges i r Hr) as [Hedge _].
  fold (schemaTableMap schema). rewrite Hedge. unfold edgeFor.
  apply list_elem_of_lookup_2, list_elem_of_filter in Hr as [[[ft Hft] [tt Htt]] _].
  rewrite Hft, Htt.
  cbn. eexists _, ft, tt. split; [reflexivity|]. do 4 (split; [reflexivity|]).
  cbn [ElkEdge.sources ElkEdge.targets].
  split; intros Hcol; apply Forall_singleton;
    apply list_elem_of_fmap in Hcol as (col & -> & Hcol); apply graphPortIds_elem.
  - pose proof (column_port_in_node ft direction col SideRight Hcol) as Hp.
    apply list_elem_of_fmap in Hp as (p & Hid & Hp).
    exists (buildTableElkNode ft direction), p. split; [|by split].
    by apply (mapped_table_node schema direction (fromKey r)).
  - pose proof (column_port_in_node tt direction col SideLeft Hcol) as Hp.
    apply list_elem_of_fmap in Hp as (p & Hid & Hp).
    exists (buildTableElkNode tt direction), p. split; [|by split].
    by apply (mapped_table_node schema direction (toKey r)).
Qed.

(** The reference from [A] to [B] of [sampleSchema]. *)
Lemma edge_ports_exist_witness :
  resolvedRefs sampleSchema !! 0 = Some (sampleRefTo "B")
  ∧ ∃ e, ElkGraph.edges (buildGraph sampleSchema RIGHT).1 !! 0 = Some e
         ∧ Forall (λ id, id ∈ graphPortIds (buildGraph sampleSchema RIGHT).1)
                  (ElkEdge.sources e).
Proof.
  assert (resolvedRefs sampleSchema !! 0 = Some (sampleRefTo "B")) as Hr
    by (vm_compute; reflexivity).
  split; [exact Hr|].
  destruct (edge_ports_exist sampleSchema RIGHT 0 (sampleRefTo "B") Hr)
    as (e & ft & tt & He & Hft & _ & _ & _ & Hsrc & _).
  exists e. split; [exact He|]. apply Hsrc.
  assert (Some ft = Some (sampleTable "A")) as Heq
    by (rewrite <- Hft; vm_compute; reflexivity).
  injection Heq as ->. apply (bool_decide_unpack _). by vm_compute.
Defined.

End Graph.

(** ** [computeLayout]: edge ids, connection counts and the order of the
    ungrouped tables *)

Section Order.

Lemma lookup_ext_length {A} (l k : list A) :
  length l = length k → (∀ i, i < length l → l !! i = k !! i) → l = k.
Proof.
  intros Hlen Hi. apply list_eq. intros i.
  destruct (decide (i < length l)) as [?|Hge]; [by apply Hi|].
  rewrite !lookup_ge_None_2; [done|lia|lia].
Qed.

(** X13. The edges submitted to the solver are numbered in order: the
    [i]-th edge has the id [e] followed by the decimal digits of [i], so no
    two edges share an id. *)
Theorem edge_ids_distinct schema direction :
  let edges := ElkGraph.edges (buildGraph schema direction).1 in
  map ElkEdge.id edges = map (λ i, "e" +:+ pretty i) (seq 0 (length (resolvedRefs schema)))
  ∧ NoDup (map ElkEdge.id edges).
Proof.
  cbn zeta.
  destruct (buildGraph_edges schema direction) as [_ ->].
  destruct (buildEdges_spec (schemaTableMap schema) (ParsedSchema.refs schema))
    as (_ & Hlen & Hedges).
  fold (schemaTableMap schema). fold (resolvedRefs schema) in Hlen, Hedges.
  assert (map ElkEdge.id (buildEdges (schemaTableMap schema) (ParsedSchema.refs schema)).1
          = map (λ i, "e" +:+ pretty i) (seq 0 (length (resolvedRefs schema)))) as Hids.
  { apply lookup_ext_length; [by rewrite !length_map, length_seq|].
    intros i Hi. rewrite length_map, Hlen in Hi.
    destruct (lookup_lt_is_Some_2 (resolvedRefs schema) i Hi) as [r Hr].
    destruct (Hedges i r Hr) as [Hedge _].
    rewrite !list_lookup_fmap, Hedge, lookup_seq_lt by done.
    unfold edgeFor.
    apply list_elem_of_lookup_2, list_elem_of_filter in Hr as [[[ft Hft] [tt Htt]] _].
    by rewrite Hft, Htt. }
  split; [exact Hids|]. rewrite Hids.
  assert (Inj (=) (=) (λ i : nat, "e" +:+ pretty i)) as Hinj.
  { intros i j Hij. injection Hij as Hij. by apply (inj pretty). }
  apply (NoDup_fmap_2 (λ i : nat, "e" +:+ pretty i)), NoDup_seq.
Qed.

Lemma filter_none {A} (P : A → Prop) `{∀ x, Decision (P x)} (l : list A) :
  (∀ x, x ∈ l → ¬ P x) → filter P l = [].
Proof.
  induction l as [|a l IH]; intros Hall; [done|].
  rewrite filter_cons_False by (apply Hall; by left).
  apply IH. intros x Hx. apply Hall. by right.
Qed.

Lemma countOf_insert cc k v k' :
  countOf (<[k := v]> cc) k' = if decide (k = k') then v else countOf cc k'.
Proof.
  unfold countOf. destruct (decide (k = k')) as [->|Hne].
  - by rewrite lookup_insert_eq.
  - by rewrite lookup_insert_ne.
Qed.

Lemma connection_loop refs cc k :
  countOf (foldl (λ cc ref,
                    let cc := <[fromKey ref := countOf cc (fromKey ref) + 1]> cc in
                    <[toKey ref := countOf cc (toKey ref) + 1]> cc) cc refs) k
  = countOf cc k + endsAt refs k.
Proof.
  revert cc. induction refs as [|r refs IH]; intros cc.
  - unfold endsAt. simpl. lia.
  - cbn [foldl]. rewrite IH. cbn zeta. rewrite !countOf_insert.
    unfold endsAt. rewrite !filter_cons.
    destruct (decide (fromKey r = k)) as [Hf|Hf], (decide (toKey r = k)) as [Ht|Ht];
      rewrite ?countOf_insert; repeat case_decide; simplify_eq; simpl; try lia.
Qed.

(** X14. The connection count of a key is the number of references that
    start at it plus the number of references that end at it, whether the
    references resolve or not; a reference from a table to itself counts
    twice. *)
Theorem connection_count refs k :
  countOf (buildConnectionCount refs) k = endsAt refs k
  ∧ (endsAt refs k = 0 ↔ ∀ r, r ∈ refs → fromKey r ≠ k ∧ toKey r ≠ k).
Proof.
  split.
  - unfold buildConnectionCount. rewrite connection_loop. unfold countOf.
    by rewrite lookup_empty.
  - unfold endsAt. split.
    + intros H0 r Hr.
      assert (filter (λ r, fromKey r = k) refs = [] ∧ filter (λ r, toKey r = k) refs = [])
        as [H1 H2].
      { split; apply length_zero_iff_nil; lia. }
      split; intros Heq.
      * assert (r ∈ filter (λ r, fromKey r = k) refs) as Hin by by apply list_elem_of_filter.
        rewrite H1 in Hin. by apply not_elem_of_nil in Hin.
      * assert (r ∈ filter (λ r, toKey r = k) refs) as Hin by by apply list_elem_of_filter.
        rewrite H2 in Hin. by apply not_elem_of_nil in Hin.
    + intros Hall.
      assert (filter (λ r, fromKey r = k) refs = [] ∧ filter (λ r, toKey r = k) refs = [])
        as [-> ->]; [|done].
      split; apply filter_none; intros r Hr; by apply Hall.
Qed.

(** No reference of [sampleSchema] touches the key [public.Q]. *)
Lemma connection_count_witness :
  Forall (λ r, fromKey r ≠ "public.Q" ∧ toKey r ≠ "public.Q")
         (ParsedSchema.refs sampleSchema).
Proof.
  apply Forall_forall.
  apply (proj1 (proj2 (connection_count (ParsedSchema.refs sampleSchema) "public.Q"))).
  reflexivity.
Defined.

Lemma sort_insert_sorted {A} (f : A → nat) a (l : list A) :
  nonIncreasing f l → nonIncreasing f (sort_insert (byDescending f) a l).
Proof.
  induction l as [|b l IH]; intros Hl.
  - simpl. split; [by apply Forall_nil_2|done].
  - destruct Hl as [Hb Hl]. cbn [sort_insert]. unfold byDescending at 1.
    destruct (Z.ltb_spec 0 (Z.of_nat (f b) - Z.of_nat (f a))) as [Hlt|Hge].
    + split; [|by apply IH].
      rewrite sort_insert_perm. apply Forall_cons. split; [lia|done].
    + split; [|by split].
      apply Forall_cons. split; [lia|].
      eapply Forall_impl; [exact Hb|]. intros c Hc. simpl in Hc. lia.
Qed.

Lemma js_sort_sorted {A} (f : A → nat) (l : list A) :
  nonIncreasing f (js_sort (byDescending f) l).
Proof.
  unfold js_sort. induction l as [|a l IH]; [done|].
  cbn [foldr]. by apply sort_insert_sorted.
Qed.

Lemma sort_insert_stable {A} (f : A → nat) a (l : list A) c :
  filter (λ x, f x = c) (sort_insert (byDescending f) a l)
  = filter (λ x, f x = c) (a :: l).
Proof.
  induction l as [|b l IH]; [done|].
  cbn [sort_insert]. unfold byDescending at 1.
  destruct (Z.ltb_spec 0 (Z.of_nat (f b) - Z.of_nat (f a))) as [Hlt|Hge]; [|done].
  rewrite (filter_cons _ b), IH, !(filter_cons _ a), !(filter_cons _ b).
  destruct (decide (f a = c)), (decide (f b = c)); try done. lia.
Qed.

Lemma js_sort_stable {A} (f : A → nat) (l : list A) c :
  filter (λ x, f x = c) (js_sort (byDescending f) l) = filter (λ x, f x = c) l.
Proof.
  unfold js_sort. induction l as [|a l IH]; [done|].
  cbn [foldr]. rewrite sort_insert_stable, !(filter_cons _ a), IH. done.
Qed.

Lemma ungroupedTables_sorted schema :
  ungroupedTables schema (buildTableToGroup (ParsedSchema.tableGroups schema))
    (buildConnectionCount (ParsedSchema.refs schema))
  = js_sort (byDescending (connections schema)) (ungroupedInOrder schema).
Proof.
  unfold ungroupedTables, ungroupedInOrder. f_equal.
  apply list_filter_iff. intros t.
  rewrite <- buildTableToGroup_is_Some, eq_None_not_Some. done.
Qed.

(** X15. The tables that no group names are ordered most connected first:
    no table has more connections than a table before it, and tables with
    the same number of connections keep the order they have in the
    schema. *)
Theorem ungrouped_order schema :
  let ungrouped :=
    ungroupedTables schema (buildTableToGroup (ParsedSchema.tableGroups schema))
      (buildConnectionCount (ParsedSchema.refs schema)) in
  ungrouped ≡ₚ ungroupedInOrder schema
  ∧ nonIncreasing (connections schema) ungrouped
  ∧ ∀ c, filter (λ t, connections schema t = c) ungrouped
         = filter (λ t, connections schema t = c) (ungroupedInOrder schema).
Proof.
  cbn zeta. rewrite ungroupedTables_sorted. split; [|split].
  - apply js_sort_perm.
  - apply js_sort_sorted.
  - intros c. apply js_sort_stable.
Qed.

End Order.

(** ** [computeLayout]: compound nodes and the empty schema *)

Section Compound.

Lemma groupNode_elem tableMap direction g c :
  c ∈ groupNode tableMap direction g
  ↔ groupTables tableMap g ≠ []
    ∧ c = ElkGroup (groupNodeId g) (groupLayoutOptions direction)
            (map (λ t, buildTableElkNode t direction) (groupTables tableMap g)).
Proof.
  unfold groupNode. rewrite groupChildren_spec.
  destruct (decide _) as [Hlen|Hlen].
  - split; [by intros ?%not_elem_of_nil|]. intros [Hne _].
    destruct (groupTables tableMap g); [done|simpl in Hlen; lia].
  - rewrite list_elem_of_singleton. split; [|by intros [_ ->]].
    intros ->. split; [|done]. intros E. by rewrite E in Hlen.
Qed.

(** X16. Every compound node of the graph is the node of a group of the
    schema and holds the nodes of the members of that group that name a
    table of the schema, in the order of the member list; it is never
    empty.  A group has its compound node in the graph exactly when one of
    its members names a table of the schema. *)
Theorem compound_nodes schema direction :
  let children := ElkGraph.children (buildGraph schema direction).1 in
  let groups := ParsedSchema.tableGroups schema in
  (∀ id opts nodes, ElkGroup id opts nodes ∈ children →
     nodes ≠ [] ∧ opts = groupLayoutOptions direction
     ∧ ∃ g, g ∈ groups ∧ id = groupNodeId g
            ∧ nodes = map (λ t, buildTableElkNode t direction)
                          (groupTables (schemaTableMap schema) g)
            ∧ map ElkTableNode.id nodes
              = filter (λ k, k ∈ tableKeys schema) (map memberKey (SchemaTableGroup.tables g)))
  ∧ (∀ g, g ∈ groups →
       (∃ m, m ∈ SchemaTableGroup.tables g ∧ memberKey m ∈ tableKeys schema)
       ↔ ElkGroup (groupNodeId g) (groupLayoutOptions direction)
           (map (λ t, buildTableElkNode t direction) (groupTables (schemaTableMap schema) g))
         ∈ children).
Proof.
  cbn zeta. rewrite buildGraph_children. split.
  - intros id opts nodes Hin. apply elem_of_app in Hin as [Hin|Hin].
    + apply elem_of_flat_map in Hin as (g & Hg & Hin).
      apply groupNode_elem in Hin as [Hne Heq]. injection Heq as -> -> ->.
      split; [by destruct (groupTables _ g)|]. split; [done|].
      exists g. do 3 (split; [done|]).
      unfold tableKeys. rewrite <- groupTables_keys. unfold schemaTableMap.
      rewrite map_map. apply map_ext. intros t. apply buildTableElkNode_id.
    + apply list_elem_of_fmap in Hin as (t & Heq & _). discriminate Heq.
  - intros g Hg. split.
    + intros (m & Hm & Hk). apply elem_of_app. left.
      apply elem_of_flat_map. exists g. split; [done|].
      apply groupNode_elem. split; [|done].
      apply buildTableMap_is_Some in Hk as [t Ht].
      assert (t ∈ groupTables (schemaTableMap schema) g) as Hin
        by (apply groupTables_elem; by exists m).
      intros E. rewrite E in Hin. by apply not_elem_of_nil in Hin.
    + intros Hin. apply elem_of_app in Hin as [Hin|Hin].
      * apply elem_of_flat_map in Hin as (g' & Hg' & Hin).
        apply groupNode_elem in Hin as [Hne Heq].
        injection Heq as _ Heq.
        destruct (groupTables (schemaTableMap schema) g) as [|t ts] eqn:Hts.
        { destruct (groupTables (schemaTableMap schema) g'); [done|discriminate Heq]. }
        assert (t ∈ groupTables (schemaTableMap schema) g) as Ht by (rewrite Hts; by left).
        apply groupTables_elem in Ht as (m & Hm & Hk).
        exists m. split; [done|]. apply buildTableMap_is_Some. by exists t.
      * apply list_elem_of_fmap in Hin as (t & Heq & _). discriminate Heq.
Qed.

(** The group [core] of [sampleGroupedSchema]. *)
Lemma compound_nodes_witness :
  ElkGroup (groupNodeId sampleGroup) (groupLayoutOptions RIGHT)
    (map (λ t, buildTableElkNode t RIGHT)
         (groupTables (schemaTableMap sampleGroupedSchema) sampleGroup))
  ∈ ElkGraph.children (buildGraph sampleGroupedSchema RIGHT).1.
Proof.
  assert (sampleGroup ∈ ParsedSchema.tableGroups sampleGroupedSchema) as Hg
    by (apply list_elem_of_singleton; reflexivity).
  apply (proj1 (proj2 (compound_nodes sampleGroupedSchema RIGHT) sampleGroup Hg)).
  exists (GroupMember.mk "public" "A"). split.
  - apply list_elem_of_singleton. reflexivity.
  - apply (bool_decide_unpack _). by vm_compute.
Defined.

Lemma no_tables_no_groups direction (groups : list SchemaTableGroup.t) :
  flat_map (groupNode ∅ direction) groups = [].
Proof.
  induction groups as [|g gs IH]; [done|].
  cbn [flat_map]. rewrite IH, app_nil_r.
  destruct (groupNode ∅ direction g) as [|c cs] eqn:Hg; [done|].
  assert (c ∈ groupNode ∅ direction g) as Hc by (rewrite Hg; by left).
  apply groupNode_elem in Hc as [Hne _]. exfalso.
  destruct (groupTables ∅ g) as [|t ts] eqn:Hts; [done|].
  assert (t ∈ groupTables ∅ g) as Ht by (rewrite Hts; by left).
  apply groupTables_elem in Ht as (m & _ & Hm).
  by rewrite lookup_empty in Hm.
Qed.

(** X17. A schema without tables gives a graph without nodes and without
    edges, whatever references and groups it declares. *)
Theorem empty_schema_graph schema direction :
  ParsedSchema.tables schema = [] →
  buildGraph schema direction
  = (ElkGraph.mk "root" (rootLayoutOptions direction) [] [], []).
Proof.
  intros Hempty.
  pose proof (buildGraph_children schema direction) as Hch.
  pose proof (buildGraph_edges schema direction) as [Hrefs Hedges].
  pose proof (buildEdges_spec (schemaTableMap schema) (ParsedSchema.refs schema))
    as (Hsurv & Hlen & _).
  assert (schemaTableMap schema = ∅) as Hmap
    by (unfold schemaTableMap; by rewrite Hempty).
  assert (filter (resolves (schemaTableMap schema)) (ParsedSchema.refs schema) = []) as Hnone.
  { apply filter_none. intros r _ [[t Ht] _]. rewrite Hmap in Ht.
    by rewrite lookup_empty in Ht. }
  assert (ElkGraph.children (buildGraph schema direction).1 = []) as Hch'.
  { rewrite Hch. unfold ungroupedTables. rewrite Hempty. cbn [filter map js_sort foldr].
    rewrite app_nil_r, Hmap. apply no_tables_no_groups. }
  fold (schemaTableMap schema) in Hrefs, Hedges.
  rewrite Hnone in Hsurv, Hlen. rewrite Hsurv in Hrefs.
  apply length_zero_iff_nil in Hlen. rewrite Hlen in Hedges.
  unfold buildGraph in *. fold (schemaTableMap schema) in *.
  destruct (buildEdges (schemaTableMap schema) (ParsedSchema.refs schema)) as [edges surv].
  cbn [fst snd ElkGraph.children ElkGraph.edges] in *.
  by rewrite Hch', Hrefs, Hedges.
Qed.

(** A schema with a reference and a group but no table. *)
Lemma empty_schema_graph_witness :
  buildGraph sampleNoTables DOWN = (ElkGraph.mk "root" (rootLayoutOptions DOWN) [] [], []).
Proof. apply (empty_schema_graph sampleNoTables DOWN). reflexivity. Defined.

End Compound.

(** ** [computeLayout]: reading the result *)

Section Extract.

Lemma edgePoints_spec edge :
  edgePoints edge = flat_map sectionPoints (orEmpty (ElkResultEdge.sections edge)).
Proof.
  unfold edgePoints.
  assert (∀ sections acc,
            foldl (λ points section,
                     (points ++ [ElkSection.startPoint section])
                     ++ orEmpty (ElkSection.bendPoints section)
                     ++ [ElkSection.endPoint section]) acc sections
            = acc ++ flat_map sectionPoints sections) as Hloop.
  { induction sections as [|s ss IH]; intros acc; cbn [foldl flat_map].
    - by rewrite app_nil_r.
    - rewrite IH. unfold sectionPoints at 2.
      change (ElkSection.startPoint s
              :: orEmpty (ElkSection.bendPoints s) ++ [ElkSection.endPoint s])
        with ([ElkSection.startPoint s]
              ++ orEmpty (ElkSection.bendPoints s) ++ [ElkSection.endPoint s]).
      by rewrite <- !app_assoc. }
  by rewrite Hloop.
Qed.

Lemma last_app_cons {A} (l k : list A) a : last (l ++ k ++ [a]) = Some a.
Proof. by rewrite app_assoc, last_snoc. Qed.

(** X18. The points of a routed edge are, section after section, the start
    point, the bend points and the end point.  An edge without sections has
    no points; any other edge has at least two, from the start point of its
    first section to the end point of its last. *)
Theorem edgePoints_sections edge :
  edgePoints edge = flat_map sectionPoints (orEmpty (ElkResultEdge.sections edge))
  ∧ (edgePoints edge = [] ↔ orEmpty (ElkResultEdge.sections edge) = [])
  ∧ ∀ first final,
      head (orEmpty (ElkResultEdge.sections edge)) = Some first →
      last (orEmpty (ElkResultEdge.sections edge)) = Some final →
      head (edgePoints edge) = Some (ElkSection.startPoint first)
      ∧ last (edgePoints edge) = Some (ElkSection.endPoint final)
      ∧ 2 ≤ length (edgePoints edge).
Proof.
  rewrite edgePoints_spec. split; [done|].
  destruct (orEmpty (ElkResultEdge.sections edge)) as [|s ss]; [done|].
  split; [done|]. intros first final Hfirst Hfinal.
  injection Hfirst as <-. split; [done|]. split.
  - clear -Hfinal. revert s Hfinal. induction ss as [|s' ss IH]; intros s Hfinal.
    + injection Hfinal as <-. cbn [flat_map]. rewrite app_nil_r. unfold sectionPoints.
      apply (last_app_cons [_]).
    + change (flat_map sectionPoints (s :: s' :: ss))
        with (sectionPoints s ++ flat_map sectionPoints (s' :: ss)).
      specialize (IH s' Hfinal).
      destruct (flat_map sectionPoints (s' :: ss)) as [|p ps] eqn:E; [done|].
      rewrite last_app. by rewrite IH.
  - cbn [flat_map]. unfold sectionPoints at 1. rewrite length_app, length_cons, length_app.
    simpl. lia.
Qed.

(** An edge with one section and one bend point. *)
Lemma edgePoints_sections_witness :
  head (edgePoints sampleRoutedEdge) = Some (Point.mk 0 0)
  ∧ last (edgePoints sampleRoutedEdge) = Some (Point.mk 10 10)
  ∧ 2 ≤ length (edgePoints sampleRoutedEdge).
Proof.
  exact (proj2 (proj2 (edgePoints_sections sampleRoutedEdge))
           sampleSection sampleSection eq_refl eq_refl).
Defined.

(** X19. When the solver answers, [computeLayout] returns a layout with one
    edge for every edge of the answer, with the id and the points of that
    edge, and pairs references with edges by position: the [i]-th edge gets
    the [i]-th reference that resolves, and an edge past the last such
    reference gets none.  The size of the layout is the size of the answer,
    0 where the answer has none. *)
Theorem edges_follow_answer (elk_layout : ElkGraph.t → option ElkResult.t)
    (schema : ParsedSchema.t) (direction : LayoutDirection) (result : ElkResult.t) :
  elk_layout (buildGraph schema direction).1 = Some result →
  ∃ out, computeLayout elk_layout schema direction = Some out
    ∧ map LayoutEdge.id (LayoutResult.edges out)
      = map ElkResultEdge.id (orEmpty (ElkResult.edges result))
    ∧ map LayoutEdge.points (LayoutResult.edges out)
      = map edgePoints (orEmpty (ElkResult.edges result))
    ∧ (∀ i e, LayoutResult.edges out !! i = Some e →
              LayoutEdge.ref e = resolvedRefs schema !! i)
    ∧ (∀ i e, LayoutResult.edges out !! i = Some e →
              length (resolvedRefs schema) ≤ i → LayoutEdge.ref e = None)
    ∧ LayoutResult.width out = orZero (ElkResult.width result)
    ∧ LayoutResult.height out = orZero (ElkResult.height result).
Proof.
  intros Hans. unfold computeLayout.
  pose proof (buildGraph_edges schema direction) as [Hrefs _].
  destruct (buildEdges_spec (schemaTableMap schema) (ParsedSchema.refs schema))
    as (Hsurv & _ & _).
  fold (schemaTableMap schema) in Hrefs. rewrite Hsurv in Hrefs.
  fold (resolvedRefs schema) in Hrefs.
  destruct (buildGraph schema direction) as [graph survivingRefs].
  cbn [fst snd] in *. subst survivingRefs. rewrite Hans. cbn.
  eexists. split; [reflexivity|].
  rewrite extractLayout_edges.
  assert (∀ i e, extractEdges (resolvedRefs schema) (orEmpty (ElkResult.edges result)) !! i
                 = Some e → LayoutEdge.ref e = resolvedRefs schema !! i) as Href.
  { intros i e He. unfold extractEdges in He. rewrite list_lookup_imap in He.
    destruct (orEmpty (ElkResult.edges result) !! i); [|done].
    by injection He as <-. }
  split; [|split; [|split; [|split]]].
  - unfold extractEdges. apply lookup_ext_length; [by rewrite !length_map, length_imap|].
    intros i _. rewrite !list_lookup_fmap, list_lookup_imap.
    by destruct (orEmpty (ElkResult.edges result) !! i).
  - unfold extractEdges. apply lookup_ext_length; [by rewrite !length_map, length_imap|].
    intros i _. rewrite !list_lookup_fmap, list_lookup_imap.
    by destruct (orEmpty (ElkResult.edges result) !! i).
  - exact Href.
  - intros i e He Hi. rewrite (Href i e He). by apply lookup_ge_None_2.
  - unfold extractLayout. by destruct (extractNodes _ _ _).
Qed.

(** [sampleSolver] on [sampleSchema]. *)
Lemma edges_follow_answer_witness :
  ∃ result out,
    sampleSolver (buildGraph sampleSchema RIGHT).1 = Some result
    ∧ computeLayout sampleSolver sampleSchema RIGHT = Some out
    ∧ map LayoutEdge.id (LayoutResult.edges out)
      = map ElkResultEdge.id (orEmpty (ElkResult.edges result)).
Proof.
  destruct (sampleSolver (buildGraph sampleSchema RIGHT).1) as [result|] eqn:Hans;
    [|vm_compute in Hans; discriminate Hans].
  destruct (edges_follow_answer sampleSolver sampleSchema RIGHT result Hans)
    as (out & Hout & Hids & _).
  exists result, out. split; [reflexivity|]. split; [exact Hout|exact Hids].
Defined.

Lemma extract_known tableMap groupByElkId (cs : list ElkChild)
    (rcs : list ElkResultChild.t) :
  Forall (knownChild tableMap groupByElkId) cs → Forall2 sameNode cs rcs →
  map LayoutNode.id (flat_map (childNodes tableMap groupByElkId) rcs)
  = flat_map childTableIds cs
  ∧ Forall (λ n, is_Some (LayoutNode.table n)
                 ∧ LayoutNode.table n = tableMap !! LayoutNode.id n)
           (flat_map (childNodes tableMap groupByElkId) rcs)
  ∧ map LayoutGroup.id (flat_map (childGroups groupByElkId) rcs)
    = flat_map childGroupIds cs.
Proof.
  intros Hknown Hsame. induction Hsame as [|c rc cs rcs Hc Hsame IH]; [done|].
  apply Forall_cons in Hknown as [Hk Hknown].
  destruct (IH Hknown) as (IH1 & IH2 & IH3). clear IH.
  cbn [flat_map]. rewrite !map_app, IH1, IH3.
  destruct c as [node|gid opts children]; cbn [sameNode knownChild] in Hc, Hk.
  - destruct Hk as [Hnone Hsome].
    assert (childNodes tableMap groupByElkId rc = [plainNode tableMap rc]) as ->
      by (unfold childNodes; by rewrite Hc, Hnone).
    assert (childGroups groupByElkId rc = []) as ->
      by (unfold childGroups; by rewrite Hc, Hnone).
    split; [|split].
    + cbn. by rewrite Hc.
    + apply Forall_app. split; [|done]. apply Forall_singleton.
      cbn. by rewrite Hc.
    + done.
  - destruct Hc as [Hid Hch]. destruct Hk as [[g Hg] Hsome].
    assert (childNodes tableMap groupByElkId rc
            = map (memberNode tableMap rc) (orEmpty (ElkResultChild.children rc))) as ->
      by (unfold childNodes; by rewrite Hid, Hg).
    assert (childGroups groupByElkId rc = [groupBox rc g]) as ->
      by (unfold childGroups; by rewrite Hid, Hg).
    split; [|split].
    + cbn [childTableIds]. f_equal. rewrite map_map. cbn. exact Hch.
    + apply Forall_app. split; [|done].
      apply Forall_forall. intros n Hn.
      apply list_elem_of_fmap in Hn as (leaf & -> & Hleaf). cbn.
      split; [|done].
      assert (ElkResultLeaf.id leaf ∈ map ElkTableNode.id children) as Hin
        by (rewrite <- Hch; by apply list_elem_of_fmap_2).
      apply list_elem_of_fmap in Hin as (node & -> & Hnode).
      by apply (proj1 (Forall_forall _ _) Hsome).
    + cbn. by rewrite Hid.
Qed.

Lemma graph_children_known schema direction :
  Forall (λ k, k ∉ map groupNodeId (ParsedSchema.tableGroups schema)) (tableKeys schema) →
  Forall (knownChild (schemaTableMap schema)
            (buildGroupByElkId (ParsedSchema.tableGroups schema)))
         (ElkGraph.children (buildGraph schema direction).1).
Proof.
  intros Hfree. rewrite buildGraph_children. apply Forall_app. split.
  - apply Forall_forall. intros c Hc.
    apply elem_of_flat_map in Hc as (g & Hg & Hc).
    apply groupNode_elem in Hc as [_ ->]. cbn [knownChild]. split.
    + apply buildGroupByElkId_is_Some. by apply list_elem_of_fmap_2.
    + apply Forall_forall. intros node Hnode.
      apply list_elem_of_fmap in Hnode as (t & -> & Ht).
      apply groupTables_elem in Ht as (m & _ & Hm).
      destruct (buildTableMap_Some _ _ _ Hm) as [Hid _].
      rewrite buildTableElkNode_id, Hid. by exists t.
  - apply Forall_forall. intros c Hc.
    apply list_elem_of_fmap in Hc as (t & -> & Ht).
    apply ungroupedTables_elem in Ht as [Ht _]. cbn [knownChild].
    rewrite buildTableElkNode_id.
    assert (tableNodeId t ∈ tableKeys schema) as Hkey by by apply list_elem_of_fmap_2.
    split.
    + apply eq_None_not_Some. rewrite buildGroupByElkId_is_Some.
      by apply (proj1 (Forall_forall _ _) Hfree).
    + by apply buildTableMap_is_Some.
Qed.

(** X20. When no table key is the id of a group and the solver returns the
    node tree it was given, the layout has one node for every table node of
    the graph, in the order of the graph, each with the table of the schema
    that has its id, and one group for every compound node of the graph. *)
Theorem nodes_follow_graph (elk_layout : ElkGraph.t → option ElkResult.t)
    (schema : ParsedSchema.t) (direction : LayoutDirection) (result : ElkResult.t) :
  Forall (λ k, k ∉ map groupNodeId (ParsedSchema.tableGroups schema)) (tableKeys schema) →
  elk_layout (buildGraph schema direction).1 = Some result →
  keepsNodes (buildGraph schema direction).1 result →
  ∃ out, computeLayout elk_layout schema direction = Some out
    ∧ map LayoutNode.id (LayoutResult.nodes out)
      = graphTableIds (buildGraph schema direction).1
    ∧ Forall (λ n, ∃ t, LayoutNode.table n = Some t
                        ∧ tableNodeId t = LayoutNode.id n
                        ∧ t ∈ ParsedSchema.tables schema)
             (LayoutResult.nodes out)
    ∧ map LayoutGroup.id (LayoutResult.groups out)
      = flat_map childGroupIds (ElkGraph.children (buildGraph schema direction).1).
Proof.
  intros Hfree Hans Hkeeps.
  pose proof (graph_children_known schema direction Hfree) as Hknown.
  destruct (extract_known _ _ _ _ Hknown Hkeeps) as (Hids & Htables & Hgroups).
  unfold computeLayout, graphTableIds.
  destruct (buildGraph schema direction) as [graph survivingRefs].
  cbn [fst snd] in *. rewrite Hans. cbn.
  eexists. split; [reflexivity|].
  destruct (extractLayout_nodes schema survivingRefs result) as [-> ->].
  split; [exact Hids|]. split; [|exact Hgroups].
  eapply Forall_impl; [exact Htables|].
  intros n [[t Ht] Heq]. exists t. split; [done|].
  rewrite Heq in Ht. by apply buildTableMap_Some in Ht.
Qed.

(** [sampleGroupedSchema] with the solver that echoes the node tree. *)
Lemma nodes_follow_graph_witness :
  ∃ out, computeLayout sampleEchoSolver sampleGroupedSchema RIGHT = Some out
         ∧ map LayoutNode.id (LayoutResult.nodes out) = ["public.A"; "public.B"].
Proof.
  assert (Forall (λ k, k ∉ map groupNodeId (ParsedSchema.tableGroups sampleGroupedSchema))
                 (tableKeys sampleGroupedSchema)) as Hfree
    by (apply (bool_decide_unpack _); by vm_compute).
  assert (keepsNodes (buildGraph sampleGroupedSchema RIGHT).1
            (ElkResult.mk
               (Some (map echoChild
                        (ElkGraph.children (buildGraph sampleGroupedSchema RIGHT).1)))
               None None None)) as Hkeeps.
  { unfold keepsNodes. cbn [ElkResult.children orEmpty default from_option id].
    rewrite buildGraph_children.
    apply Forall2_fmap_r, Forall_Forall2_diag, Forall_forall.
    intros [node|gid opts children] _; cbn; [done|].
    split; [done|]. rewrite map_map. done. }
  destruct (nodes_follow_graph sampleEchoSolver sampleGroupedSchema RIGHT _
              Hfree eq_refl Hkeeps) as (out & Hout & Hids & _).
  exists out. split; [exact Hout|]. rewrite Hids. by vm_compute.
Defined.

End Extract.

(** ** +page.svelte *)

Section PageProofs.

Local Open Scope Z_scope.

Lemma splitLines_cons s : ∃ l ls, splitLines s = l :: ls.
Proof.
  destruct s as [|c s]; [by exists "", []|].
  cbn [splitLines]. destruct (is_newline c); [by eexists _, _|].
  destruct (splitLines s); by eexists _, _.
Qed.

Lemma lineStart_S l ls k : lineStart (l :: ls) (S k) = strlen l + 1 + lineStart ls k.
Proof. done. Qed.

Lemma strlen_String c s : strlen (String c s) = 1 + strlen s.
Proof. unfold strlen. cbn [String.length]. lia. Qed.

Lemma splitLines_get s : ∀ k line j,
  splitLines s !! k = Some line → (j < String.length line)%nat →
  String.get (Z.to_nat (lineStart (splitLines s) k) + j) s = String.get j line.
Proof.
  induction s as [|c s IH]; intros k line j Hk Hj.
  - destruct k; [|done]. injection Hk as <-. simpl in Hj. lia.
  - cbn [splitLines] in *. destruct (is_newline c).
    + destruct k as [|k]; [injection Hk as <-; simpl in Hj; lia|].
      rewrite lineStart_S. change (strlen "") with 0.
      pose proof (strlen_nonneg "") as _.
      assert (0 ≤ lineStart (splitLines s) k) as Hpos.
      { unfold lineStart. generalize (take k (splitLines s)).
        induction l as [|a l IHl]; [done|]. cbn [foldr].
        pose proof (strlen_nonneg a). lia. }
      replace (Z.to_nat (0 + 1 + lineStart (splitLines s) k) + j)%nat
        with (S (Z.to_nat (lineStart (splitLines s) k) + j)) by lia.
      cbn [String.get]. by apply IH.
    + destruct (splitLines_cons s) as (l & ls & Hs). rewrite Hs in *.
      destruct k as [|k].
      * injection Hk as <-. change (lineStart (String c l :: ls) 0) with 0.
        change (Z.to_nat 0 + j)%nat with j.
        destruct j as [|j]; [done|]. cbn [String.get].
        apply (IH 0%nat l j); [done|]. cbn [String.length] in Hj. lia.
      * rewrite lineStart_S, strlen_String.
        assert (0 ≤ lineStart ls k) as Hpos.
        { unfold lineStart. generalize (take k ls).
          induction l0 as [|a l0 IHl]; [done|]. cbn [foldr].
          pose proof (strlen_nonneg a). lia. }
        pose proof (strlen_nonneg l).
        replace (Z.to_nat (1 + strlen l + 1 + lineStart ls k) + j)%nat
          with (S (Z.to_nat (strlen l + 1 + lineStart ls k) + j)) by lia.
        cbn [String.get]. rewrite <- lineStart_S. by apply (IH (S k)).
Qed.

Lemma splitLines_bound s : ∀ k line,
  splitLines s !! k = Some line →
  0 ≤ lineStart (splitLines s) k ∧ lineStart (splitLines s) k + strlen line ≤ strlen s.
Proof.
  induction s as [|c s IH]; intros k line Hk.
  - destruct k; [|done]. by injection Hk as <-.
  - cbn [splitLines] in *. rewrite strlen_String. destruct (is_newline c).
    + destruct k as [|k].
      * injection Hk as <-. change (lineStart _ 0) with 0. change (strlen "") with 0.
        pose proof (strlen_nonneg s). lia.
      * rewrite lineStart_S. change (strlen "") with 0.
        specialize (IH k line Hk). lia.
    + destruct (splitLines_cons s) as (l & ls & Hs). rewrite Hs in *.
      destruct k as [|k].
      * injection Hk as <-. change (lineStart _ 0) with 0. rewrite strlen_String.
        specialize (IH 0%nat l eq_refl). change (lineStart _ 0) with 0 in IH. lia.
      * rewrite lineStart_S, strlen_String.
        specialize (IH (S k) line Hk). rewrite lineStart_S in IH. lia.
Qed.

Lemma offsetLoop_spec lines : ∀ i line offset,
  0 ≤ i →
  offsetLoop lines i line offset
  = offset + lineStart lines (Z.to_nat (line - 1 - i)).
Proof.
  induction lines as [|l rest IH]; intros i line offset Hi.
  - cbn [offsetLoop]. unfold lineStart. rewrite take_nil. simpl. lia.
  - cbn [offsetLoop]. destruct (Z.ltb_spec i (line - 1)) as [Hlt|Hge].
    + rewrite IH by lia.
      replace (Z.to_nat (line - 1 - i)) with (S (Z.to_nat (line - 1 - (i + 1)))) by lia.
      rewrite lineStart_S. lia.
    + replace (Z.to_nat (line - 1 - i)) with 0%nat by lia.
      change (lineStart (l :: rest) 0) with 0. lia.
Qed.

Lemma lineStart_nonneg lines k : 0 ≤ lineStart lines k.
Proof.
  unfold lineStart. generalize (take k lines).
  induction l as [|a l IHl]; [done|]. cbn [foldr].
  pose proof (strlen_nonneg a). lia.
Qed.

(** X21. The diagnostic of a parse error never starts before the text and
    never ends after it, and is at most one character long.  For an error
    at a line and a column that exist in the text, it marks exactly the
    one character at that line and column. *)
Theorem diagnostic_position (dbml : string) (err : ParseError.t) :
  let d := diagnosticOf dbml err in
  0 ≤ Diagnostic.from d
  ∧ Diagnostic.to d ≤ strlen dbml
  ∧ Diagnostic.to d ≤ Diagnostic.from d + 1
  ∧ Diagnostic.message d = ParseError.message err
  ∧ ∀ text,
      1 ≤ ParseError.line err →
      splitLines dbml !! Z.to_nat (ParseError.line err - 1) = Some text →
      1 ≤ ParseError.column err ≤ strlen text →
      Diagnostic.from d < strlen dbml
      ∧ Diagnostic.to d = Diagnostic.from d + 1
      ∧ String.get (Z.to_nat (Diagnostic.from d)) dbml
        = String.get (Z.to_nat (ParseError.column err - 1)) text.
Proof.
  cbn zeta. unfold diagnosticOf. cbn [Diagnostic.from Diagnostic.to Diagnostic.message].
  rewrite offsetLoop_spec by lia. rewrite Z.sub_0_r, Z.add_0_l.
  pose proof (lineStart_nonneg (splitLines dbml) (Z.to_nat (ParseError.line err - 1))).
  split; [lia|]. split; [lia|]. split; [lia|]. split; [done|].
  intros text Hline Htext Hcol.
  destruct (splitLines_bound dbml _ _ Htext) as [_ Hbound].
  split; [lia|]. split; [lia|].
  replace (Z.to_nat (lineStart (splitLines dbml) (Z.to_nat (ParseError.line err - 1))
                     + Z.max 0 (ParseError.column err - 1)))
    with (Z.to_nat (lineStart (splitLines dbml) (Z.to_nat (ParseError.line err - 1)))
          + Z.to_nat (ParseError.column err - 1))%nat by lia.
  apply splitLines_get; [done|]. unfold strlen in Hcol. lia.
Qed.

(** The error at line 2, column 3 of [sampleText]. *)
Lemma diagnostic_position_witness :
  Diagnostic.from (diagnosticOf sampleText sampleError) < strlen sampleText
  ∧ Diagnostic.to (diagnosticOf sampleText sampleError)
    = Diagnostic.from (diagnosticOf sampleText sampleError) + 1
  ∧ String.get (Z.to_nat (Diagnostic.from (diagnosticOf sampleText sampleError))) sampleText
    = String.get (Z.to_nat (ParseError.column sampleError - 1)) "  id int".
Proof.
  apply (proj2 (proj2 (proj2 (proj2 (diagnostic_position sampleText sampleError))))).
  - vm_compute. discriminate.
  - reflexivity.
  - split; vm_compute; discriminate.
Defined.

(** X22. [runLayout] never clears the layout: a layout that is shown stays
    until a new one is computed.  When the source does not parse, the
    errors are shown and the layout is computed from the schema parsed
    last, if there is one; when the solver rejects, the layout stays as it
    was. *)
Theorem runLayout_outcomes (parseDBML : string → ParseResult)
    (elk_layout : ElkGraph.t → option ElkResult.t) (st : Page.t) :
  let st' := runLayout parseDBML elk_layout st in
  (is_Some (Page.layout st) → is_Some (Page.layout st'))
  ∧ (∀ errors, parseDBML (Page.source st) = ParseFailed errors →
       Page.parseErrors st' = errors
       ∧ length (Page.diagnostics st') = length errors
       ∧ Page.lastParsedSchema st' = Page.lastParsedSchema st
       ∧ (Page.lastParsedSchema st = None → Page.layout st' = Page.layout st)
       ∧ ∀ schema, Page.lastParsedSchema st = Some schema →
           Page.layout st'
           = match computeLayout elk_layout schema (Page.direction st) with
             | Some layout => Some layout
             | None => Page.layout st
             end)
  ∧ (∀ schema, parseDBML (Page.source st) = ParseOk schema →
       Page.parseErrors st' = [] ∧ Page.diagnostics st' = []
       ∧ Page.lastParsedSchema st' = Some schema
       ∧ Page.layout st'
         = match computeLayout elk_layout schema (Page.direction st) with
           | Some layout => Some layout
           | None => Page.layout st
           end).
Proof.
  cbn zeta. unfold runLayout, parseSource.
  destruct (parseDBML (Page.source st)) as [schema|errors];
    cbn [Page.lastParsedSchema Page.direction Page.layout Page.source
         Page.parseErrors Page.diagnostics].
  - destruct (computeLayout elk_layout schema (Page.direction st)) as [layout|] eqn:Hl;
      cbn [Page.lastParsedSchema Page.direction Page.layout Page.source
           Page.parseErrors Page.diagnostics].
    + split; [by eexists|]. split; [done|]. intros schema' Heq.
      injection Heq as <-. by rewrite Hl.
    + split; [done|]. split; [done|]. intros schema' Heq.
      injection Heq as <-. by rewrite Hl.
  - destruct (Page.lastParsedSchema st) as [schema|] eqn:Hlast.
    + destruct (computeLayout elk_layout schema (Page.direction st)) as [layout|] eqn:Hl;
        cbn [Page.lastParsedSchema Page.direction Page.layout Page.source
             Page.parseErrors Page.diagnostics].
      * split; [by eexists|]. split; [|done]. intros errors' Heq.
        injection Heq as <-. rewrite length_map. do 4 (split; [done|]).
        intros schema' Heq. injection Heq as <-. by rewrite Hl.
      * split; [done|]. split; [|done]. intros errors' Heq.
        injection Heq as <-. rewrite length_map. do 4 (split; [done|]).
        intros schema' Heq. injection Heq as <-. by rewrite Hl.
    + cbn [Page.lastParsedSchema Page.direction Page.layout Page.source
           Page.parseErrors Page.diagnostics].
      split; [done|]. split; [|done]. intros errors' Heq.
      injection Heq as <-. rewrite length_map. do 4 (split; [done|]). done.
Qed.

(** A page whose source does not parse, with [sampleSchema] parsed
    before. *)
Lemma runLayout_outcomes_witness :
  Page.parseErrors (runLayout sampleParser sampleSolver samplePage) = [sampleError]
  ∧ is_Some (Page.layout (runLayout sampleParser sampleSolver samplePage)).
Proof.
  destruct (proj1 (proj2 (runLayout_outcomes sampleParser sampleSolver samplePage))
              [sampleError] eq_refl) as (Herr & _ & _ & _ & Hlayout).
  split; [exact Herr|]. rewrite (Hlayout sampleSchema eq_refl). by eexists.
Defined.

End PageProofs.
